(** * Streaming identification and correlation engine

    A shallow embedding of the three attack stages of the repository:

    - [LIdentifyingAttack] (src/attacks/l_identifying.py), the sliding
      window signature tracker;
    - [RangeCombiningAttack] (src/attacks/range_combining.py), the
      cross-resolution combiner;
    - [CredentialConnectingAttack] (src/attacks/credential_connecting.py),
      the leak correlation matcher.

    Python values are modelled as follows.  An [int] is a [Z].  A [str] is a
    [string], read as its UTF-8 bytes: the byte-wise lexicographic order
    used here is then the code point order of Python (and tokens are
    hexadecimal digest prefixes anyway).  A [tuple] or [list] is a [list].
    A [dict] is an association list in insertion order (Python dictionaries
    iterate in insertion order, and the combiner exposes that order through
    [get_result]).  The iteration order of a [set] is not fixed by Python;
    the matcher is parameterised by it.  A raised exception is the left
    injection of a sum.

    The first part of the file holds the model, the second part its
    properties; the statements that settle the numbered claims of the
    specification are in the modules [LIdentifyingClaims],
    [RangeCombiningClaims] and [CredentialConnectingClaims]. *)

From Stdlib Require Import ZArith String Ascii OrderedTypeEx.
From stdpp Require Import base decidable option list sorting numbers strings gmap.

Local Open Scope Z_scope.

(** ** Python primitives *)

Module Py.

Inductive exn : Type :=
  | TypeError
  | ValueError
  | IndexError
  | KeyError
  | ZeroDivisionError.

Definition result (A : Type) : Type := (exn + A)%type.

Definition ok {A} (a : A) : result A := inr a.
Definition raise {A} (e : exn) : result A := inl e.

Definition bind {A B} (m : result A) (k : A -> result B) : result B :=
  match m with
  | inl e => inl e
  | inr a => k a
  end.

(** A [for] loop whose body may raise. *)
Fixpoint foldM {A B} (f : B -> A -> result B) (l : list A) (b : B)
  : result B :=
  match l with
  | [] => ok b
  | x :: l' => bind (f b x) (foldM f l')
  end.

Definition len {A} (l : list A) : Z := Z.of_nat (length l).

(** Normalisation of one slice bound against a sequence of length [n]:
    a negative bound counts from the end, and every bound is clipped into
    [0 .. n]. *)
Definition clamp (n x : Z) : Z :=
  if x <? 0 then Z.max 0 (x + n) else Z.min x n.

(** [s[lo:hi]] *)
Definition slice {A} (s : list A) (lo hi : Z) : list A :=
  let a := clamp (len s) lo in
  let b := clamp (len s) hi in
  take (Z.to_nat (b - a)) (drop (Z.to_nat a) s).

(** [s[lo:hi]] on a string. *)
Definition str_slice (s : string) (lo hi : Z) : string :=
  string_of_list_ascii (slice (list_ascii_of_string s) lo hi).

(** [s[i]], where a negative [i] counts from the end. *)
Definition index {A} (s : list A) (i : Z) : result A :=
  let j := if i <? 0 then i + len s else i in
  if j <? 0 then raise IndexError
  else match s !! Z.to_nat j with
       | Some x => ok x
       | None => raise IndexError
       end.

(** [s.insert(i, x)] for [0 <= i]: positions past the end append. *)
Definition list_insert_at {A} (s : list A) (i : Z) (x : A) : list A :=
  let j := clamp (len s) i in
  take (Z.to_nat j) s ++ x :: drop (Z.to_nat j) s.

(** [s[i] = x] for an index that is in range; a negative [i] counts from
    the end. *)
Definition setitem {A} (s : list A) (i : Z) (x : A) : list A :=
  <[Z.to_nat (if i <? 0 then i + len s else i) := x]> s.

(** [range(n)] *)
Definition range (n : Z) : list Z := Z.of_nat <$> seq 0 (Z.to_nat n).

(** *** Dictionaries, in insertion order *)

Abbreviation dict K V := (list (K * V)) (only parsing).

Section dict.
Context {K V : Type} `{EqDecision K}.
Implicit Types d : dict K V.

Definition keys d : list K := d.*1.

(** [k in d] *)
Definition mem (k : K) d : bool := bool_decide (k ∈ keys d).

Fixpoint get (k : K) d : option V :=
  match d with
  | [] => None
  | (k', v) :: d' => if decide (k = k') then Some v else get k d'
  end.

(** [d[k] = v]: an existing key keeps its position, a new key is
    appended. *)
Fixpoint set (k : K) (v : V) d : dict K V :=
  match d with
  | [] => [(k, v)]
  | (k', v') :: d' =>
      if decide (k = k') then (k', v) :: d' else (k', v') :: set k v d'
  end.

(** [d.pop(k)] for a key that is present (every call site is guarded by
    [k in d]). *)
Definition pop (k : K) d : dict K V :=
  filter (λ e, e.1 ≠ k) d.

(** [d.update(d2)] *)
Definition update d (d2 : dict K V) : dict K V :=
  foldl (λ acc e, set e.1 e.2 acc) d d2.
End dict.

End Py.

Notation "x <- m ;; k" := (Py.bind m (λ x, k))
  (at level 100, m at next level, right associativity).

(** ** Tokens and their order *)

Abbreviation token := string (only parsing).

Definition token_le (s1 s2 : token) : Prop := String.leb s1 s2 = true.

Global Instance token_le_dec : RelDecision token_le.
Proof. intros s1 s2. unfold token_le. apply _. Defined.

(** [sorted(xs)] on a sequence of strings.  Python's sort is a stable merge
    sort; equal strings are indistinguishable, so the result is the unique
    ascending arrangement of [xs]. *)
Definition sorted (xs : list token) : list token := merge_sort token_le xs.

(** A signature is a sorted tuple of tokens. *)
Abbreviation signature := (list string) (only parsing).

(** ** The window signature tracker (l_identifying.py) *)

Module LIdentifying.

Record LIdentifyingAttack : Type := {
  _query_dict : Py.dict signature Z;
  _current_window : list token;
  _query_count : Z;
  _l : Z;
  _prune_threshold : Z;
  _prune_interval : Z
}.

Definition init (length_l prune_threshold prune_interval : Z)
  : LIdentifyingAttack :=
  {| _query_dict := [];
     _current_window := [];
     _query_count := 0;
     _l := length_l;
     _prune_threshold := prune_threshold;
     _prune_interval := prune_interval |}.

(** [d[k] += n] *)
Definition iadd (k : signature) (n : Z) (d : Py.dict signature Z)
  : Py.result (Py.dict signature Z) :=
  match Py.get k d with
  | Some c => Py.ok (Py.set k (c + n) d)
  | None => Py.raise Py.KeyError
  end.

Definition _prune (self : LIdentifyingAttack) : LIdentifyingAttack :=
  {| _query_dict :=
       filter (λ e, _prune_threshold self <= e.2) (_query_dict self);
     _current_window := _current_window self;
     _query_count := _query_count self;
     _l := _l self;
     _prune_threshold := _prune_threshold self;
     _prune_interval := _prune_interval self |}.

(** The signature taken from a window buffer:
    [tuple(sorted(self._current_window[:self._l]))]. *)
Definition window_signature (l : Z) (window : list token) : signature :=
  sorted (Py.slice window 0 l).

(** The table update of [process], for a buffer that holds at least [l]
    tokens. *)
Definition count_window (l : Z) (window : list token)
    (d : Py.dict signature Z) : Py.result (Py.dict signature Z) :=
  let subseq := window_signature l window in
  d1 <- (if Py.mem subseq d then iadd subseq 1 d
         else Py.ok (Py.set subseq 1 d)) ;;
  if Py.len (remove_dups subseq) <? Py.len subseq
  then iadd subseq 0 d1
  else Py.ok d1.

(** [process(query)].  The argument is typed as a string, so the
    [isinstance] guard of the source always passes. *)
Definition process (self : LIdentifyingAttack) (query : token)
  : Py.result LIdentifyingAttack :=
  let count := _query_count self + 1 in
  let window := _current_window self ++ [query] in
  d <- (if _l self <=? Py.len window
        then count_window (_l self) window (_query_dict self)
        else Py.ok (_query_dict self)) ;;
  window' <- (if _l self <? Py.len window
              then match window with
                   | [] => Py.raise Py.IndexError
                   | _ :: w => Py.ok w
                   end
              else Py.ok window) ;;
  let self' :=
    {| _query_dict := d;
       _current_window := window';
       _query_count := count;
       _l := _l self;
       _prune_threshold := _prune_threshold self;
       _prune_interval := _prune_interval self |} in
  if _prune_interval self =? 0 then Py.raise Py.ZeroDivisionError
  else if count `mod` _prune_interval self =? 0 then Py.ok (_prune self')
  else Py.ok self'.

Definition get_result (self : LIdentifyingAttack) : Py.dict signature Z :=
  _query_dict self.

Definition reset (self : LIdentifyingAttack) : LIdentifyingAttack :=
  {| _query_dict := [];
     _current_window := _current_window self;
     _query_count := 0;
     _l := _l self;
     _prune_threshold := _prune_threshold self;
     _prune_interval := _prune_interval self |}.

(** Feeding a stream, one token at a time. *)
Fixpoint feed (self : LIdentifyingAttack) (stream : list token)
  : Py.result LIdentifyingAttack :=
  match stream with
  | [] => Py.ok self
  | q :: rest => self' <- process self q ;; feed self' rest
  end.

(** The table after one more occurrence of signature [s]: what the
    guarded [+= 1] / [= 1] of [process] amounts to. *)
Definition bump (s : signature) (d : Py.dict signature Z)
  : Py.dict signature Z :=
  match Py.get s d with
  | Some c => Py.set s (c + 1) d
  | None => Py.set s 1 d
  end.

(** The state [process] reaches before its pruning test. *)
Definition advance (self : LIdentifyingAttack) (query : token)
  : LIdentifyingAttack :=
  let window := _current_window self ++ [query] in
  {| _query_dict :=
       if _l self <=? Py.len window
       then bump (window_signature (_l self) window) (_query_dict self)
       else _query_dict self;
     _current_window :=
       if _l self <? Py.len window then tail window else window;
     _query_count := _query_count self + 1;
     _l := _l self;
     _prune_threshold := _prune_threshold self;
     _prune_interval := _prune_interval self |}.

End LIdentifying.

(** ** The resolution combiner (range_combining.py) *)

Module RangeCombining.

Record RangeCombiningAttack : Type := {
  _combined_results : list (Py.dict signature Z);
  _lengths_processed : list Z
}.

Definition init : RangeCombiningAttack :=
  {| _combined_results := []; _lengths_processed := [] |}.

(** [if k in t: t.pop(k)] *)
Definition discard (k : signature) (t : Py.dict signature Z)
  : Py.dict signature Z :=
  if Py.mem k t then Py.pop k t else t.

(** The offsets loop of both pruning branches: for [i] in [range(n)],
    discard the slice [subseq[i:i+width]] from [t]. *)
Definition discard_slices (width n : Z) (t : Py.dict signature Z)
    (subseq : signature) : Py.dict signature Z :=
  foldl (λ t i, discard (Py.slice subseq i (i + width)) t) t (Py.range n).

(** Branch [l < query_length]: every key of [result_dict] prunes the stored
    table at [pos].  The stored table is looked up anew in every
    iteration. *)
Definition prune_stored (pos : nat) (l query_length : Z)
    (result_dict : Py.dict signature Z)
    (tables : list (Py.dict signature Z))
  : Py.result (list (Py.dict signature Z)) :=
  Py.foldM (λ tables subseq,
      Py.foldM (λ tables i,
          t <- Py.index tables (Z.of_nat pos) ;;
          Py.ok (<[pos := discard (Py.slice subseq i (i + l)) t]> tables))
        (Py.range (query_length - l)) tables)
    (Py.keys result_dict) tables.

(** Branch [l > query_length]: every key of the stored table [t] prunes
    [result_dict]. *)
Definition prune_incoming (l query_length : Z) (t : Py.dict signature Z)
    (result_dict : Py.dict signature Z) : Py.dict signature Z :=
  foldl (discard_slices query_length (l - query_length)) result_dict
    (Py.keys t).

(** The loop state: [smaller_pos], the stored tables and [result_dict]. *)
Definition scan_state : Type :=
  (Z * list (Py.dict signature Z) * Py.dict signature Z)%type.

(** One iteration of [for pos, l in enumerate(self._lengths_processed)]. *)
Definition visit (query_length : Z) (acc : scan_state) (pos : nat) (l : Z)
  : Py.result scan_state :=
  let '(smaller_pos, tables, result_dict) := acc in
  if l <? query_length then
    tables' <- prune_stored pos l query_length result_dict tables ;;
    Py.ok (Z.of_nat pos, tables', result_dict)
  else if query_length <? l then
    t <- Py.index tables (Z.of_nat pos) ;;
    Py.ok (smaller_pos, tables, prune_incoming l query_length t result_dict)
  else
    Py.ok (Z.of_nat pos, tables, result_dict).

Fixpoint scan (query_length : Z) (pos : nat) (lengths : list Z)
    (acc : scan_state) : Py.result scan_state :=
  match lengths with
  | [] => Py.ok acc
  | l :: lengths' =>
      acc' <- visit query_length acc pos l ;;
      scan query_length (S pos) lengths' acc'
  end.

(** The body of [load_l_identifying_result] once some table is stored:
    the loop, then the insertion or the equal-length merge. *)
Definition merge_into (self : RangeCombiningAttack)
    (result_dict : Py.dict signature Z) (query_length : Z)
  : Py.result (RangeCombiningAttack * Py.dict signature Z) :=
  acc <- scan query_length 0 (_lengths_processed self)
           (-1, _combined_results self, result_dict) ;;
  let '(smaller_pos, tables, result_dict') := acc in
  l <- Py.index (_lengths_processed self) smaller_pos ;;
  if l <? query_length then
    Py.ok ({| _combined_results :=
                Py.list_insert_at tables (smaller_pos + 1) result_dict';
              _lengths_processed :=
                Py.list_insert_at (_lengths_processed self)
                  (smaller_pos + 1) query_length |},
           result_dict')
  else if l =? query_length then
    t <- Py.index tables smaller_pos ;;
    Py.ok ({| _combined_results :=
                Py.setitem tables smaller_pos (Py.update t result_dict');
              _lengths_processed := _lengths_processed self |},
           result_dict')
  else Py.raise Py.ValueError.

(** [load_l_identifying_result(result_dict, query_length)].  The caller's
    dictionary is mutated in place, so its final value is returned next to
    the new combiner state. *)
Definition load_l_identifying_result (self : RangeCombiningAttack)
    (result_dict : Py.dict signature Z) (query_length : Z)
  : Py.result (RangeCombiningAttack * Py.dict signature Z) :=
  match _combined_results self with
  | [] =>
      Py.ok ({| _combined_results := [result_dict];
                _lengths_processed :=
                  _lengths_processed self ++ [query_length] |},
             result_dict)
  | _ :: _ => merge_into self result_dict query_length
  end.

Definition get_result (self : RangeCombiningAttack) : list signature :=
  concat (Py.keys <$> _combined_results self).

(** A sequence of loads; the combiner state is threaded through. *)
Fixpoint load_all (self : RangeCombiningAttack)
    (calls : list (Py.dict signature Z * Z)) : Py.result RangeCombiningAttack :=
  match calls with
  | [] => Py.ok self
  | (result_dict, query_length) :: calls' =>
      r <- load_l_identifying_result self result_dict query_length ;;
      load_all r.1 calls'
  end.

(** *** The loop, read off entry by entry

    The loop walks [_lengths_processed] and reads [_combined_results] at
    the same position, so on a combiner whose two lists have the same
    length it is a single pass over the paired entries.  The three
    components of its final state are given separately. *)

(** Every key of [src] prunes [target]. *)
Definition prune_by (width n : Z) (src target : Py.dict signature Z)
  : Py.dict signature Z :=
  foldl (discard_slices width n) target (Py.keys src).

(** [result_dict] after the entry [(l, t)]. *)
Definition incoming_step (query_length : Z) (d : Py.dict signature Z)
    (e : Z * Py.dict signature Z) : Py.dict signature Z :=
  if query_length <? e.1
  then prune_by query_length (e.1 - query_length) e.2 d
  else d.

(** The stored table of the entry [(l, t)] after its iteration. *)
Definition stored_step (query_length : Z) (d : Py.dict signature Z)
    (e : Z * Py.dict signature Z) : Py.dict signature Z :=
  if e.1 <? query_length
  then prune_by e.1 (query_length - e.1) d e.2
  else e.2.

Definition incoming_after (query_length : Z)
    (entries : list (Z * Py.dict signature Z)) (d : Py.dict signature Z)
  : Py.dict signature Z :=
  foldl (incoming_step query_length) d entries.

(** The stored entries after the loop. *)
Fixpoint settle (query_length : Z)
    (entries : list (Z * Py.dict signature Z)) (d : Py.dict signature Z)
  : list (Z * Py.dict signature Z) :=
  match entries with
  | [] => []
  | e :: entries' =>
      (e.1, stored_step query_length d e)
        :: settle query_length entries' (incoming_step query_length d e)
  end.

(** [smaller_pos] after the loop: the last position whose length is at most
    [query_length], or the initial value. *)
Fixpoint anchor (query_length : Z) (pos : nat) (lengths : list Z)
    (smaller_pos : Z) : Z :=
  match lengths with
  | [] => smaller_pos
  | l :: lengths' =>
      anchor query_length (S pos) lengths'
        (if l <=? query_length then Z.of_nat pos else smaller_pos)
  end.

(** The two lists of a combiner move in step. *)
Definition aligned (self : RangeCombiningAttack) : Prop :=
  length (_combined_results self) = length (_lengths_processed self).

Definition entries (self : RangeCombiningAttack)
  : list (Z * Py.dict signature Z) :=
  zip (_lengths_processed self) (_combined_results self).

Definition of_entries (es : list (Z * Py.dict signature Z))
  : RangeCombiningAttack :=
  {| _combined_results := es.*2; _lengths_processed := es.*1 |}.

(** The keys that one pruning pass removes: every slice
    [subseq[i:i+width]], for [subseq] a key of [src] and [i] in
    [range(n)]. *)
Definition removed_keys (width n : Z) (src : Py.dict signature Z)
  : list signature :=
  subseq ← Py.keys src;
  (λ i, Py.slice subseq i (i + width)) <$> Py.range n.

(** The keys that the loop removes from [result_dict]: those pruned by
    the stored tables whose length lies above [query_length]. *)
Definition incoming_removed (query_length : Z)
    (entries : list (Z * Py.dict signature Z)) : list signature :=
  e ← entries;
  if query_length <? e.1
  then removed_keys query_length (e.1 - query_length) e.2
  else [].

End RangeCombining.

(** ** The leak correlation matcher (credential_connecting.py) *)

Module CredentialConnecting.

(** The iteration order of a Python [set] depends on the hash seed and on
    the insertion history.  It is kept abstract: the matcher is defined for
    any iteration order that enumerates each member once. *)
Class SetOrder : Type := {
  (** the iteration order of [set(xs)] *)
  set_of : list string -> list string;
  set_of_NoDup : forall xs, NoDup (set_of xs);
  set_of_elem : forall xs x, x ∈ set_of xs <-> x ∈ xs;
  (** the iteration order of [set(xs) & set(ys)] *)
  set_and : list string -> list string -> list string;
  set_and_NoDup : forall xs ys, NoDup (set_and xs ys);
  set_and_elem : forall xs ys x, x ∈ set_and xs ys <-> x ∈ xs /\ x ∈ ys;
  (** the iteration order of a set of positions after [s.add(i)] *)
  set_add : list nat -> nat -> list nat;
  set_add_NoDup : forall s i, NoDup s -> NoDup (set_add s i);
  set_add_elem : forall s i j, j ∈ set_add s i <-> j = i \/ j ∈ s
}.

Record CredentialConnectingAttack : Type := {
  _credentials_data : list (list string);
  _hash_credentials_data : list (list string)
}.

(** One field of a line of the leaked dataset: its text [c] and the pair
    [(username, password)] that [eval(c)] yields. *)
Record credential : Type := {
  c_text : string;
  c_username : string;
  c_password : string
}.

(** The loop [for c in credentials] of [pre_compute], filling [hash_list]
    and [plaintext_list].  [sha256_hexdigest s] stands for
    [hashlib.sha256(s.encode()).hexdigest()]. *)
Definition digest_group (sha256_hexdigest : string -> string)
    (query_type : string) (prefix_length : Z) (credentials : list credential)
  : list string * list string :=
  foldl (λ acc c,
           let digest s := Py.str_slice (sha256_hexdigest s) 0 prefix_length in
           if decide (query_type = "user"%string) then
             (acc.1 ++ [digest (c_username c)], acc.2 ++ [c_username c])
           else if decide (query_type = "pass"%string) then
             (acc.1 ++ [digest (c_password c)], acc.2 ++ [c_password c])
           else if decide (query_type = "cred"%string) then
             (acc.1 ++ [digest (c_text c)], acc.2 ++ [c_text c])
           else acc)
    ([], []) credentials.

(** [pre_compute(query_type, prefix_length)] over the parsed lines of the
    dataset: a line is the list [line.split('\t')[:-1]] of its fields. *)
Definition pre_compute (sha256_hexdigest : string -> string)
    (self : CredentialConnectingAttack) (query_type : string)
    (prefix_length : Z) (lines : list (list credential))
  : CredentialConnectingAttack :=
  foldl (λ self credentials,
           if 10 <? Py.len credentials then
             let lists :=
               digest_group sha256_hexdigest query_type prefix_length
                 credentials in
             {| _credentials_data := _credentials_data self ++ [lists.2];
                _hash_credentials_data :=
                  _hash_credentials_data self ++ [lists.1] |}
           else self)
    self lines.

(** One entry of [match_result_list]: [(indices, details)]. *)
Abbreviation match_result :=
  (list nat * list (list nat))%type (only parsing).

(** One connection record:
    [[matches_list, unmatches_list, other_candidate]]. *)
Record ConnectionRecord : Type := {
  matches_list : list string;
  unmatches_list : list string;
  other_candidate : list string
}.

(** [d.get(k, v)], and [d[k]] on a [defaultdict] or a [Counter]. *)
Definition get_default {K V} `{EqDecision K} (k : K) (d : Py.dict K V)
    (v : V) : V :=
  default v (Py.get k d).

(** *** Multisets: [collections.Counter] *)

(** [Counter(xs)]: counts in order of first occurrence. *)
Definition Counter (xs : list string) : Py.dict string Z :=
  foldl (λ c x, Py.set x (get_default x c 0 + 1) c) [] xs.

(** [c1 - c2]: the positive differences, in the order of [c1], followed by
    the negated negative counts of keys that only [c2] has. *)
Definition counter_sub (c1 c2 : Py.dict string Z) : Py.dict string Z :=
  omap (λ kv, let n := kv.2 - get_default kv.1 c2 0 in
              if 0 <? n then Some (kv.1, n) else None) c1
  ++ omap (λ kv, if negb (Py.mem kv.1 c1) && (kv.2 <? 0)
                 then Some (kv.1, 0 - kv.2) else None) c2.

(** [c.elements()] *)
Definition elements (c : Py.dict string Z) : list string :=
  kv ← c; replicate (Z.to_nat kv.2) kv.1.

(** [max(xs, key=key)] for [xs = best :: rest]: the first maximal
    element. *)
Fixpoint max_by {A} (key : A -> Z) (best : A) (rest : list A) : A :=
  match rest with
  | [] => best
  | x :: rest' => max_by key (if key best <? key x then x else best) rest'
  end.

Section matcher.
Context `{SetOrder}.

(** [index[elem].add(i)] on the [defaultdict(set)]. *)
Definition index_add (index : Py.dict string (list nat)) (i : nat)
    (elem : string) : Py.dict string (list nat) :=
  Py.set elem (set_add (get_default elem index []) i) index.

(** The inverted index: token to the set of group positions. *)
Definition build_index (B : list (list string))
  : Py.dict string (list nat) :=
  foldl (λ index ib, foldl (λ index elem, index_add index ib.1 elem)
                       index (set_of ib.2))
    [] (imap pair B).

(** [counter[idx] += 1] *)
Definition counter_incr (counter : Py.dict nat Z) (idx : nat)
  : Py.dict nat Z :=
  Py.set idx (get_default idx counter 0 + 1) counter.

(** The tally of one candidate: for every distinct token, one count for
    every group that the index lists for it. *)
Definition tally (index : Py.dict string (list nat)) (a : list string)
  : Py.dict nat Z :=
  foldl (λ counter elem,
           foldl counter_incr counter (get_default elem index []))
    [] (set_of a).

(** The positions of [item] in [b]. *)
Definition positions_of (b : list string) (item : string) : list nat :=
  ix ← imap pair b; if decide (ix.2 = item) then [ix.1] else [].

(** The body of the candidate loop; [[]] stands for an iteration that
    appends nothing. *)
Definition match_candidate (index : Py.dict string (list nat))
    (B : list (list string)) (min_overlap : Z) (a : list string)
  : Py.result (list match_result) :=
  let counter := tally index a in
  match Py.keys counter with
  | [] => Py.ok []
  | k :: ks =>
      let best_idx := max_by (λ x, get_default x counter 0) k ks in
      if min_overlap <=? get_default best_idx counter 0 then
        b <- Py.index B (Z.of_nat best_idx) ;;
        Py.ok [([best_idx], [set_and a b ≫= positions_of b])]
      else Py.ok []
  end.

Definition _find_best_matches (A B : list (list string)) (min_overlap : Z)
  : Py.result (list match_result) :=
  let index := build_index B in
  Py.foldM (λ results a,
              r <- match_candidate index B min_overlap a ;;
              Py.ok (results ++ r))
    A [].

(** The loop [for d in det], filling [matches_list] and
    [matches_hash_list]. *)
Definition resolve (self : CredentialConnectingAttack)
    (indices : list nat) (pos : nat) (det : list nat)
  : Py.result (list string * list string) :=
  Py.foldM (λ acc d,
              g <- Py.index indices (Z.of_nat pos) ;;
              plain <- Py.index (_credentials_data self) (Z.of_nat g) ;;
              m <- Py.index plain (Z.of_nat d) ;;
              hashes <- Py.index (_hash_credentials_data self)
                          (Z.of_nat g) ;;
              h <- Py.index hashes (Z.of_nat d) ;;
              Py.ok (acc.1 ++ [m], acc.2 ++ [h]))
    det ([], []).

(** The state of the output loop: [connected_results] and [match_test].
    The members of [match_test] are the strings [str(sorted(...))] of
    lists of strings; that rendering is injective, so the sorted lists
    themselves stand for them. *)
Abbreviation run_state :=
  (list ConnectionRecord * list (list string))%type (only parsing).

(** The body of [for pos, det in enumerate(details)]. *)
Definition connect (self : CredentialConnectingAttack)
    (identified_queries : list (list string)) (idpos : nat)
    (indices : list nat) (acc : run_state) (pd : nat * list nat)
  : Py.result run_state :=
  ml <- resolve self indices pd.1 pd.2 ;;
  if bool_decide (sorted ml.1 ∈ acc.2) then Py.ok acc
  else
    query <- Py.index identified_queries (Z.of_nat idpos) ;;
    g <- Py.index indices (Z.of_nat pd.1) ;;
    plain <- Py.index (_credentials_data self) (Z.of_nat g) ;;
    Py.ok (acc.1 ++ [{| matches_list := ml.1;
                        unmatches_list :=
                          elements (counter_sub (Counter query)
                                      (Counter ml.2));
                        other_candidate :=
                          elements (counter_sub (Counter plain)
                                      (Counter ml.1)) |}],
           acc.2 ++ [sorted ml.1]).

(** The body of
    [for idpos, (indices, details) in enumerate(match_result_list)]. *)
Definition connect_entry (self : CredentialConnectingAttack)
    (identified_queries : list (list string)) (acc : run_state)
    (ie : nat * match_result) : Py.result run_state :=
  if Py.len ie.2.1 =? 0 then Py.ok acc
  else Py.foldM (connect self identified_queries ie.1 ie.2.1)
         (imap pair ie.2.2) acc.

Definition run (self : CredentialConnectingAttack)
    (identified_queries : list (list string)) (min_overlap : Z)
  : Py.result (list ConnectionRecord) :=
  match_result_list <-
    _find_best_matches identified_queries (_hash_credentials_data self)
      min_overlap ;;
  acc <- Py.foldM (connect_entry self identified_queries)
           (imap pair match_result_list) ([], []) ;;
  Py.ok acc.1.
End matcher.

(** Every position that the index lists is a position below [n]. *)
Definition index_bounded (n : nat) (index : Py.dict string (list nat))
  : Prop :=
  forall elem s i, Py.get elem index = Some s -> i ∈ s -> (i < n)%nat.

(** The shape of the entries that [_find_best_matches] produces over the
    groups [B]: one group position, and one list of positions inside that
    group. *)
Definition from_group (B : list (list string)) (r : match_result) : Prop :=
  exists g b pl,
    r = ([g], [pl]) /\ B !! g = Some b
    /\ Forall (λ d, (d < length b)%nat) pl.

(** The two tables of a matcher are index-aligned: group by group, one
    plaintext per token. *)
Definition aligned (self : CredentialConnectingAttack) : Prop :=
  Forall2 (λ plain hashes, length plain = length hashes)
    (_credentials_data self) (_hash_credentials_data self).

(** The deduplication key of a record: [sorted(matches_list)]. *)
Definition dedup_key (r : ConnectionRecord) : list string :=
  sorted (matches_list r).

(** The invariant of the output loop: [match_test] holds the key of every
    record appended so far, each once. *)
Definition dedup_inv (acc : list ConnectionRecord * list (list string))
  : Prop :=
  acc.2 = dedup_key <$> acc.1 /\ NoDup acc.2.

(** [match_test] only grows. *)
Definition test_grows (acc acc' : list ConnectionRecord * list (list string))
  : Prop :=
  forall k, k ∈ acc.2 -> k ∈ acc'.2.

(** The tally over a single group: [n] tokens of the candidate found. *)
Definition single_tally (n : nat) : Py.dict nat Z :=
  match n with
  | O => []
  | S _ => [(0%nat, Z.of_nat n)]
  end.

(** The number of distinct tokens of [a] that occur in [g]. *)
Definition overlap `{SetOrder} (a g : list string) : nat :=
  length (filter (λ x, x ∈ g) (set_of a)).

(** The number of occurrences of [x] in [xs]. *)
Definition occurrences (xs : list string) (x : string) : nat :=
  count_occ (decide_rel (=)) xs x.

(** The plaintext aligned with token [z] in a group without repeated
    tokens. *)
Definition plain_of (g plain : list string) (z : string) : string :=
  match positions_of g z with
  | [] => EmptyString
  | i :: _ => default EmptyString (plain !! i)
  end.

(** One admissible iteration order: members in order of insertion. *)
Definition insertion_set_add (s : list nat) (i : nat) : list nat :=
  if decide (i ∈ s) then s else s ++ [i].

Definition insertion_set_and (xs ys : list string) : list string :=
  filter (λ x, x ∈ ys) (remove_dups xs).

End CredentialConnecting.

(** ** Measures and invariants of the tracker *)

Module LIdentifyingInv.
Import LIdentifying.

(** The sum of the counts of a signature table. *)
Definition total_count (d : Py.dict signature Z) : Z :=
  foldr (λ e acc, e.2 + acc) 0 d.

(** What holds of the signature table of a tracker of window length [l]:
    no signature is listed twice, and every entry is an ascending tuple of
    [l] tokens with a positive count. *)
Definition well_formed (l : Z) (d : Py.dict signature Z) : Prop :=
  NoDup (Py.keys d)
  /\ Forall (λ e, Sorted token_le e.1 /\ Py.len e.1 = l /\ 1 <= e.2) d.

End LIdentifyingInv.

(** ** Invariants of the combiner *)

Module RangeCombiningInv.
Import RangeCombining.

(** The table [t1], of length [l1], holds no slice of width [l1] of a key
    of [t2], of length [l2], taken at an offset in [range(l2 - l1)]. *)
Definition pruned_against (l1 : Z) (t1 : Py.dict signature Z) (l2 : Z)
    (t2 : Py.dict signature Z) : Prop :=
  forall k i,
    k ∈ Py.keys t2 -> 0 <= i < l2 - l1 ->
    Py.slice k i (i + l1) ∉ Py.keys t1.

(** Every stored table is pruned against every stored table of greater
    length. *)
Definition subsumed (es : list (Z * Py.dict signature Z)) : Prop :=
  forall e1 e2,
    e1 ∈ es -> e2 ∈ es -> e1.1 < e2.1 ->
    pruned_against e1.1 e1.2 e2.1 e2.2.

(** The entry [e'] stems from an entry of [es] of the same length: it has
    lost keys at most, none at all if its length lies above
    [query_length], and if its length lies below it is pruned against the
    table [d] of length [query_length]. *)
Definition derived (query_length : Z) (d : Py.dict signature Z)
    (es : list (Z * Py.dict signature Z)) (e' : Z * Py.dict signature Z)
  : Prop :=
  exists t,
    (e'.1, t) ∈ es
    /\ e'.2 `sublist_of` t
    /\ (query_length < e'.1 -> e'.2 = t)
    /\ (e'.1 < query_length -> pruned_against e'.1 e'.2 query_length d).

(** How a successful load of [query_length] changes the list of recorded
    lengths [ls] into [ls']: the first load records its length; a new
    length is inserted right after the last length below it; a length
    that is already recorded leaves the list as it is. *)
Definition lengths_after (query_length : Z) (ls ls' : list Z) : Prop :=
  (ls = [] /\ ls' = [query_length])
  \/ (exists pre l post,
        ls = pre ++ l :: post /\ l < query_length
        /\ Forall (λ m, query_length < m) post
        /\ ls' = pre ++ l :: query_length :: post)
  \/ (ls' = ls /\ query_length ∈ ls).

End RangeCombiningInv.

(** ** What the matcher computes *)

Module CredentialConnectingInv.
Import CredentialConnecting.

Section spec.
Context `{SetOrder}.

(** [index] is the inverted index of the groups [B]: for every token, the
    positions of the groups that hold it, each listed once. *)
Definition index_of (B : list (list string))
    (index : Py.dict string (list nat)) : Prop :=
  forall elem,
    NoDup (get_default elem index [])
    /\ forall i, i ∈ get_default elem index []
                 <-> exists b, B !! i = Some b /\ elem ∈ b.

(** The candidate [a] shares at least one token, and at least
    [min_overlap] distinct tokens, with some group of [B]. *)
Definition matchable (B : list (list string)) (min_overlap : Z)
    (a : list string) : Prop :=
  Exists (λ b, (1 <= overlap a b)%nat /\ min_overlap <= Z.of_nat (overlap a b))
    B.

Global Instance matchable_dec B min_overlap a :
  Decision (matchable B min_overlap a).
Proof. unfold matchable. apply _. Defined.

(** The entry [r] names a group of [B] of greatest overlap with [a],
    together with the positions of that group whose token is in [a]. *)
Definition best_match (B : list (list string)) (min_overlap : Z)
    (a : list string) (r : match_result) : Prop :=
  exists g b,
    r = ([g], [set_and a b ≫= positions_of b])
    /\ B !! g = Some b
    /\ (1 <= overlap a b)%nat
    /\ min_overlap <= Z.of_nat (overlap a b)
    /\ Forall (λ b', (overlap a b' <= overlap a b)%nat) B.
End spec.

(** What every record of [run] satisfies: it stems from one group of the
    leaked data, whose plaintexts it splits into the matched ones and the
    other candidates, and it matches at least one plaintext and at least
    [min_overlap] of them. *)
Definition record_of_group (self : CredentialConnectingAttack)
    (min_overlap : Z) (r : ConnectionRecord) : Prop :=
  exists g plain,
    _credentials_data self !! g = Some plain
    /\ matches_list r ++ other_candidate r ≡ₚ plain
    /\ 1 <= Py.len (matches_list r)
    /\ min_overlap <= Py.len (matches_list r).


(** The plaintext that [pre_compute] takes from a credential. *)
Definition plaintext_of (query_type : string) (c : credential)
  : option string :=
  if decide (query_type = "user"%string) then Some (c_username c)
  else if decide (query_type = "pass"%string) then Some (c_password c)
  else if decide (query_type = "cred"%string) then Some (c_text c)
  else None.

End CredentialConnectingInv.

(** ** Loading the datasets (utils.py) *)

Module Utils.
Import CredentialConnecting.

(** One line of the plaintext file: the tuple
    [(pos, times, hash_list, plaintext_list)] that [eval(line)] yields. *)
Record series_line : Type := {
  s_pos : Z;
  s_times : Z;
  s_hash_list : list string;
  s_plaintext_list : list string
}.

(** [load_plaintext_series] over the parsed lines of the file; the result
    is the pair [(data_series, total)]. *)
Definition load_plaintext_series (lines : list series_line)
    (windows_low windows_high min_count : Z) : list (list string) * Z :=
  foldl (λ acc line,
           if (windows_low <=? Py.len (s_hash_list line))
              && (Py.len (s_hash_list line) <=? windows_high)
              && (min_count <=? s_times line)
           then (acc.1 ++ [s_hash_list line], acc.2 + 1)
           else acc)
    ([], 0) lines.

(** [load_leaked_dataset] over the parsed lines of the file: a line is the
    list [line.split('\t')[:-1]] of its fields.  [str_credential c] stands
    for [str(eval(c))]. *)
Definition load_leaked_dataset (str_credential : credential -> string)
    (lines : list (list credential)) (query_type : string)
  : Py.result (gset string) :=
  if decide (query_type = "user"%string) then
    Py.ok (foldl (λ leaked_set credentials,
                    foldl (λ leaked_set c,
                             {[ str_credential c ]} ∪ leaked_set)
                      leaked_set credentials)
             ∅ lines)
  else if decide (query_type = "pass"%string) then
    Py.ok (foldl (λ leaked_set credentials,
                    if Py.len credentials <? 10 then leaked_set
                    else foldl (λ leaked_set c,
                                  {[ c_password c ]} ∪ leaked_set)
                           leaked_set credentials)
             ∅ lines)
  else if decide (query_type = "cred"%string) then
    Py.ok (foldl (λ leaked_set credentials,
                    foldl (λ leaked_set c,
                             {[ str_credential c ]} ∪ leaked_set)
                      leaked_set credentials)
             ∅ lines)
  else Py.raise Py.ValueError.

End Utils.

(** ** The connection metrics (evaluation/metrics.py) *)

Module Metrics.
Import CredentialConnecting.

(** One line of the plaintext file of the query generator: the tuple
    [(posp, times, unmatches_list, plaintext)] that [eval(line)] yields. *)
Record origin_line : Type := {
  o_posp : Z;
  o_times : Z;
  o_unmatches_list : list string;
  o_plaintext : list string
}.

(** [len(plaintext) < 10 or _ < 2 or len(plaintext) > 20] *)
Definition skipped (line : origin_line) : bool :=
  (Py.len (o_plaintext line) <? 10) || (o_times line <? 2)
  || (20 <? Py.len (o_plaintext line)).

Section metrics.
Context `{SetOrder}.

(** The body of the loop over the plaintext file for a line that is not
    skipped: whether the best count reaches [overlap].  The counter loop
    is the one of [_find_best_matches]. *)
Definition best_count_reaches (index : Py.dict string (list nat))
    (overlap_min : Z) (plaintext : list string) : bool :=
  let counter := tally index plaintext in
  match Py.keys counter with
  | [] => false
  | k :: ks =>
      let best_idx := max_by (λ x, get_default x counter 0) k ks in
      overlap_min <=? get_default best_idx counter 0
  end.

(** The loop over the plaintext file, shared by the two functions; the
    printed line count is left out. *)
Definition count_successes (index : Py.dict string (list nat))
    (origin : list origin_line) (overlap_min : Z) : Z :=
  foldl (λ success line,
           if skipped line then success
           else if best_count_reaches index overlap_min (o_plaintext line)
                then success + 1
                else success)
    0 origin.

(** The index of [calculate_connected_success_rate]: every member of
    [row[0] + row[2]] is listed under the position of its row. *)
Definition connected_index (connected_result : list ConnectionRecord)
  : Py.dict string (list nat) :=
  foldl (λ index kr,
           foldl (λ index matches, index_add index kr.1 matches) index
             (matches_list kr.2 ++ other_candidate kr.2))
    [] (imap pair connected_result).

(** [calculate_connected_success_rate(connected_result, query_type,
    origin_path, overlap)] over the parsed lines of the file at
    [origin_path]; [query_type] is not used by the function. *)
Definition calculate_connected_success_rate
    (connected_result : list ConnectionRecord) (origin : list origin_line)
    (overlap_min : Z) : Z :=
  count_successes (connected_index connected_result) origin overlap_min.

(** The first loop of [calculate_ideal_connected]: the index and the
    counter [pos] of the lines kept. *)
Definition ideal_index (leak : list (list credential)) (query_type : string)
  : Py.dict string (list nat) * nat :=
  foldl (λ st credentials,
           if Py.len credentials <=? 10 then st
           else
             (foldl (λ index c,
                       if decide (query_type = "pass"%string) then
                         index_add index st.2 (c_password c)
                       else if decide (query_type = "user"%string) then
                         index_add index st.2 (c_username c)
                       else if decide (query_type = "cred"%string) then
                         index_add index st.2 (c_text c)
                       else index)
                st.1 credentials,
              S st.2))
    ([], 0%nat) leak.

(** [calculate_ideal_connected(leak_set_path, query_set_path, origin_path,
    query_type, overlap)] over the parsed lines of the two files that it
    reads. *)
Definition calculate_ideal_connected (leak : list (list credential))
    (origin : list origin_line) (query_type : string) (overlap_min : Z) : Z :=
  count_successes (ideal_index leak query_type).1 origin overlap_min.
End metrics.

(** [row[0] + row[2]] for every row of a connected result. *)
Definition candidate_lists (connected_result : list ConnectionRecord)
  : list (list string) :=
  (λ row, matches_list row ++ other_candidate row) <$> connected_result.

(** [calculate_connected_popular_rate(connected_result, query_type)]:
    the two counters at the end of the loop.  [top_password] is the set
    read from the file of popular passwords, and [password_of c] stands
    for [eval(c)[1]]. *)
Definition popular_counts (top_password : gset string)
    (password_of : string -> string)
    (connected_result : list ConnectionRecord) (query_type : string)
  : Z * Z :=
  foldl (λ acc p,
           let total_p := acc.1 + Py.len (matches_list p) in
           if decide (query_type = "pass"%string) then
             (total_p,
              foldl (λ popular_p pw,
                       if bool_decide (pw ∈ top_password)
                       then popular_p + 1 else popular_p)
                acc.2 (matches_list p))
           else if decide (query_type = "cred"%string) then
             (total_p,
              foldl (λ popular_p c,
                       if bool_decide (password_of c ∈ top_password)
                       then popular_p + 1 else popular_p)
                acc.2 (matches_list p))
           else (total_p, acc.2))
    (0, 0) connected_result.

(** [a / b] on integers.  The quotient of the source is a float; it is
    kept as the pair of its operands. *)
Definition truediv (a b : Z) : Py.result (Z * Z) :=
  if b =? 0 then Py.raise Py.ZeroDivisionError else Py.ok (a, b).

(** The result of [calculate_connected_popular_rate]:
    [(total_p, popular_p, rate)], where [None] stands for the literal [0]
    of the guarded branch. *)
Definition calculate_connected_popular_rate (top_password : gset string)
    (password_of : string -> string)
    (connected_result : list ConnectionRecord) (query_type : string)
  : Py.result (Z * Z * option (Z * Z)) :=
  let counts :=
    popular_counts top_password password_of connected_result query_type in
  if counts.1 =? 0 then Py.ok (0, 0, None)
  else
    rate <- truediv counts.2 counts.1 ;;
    Py.ok (counts.1, counts.2, Some rate).

End Metrics.

(** ** The identification stage of the driver (run_experiments.py) *)

Module Pipeline.

(** [for id_attack in l_identifying_attack_list:
       rc.load_l_identifying_result(id_attack.get_result(),
                                    query_length=id_attack._l)]:
    every tracker hands a copy of its table to the combiner. *)
Definition checkpoint (rc : RangeCombining.RangeCombiningAttack)
    (l_identifying_attack_list : list LIdentifying.LIdentifyingAttack)
  : Py.result RangeCombining.RangeCombiningAttack :=
  RangeCombining.load_all rc
    ((λ id_attack, (LIdentifying.get_result id_attack,
                    LIdentifying._l id_attack))
       <$> l_identifying_attack_list).

(** [for id_attack in l_identifying_attack_list:
       id_attack.process(query)] *)
Definition process_all
    (l_identifying_attack_list : list LIdentifying.LIdentifyingAttack)
    (query : token) : Py.result (list LIdentifying.LIdentifyingAttack) :=
  Py.foldM (λ done id_attack,
              id_attack' <- LIdentifying.process id_attack query ;;
              Py.ok (done ++ [id_attack']))
    l_identifying_attack_list [].

(** The trackers of the driver, one per length of [range(low, high)]. *)
Definition trackers (length_low length_high min_threshold : Z)
  : list LIdentifying.LIdentifyingAttack :=
  (λ qlen, LIdentifying.init qlen min_threshold 5000000)
    <$> ((λ i, length_low + i) <$> Py.range (length_high - length_low)).

(** The state of the loop over the query file.  An entry of one of the
    two graphs is [None] for the literal [0] that the lists start with, and
    the operands of the division for an appended rate. *)
Record loop_state : Type := {
  st_attack_list : list LIdentifying.LIdentifyingAttack;
  st_rc : RangeCombining.RangeCombiningAttack;
  st_cnt : Z;
  st_y_success_graph : list (option (Z * Z));
  st_y_effective_graph : list (option (Z * Z))
}.

(** What a checkpoint does with the combined result, once all tables are
    loaded: the two rates are computed and appended.  The two arguments
    [calculate_successful_identification] and
    [calculate_effective_identification] stand for the MinHash metrics of
    evaluation/metrics.py, library computations taken as functions.  The
    [print] that follows evaluates the same two quotients again. *)
Definition evaluate
    (calculate_successful_identification
       calculate_effective_identification
       : list signature -> list (list string) -> Z)
    (plaintext_series : list (list string)) (total_num : Z)
    (rc : RangeCombining.RangeCombiningAttack)
    (y_success_graph y_effective_graph : list (option (Z * Z)))
  : Py.result (list (option (Z * Z)) * list (option (Z * Z))) :=
  let identified_results := RangeCombining.get_result rc in
  let success_rate :=
    calculate_successful_identification identified_results plaintext_series in
  let effective_rate :=
    calculate_effective_identification identified_results plaintext_series in
  s <- Metrics.truediv success_rate total_num ;;
  e <- Metrics.truediv effective_rate (Py.len identified_results) ;;
  Py.ok (y_success_graph ++ [Some s], y_effective_graph ++ [Some e]).

(** One iteration of [for line in f]; [query] is [line.strip()]. *)
Definition identification_step
    (calculate_successful_identification
       calculate_effective_identification
       : list signature -> list (list string) -> Z)
    (plaintext_series : list (list string)) (total_num : Z)
    (st : loop_state) (query : token) : Py.result loop_state :=
  let cnt := st_cnt st + 1 in
  ts <- process_all (st_attack_list st) query ;;
  if cnt `mod` 20000000 =? 0 then
    rc <- checkpoint (st_rc st) ts ;;
    graphs <- evaluate calculate_successful_identification
                calculate_effective_identification plaintext_series
                total_num rc (st_y_success_graph st)
                (st_y_effective_graph st) ;;
    Py.ok {| st_attack_list := ts;
             st_rc := rc;
             st_cnt := cnt;
             st_y_success_graph := graphs.1;
             st_y_effective_graph := graphs.2 |}
  else
    Py.ok {| st_attack_list := ts;
             st_rc := st_rc st;
             st_cnt := cnt;
             st_y_success_graph := st_y_success_graph st;
             st_y_effective_graph := st_y_effective_graph st |}.

(** The identification stage of [main] up to the end of the loop: the
    fresh combiner, the trackers, the plaintext series loaded from the
    parsed lines [series_lines] of the plaintext file, and the loop over
    the queries. *)
Definition identification
    (calculate_successful_identification
       calculate_effective_identification
       : list signature -> list (list string) -> Z)
    (length_low length_high min_threshold : Z)
    (series_lines : list Utils.series_line) (queries : list token)
  : Py.result loop_state :=
  let series :=
    Utils.load_plaintext_series series_lines length_low (length_high - 1)
      10 in
  Py.foldM
    (identification_step calculate_successful_identification
       calculate_effective_identification series.1 series.2)
    queries
    {| st_attack_list := trackers length_low length_high min_threshold;
       st_rc := RangeCombining.init;
       st_cnt := 0;
       st_y_success_graph := [None];
       st_y_effective_graph := [None] |}.

End Pipeline.

(** * Properties *)

(** ** The token order *)

Global Instance token_le_total : Total token_le.
Proof. intros s1 s2. apply String.leb_total. Qed.

Global Instance token_le_antisymm : AntiSymm (=) token_le.
Proof. intros s1 s2. apply String.leb_antisym. Qed.

Lemma token_le_cases (s1 s2 : token) :
  token_le s1 s2 <-> s1 = s2 \/ String_as_OT.lt s1 s2.
Proof.
  unfold token_le, String.leb.
  destruct (String.compare s1 s2) eqn:Hc; split.
  - intros _. left. by apply String.compare_eq_iff.
  - done.
  - intros _. right. by apply String_as_OT.cmp_lt.
  - done.
  - done.
  - intros [-> | Hlt].
    + assert (String.compare s2 s2 = Eq) as He by by apply String_as_OT.cmp_eq.
      congruence.
    + apply String_as_OT.cmp_lt in Hlt. unfold String_as_OT.cmp in Hlt.
      congruence.
Qed.

Global Instance token_le_trans : Transitive token_le.
Proof.
  intros s1 s2 s3. rewrite !token_le_cases.
  intros [-> | H12] [-> | H23]; auto.
  right. by eapply String_as_OT.lt_trans.
Qed.

Lemma sorted_Sorted (xs : list token) : Sorted token_le (sorted xs).
Proof. apply Sorted_merge_sort, _. Qed.

Lemma sorted_Permutation (xs : list token) : sorted xs ≡ₚ xs.
Proof. apply merge_sort_Permutation. Qed.

Lemma sorted_perm_eq (xs ys : list token) : xs ≡ₚ ys -> sorted xs = sorted ys.
Proof.
  intros Hp. apply (Sorted_unique token_le); try apply sorted_Sorted.
  by rewrite !sorted_Permutation.
Qed.

Lemma sorted_length (xs : list token) : length (sorted xs) = length xs.
Proof. apply Permutation_length, sorted_Permutation. Qed.

(** ** Dictionaries *)

Section dict_facts.
Context {K V : Type} `{EqDecision K}.
Implicit Types (d : Py.dict K V) (k : K) (v : V).

Lemma get_None k d : Py.get k d = None <-> k ∉ Py.keys d.
Proof.
  unfold Py.keys. induction d as [| [k' v'] d IH]; csimpl.
  - split; [intros _; apply not_elem_of_nil | done].
  - rewrite not_elem_of_cons. destruct (decide (k = k')) as [-> | Hne].
    + split; [done | by intros [? _]].
    + rewrite IH. split; [by intros ? | by intros [_ ?]].
Qed.

Lemma get_Some_mem k d v : Py.get k d = Some v -> Py.mem k d = true.
Proof.
  intros Hg. unfold Py.mem. apply bool_decide_eq_true.
  destruct (decide (k ∈ Py.keys d)) as [|Hn]; [done |].
  apply get_None in Hn. congruence.
Qed.

Lemma mem_false_get k d : Py.mem k d = false -> Py.get k d = None.
Proof.
  unfold Py.mem. intros Hm. apply bool_decide_eq_false in Hm.
  by apply get_None.
Qed.

Lemma mem_true_get k d : Py.mem k d = true -> is_Some (Py.get k d).
Proof.
  intros Hm. destruct (Py.get k d) eqn:Hg; [by eexists |].
  apply get_None in Hg. unfold Py.mem in Hm.
  by apply bool_decide_eq_true in Hm.
Qed.

Lemma get_set_eq k v d : Py.get k (Py.set k v d) = Some v.
Proof.
  induction d as [| [k' v'] d IH]; simpl.
  - by rewrite decide_True.
  - destruct (decide (k = k')) as [-> | Hne]; simpl.
    + by rewrite decide_True.
    + by rewrite decide_False.
Qed.

Lemma get_set_ne k k' v d :
  k ≠ k' -> Py.get k (Py.set k' v d) = Py.get k d.
Proof.
  intros Hne. induction d as [| [k0 v0] d IH]; simpl.
  - by rewrite decide_False.
  - destruct (decide (k' = k0)) as [-> | Hne0]; simpl.
    + by rewrite !decide_False.
    + destruct (decide (k = k0)); [done | apply IH].
Qed.

Lemma set_same k v d : Py.get k d = Some v -> Py.set k v d = d.
Proof.
  induction d as [| [k' v'] d IH]; simpl; [done |].
  destruct (decide (k = k')) as [-> | Hne].
  - by intros [= ->].
  - intros Hg. by rewrite IH.
Qed.

Lemma set_set k v1 v2 d : Py.set k v2 (Py.set k v1 d) = Py.set k v2 d.
Proof.
  induction d as [| [k' v'] d IH]; simpl.
  - by rewrite decide_True.
  - destruct (decide (k = k')) as [-> | Hne]; simpl.
    + by rewrite decide_True.
    + by rewrite decide_False, IH.
Qed.

Lemma keys_set_present k v d :
  k ∈ Py.keys d -> Py.keys (Py.set k v d) = Py.keys d.
Proof.
  unfold Py.keys. induction d as [| [k' v'] d IH]; csimpl.
  - by intros ?%elem_of_nil.
  - destruct (decide (k = k')) as [-> | Hne]; csimpl; [done |].
    intros [? | Hin]%elem_of_cons; [done |]. by rewrite IH.
Qed.

Lemma keys_set_absent k v d :
  k ∉ Py.keys d -> Py.keys (Py.set k v d) = Py.keys d ++ [k].
Proof.
  unfold Py.keys. induction d as [| [k' v'] d IH]; csimpl; [done |].
  rewrite not_elem_of_cons. intros [Hne Hin].
  rewrite decide_False by done. csimpl. by rewrite IH.
Qed.

Lemma elem_of_keys_set k k' v d :
  k' ∈ Py.keys (Py.set k v d) <-> k' = k \/ k' ∈ Py.keys d.
Proof.
  destruct (decide (k ∈ Py.keys d)) as [Hin | Hin].
  - rewrite keys_set_present by done. intuition congruence.
  - rewrite keys_set_absent by done.
    rewrite elem_of_app, list_elem_of_singleton. tauto.
Qed.

Lemma keys_pop k d : Py.keys (Py.pop k d) = filter (λ k', k' ≠ k) (Py.keys d).
Proof.
  unfold Py.keys, Py.pop. induction d as [| [k' v'] d IH]; [done |].
  rewrite fmap_cons, !filter_cons. cbn [fst].
  destruct (decide (k' ≠ k)); rewrite ?fmap_cons; cbn [fst]; by rewrite IH.
Qed.

Lemma elem_of_keys_pop k k' d :
  k' ∈ Py.keys (Py.pop k d) <-> k' ≠ k /\ k' ∈ Py.keys d.
Proof. rewrite keys_pop, list_elem_of_filter. done. Qed.

Lemma pop_absent k d : k ∉ Py.keys d -> Py.pop k d = d.
Proof.
  unfold Py.keys, Py.pop. induction d as [| [k' v'] d IH]; [done |].
  rewrite fmap_cons, not_elem_of_cons. cbn [fst]. intros [Hne Hin].
  rewrite filter_cons. cbn [fst]. rewrite decide_True by done. by rewrite IH.
Qed.
End dict_facts.

(** ** The tracker *)

Module LIdentifyingFacts.
Import LIdentifying.

Lemma iadd_zero s d c : Py.get s d = Some c -> iadd s 0 d = Py.ok d.
Proof.
  intros Hg. unfold iadd. rewrite Hg, Z.add_0_r. by rewrite set_same.
Qed.

Lemma get_bump s d : is_Some (Py.get s (bump s d)).
Proof. unfold bump. destruct (Py.get s d); rewrite get_set_eq; by eexists. Qed.

(** [count_window] never raises: both [+=] find their key. *)
Lemma count_window_bump l w d :
  count_window l w d = Py.ok (bump (window_signature l w) d).
Proof.
  unfold count_window. set (s := window_signature l w).
  assert (Hfirst : (if Py.mem s d then iadd s 1 d else Py.ok (Py.set s 1 d))
                   = Py.ok (bump s d)).
  { unfold bump, iadd. destruct (Py.mem s d) eqn:Hm.
    - apply mem_true_get in Hm as [c Hc]. by rewrite Hc.
    - apply mem_false_get in Hm. by rewrite Hm. }
  rewrite Hfirst. simpl.
  destruct (Py.len (remove_dups s) <? Py.len s); [| done].
  destruct (get_bump s d) as [c Hc]. by apply iadd_zero with c.
Qed.

Lemma slice_all {A} (w : list A) : Py.slice w 0 (Py.len w) = w.
Proof.
  unfold Py.slice, Py.clamp, Py.len.
  change (0 <? 0) with false. cbv iota.
  destruct (Z.of_nat (length w) <? 0) eqn:Hneg;
    [apply Z.ltb_lt in Hneg; lia |].
  rewrite Z.min_id, Z.min_l by lia.
  rewrite Z.sub_0_r, Nat2Z.id. simpl. apply firstn_all.
Qed.

(** Apart from the division by a zero interval, [process] never raises. *)
Lemma process_advance self q :
  _prune_interval self ≠ 0 ->
  process self q =
    Py.ok (if (_query_count self + 1) `mod` _prune_interval self =? 0
           then _prune (advance self q) else advance self q).
Proof.
  intros Hi. unfold process, advance.
  destruct (_l self <=? Py.len (_current_window self ++ [q])) eqn:Hge;
    rewrite ?count_window_bump; simpl;
    (destruct (_l self <? Py.len (_current_window self ++ [q])) eqn:Hgt;
     [ destruct (_current_window self ++ [q]) as [| x w] eqn:Hw;
       [ by destruct (_current_window self) | ]
     | ]);
    simpl; apply Z.eqb_neq in Hi; rewrite Hi;
    by destruct ((_query_count self + 1) `mod` _prune_interval self =? 0).
Qed.

Lemma process_zero_interval self q :
  _prune_interval self = 0 -> process self q = Py.raise Py.ZeroDivisionError.
Proof.
  intros Hi. unfold process.
  destruct (_l self <=? Py.len (_current_window self ++ [q]));
    rewrite ?count_window_bump; simpl;
    (destruct (_l self <? Py.len (_current_window self ++ [q]));
     [ destruct (_current_window self ++ [q]) as [| x w] eqn:Hw;
       [ by destruct (_current_window self) | ]
     | ]);
    simpl; by rewrite Hi.
Qed.

Lemma prune_entries self e :
  e ∈ _query_dict (_prune self) -> _prune_threshold self <= e.2.
Proof. unfold _prune. simpl. by intros [? _]%list_elem_of_filter. Qed.

Lemma process_no_prune self q :
  _prune_interval self ≠ 0 ->
  (_query_count self + 1) `mod` _prune_interval self ≠ 0 ->
  process self q = Py.ok (advance self q).
Proof.
  intros Hi Hm. rewrite process_advance by done.
  apply Z.eqb_neq in Hm. by rewrite Hm.
Qed.

Lemma bump_fresh s : bump s [] = [(s, 1)].
Proof. done. Qed.

Lemma bump_head s n d : bump s ((s, n) :: d) = (s, n + 1) :: d.
Proof. unfold bump. simpl. by rewrite !decide_True. Qed.

(** Decide the closed tests of a goal by evaluation. *)
Ltac eval_tests :=
  repeat match goal with
    | |- context [if ?c then _ else _] =>
        let v := eval vm_compute in c in
        (change c with v); cbv iota
    end.

(** One symbolic step of [process] on a concrete buffer, leaving [sorted]
    folded. *)
Ltac tracker_step :=
  rewrite process_no_prune by (by vm_compute);
  unfold advance at 1;
  cbn [_query_dict _current_window _query_count _l _prune_threshold
       _prune_interval app tail Py.bind Py.ok];
  eval_tests;
  repeat match goal with
    | |- context [window_signature ?l ?w] =>
        let w' := eval cbv in (Py.slice w 0 l) in
        change (window_signature l w) with (sorted w')
    end.

End LIdentifyingFacts.

Module LIdentifyingClaims.
Import LIdentifying LIdentifyingFacts.

(** C6. Canonicalisation: for a window of exactly [l] tokens and any
    permutation of it, the tracker computes the same signature; that
    signature is the ascending arrangement of the window with every
    duplicate retained, and both windows update the signature table in the
    same way. *)
Theorem signature_permutation_invariant (l : Z) (w1 w2 : list token)
    (d : Py.dict signature Z) :
  Py.len w1 = l ->
  w1 ≡ₚ w2 ->
  window_signature l w1 = window_signature l w2
  /\ Sorted token_le (window_signature l w1)
  /\ window_signature l w1 ≡ₚ w1
  /\ count_window l w1 d = count_window l w2 d.
Proof.
  intros Hl Hp.
  assert (Hl2 : Py.len w2 = l).
  { unfold Py.len in *. by rewrite <- (Permutation_length Hp). }
  assert (Hsig : window_signature l w1 = window_signature l w2).
  { unfold window_signature. rewrite <- Hl at 1. rewrite <- Hl2.
    rewrite !slice_all. by apply sorted_perm_eq. }
  split; [done |]. split; [apply sorted_Sorted |]. split.
  - unfold window_signature. rewrite <- Hl, slice_all. apply sorted_Permutation.
  - by rewrite !count_window_bump, Hsig.
Qed.

Lemma signature_permutation_invariant_witness :
  window_signature 3 ["b"; "a"; "b"]%string
  = window_signature 3 ["b"; "b"; "a"]%string.
Proof.
  apply (signature_permutation_invariant 3 ["b"; "a"; "b"]%string
           ["b"; "b"; "a"]%string []).
  - reflexivity.
  - apply perm_skip, perm_swap.
Defined.

(** C7. Pruning bound: whenever the token counter reaches a multiple of
    the pruning interval, [process] ends with a pruning pass, and every
    entry of the signature table it leaves has a count of at least the
    pruning threshold. *)
Theorem prune_pass_bound (self self' : LIdentifyingAttack) (q : token) :
  process self q = Py.ok self' ->
  (_query_count self + 1) `mod` _prune_interval self = 0 ->
  self' = _prune (advance self q)
  /\ forall s c, (s, c) ∈ _query_dict self' -> _prune_threshold self' <= c.
Proof.
  intros Hp Hm.
  destruct (decide (_prune_interval self = 0)) as [Hz | Hnz].
  { rewrite process_zero_interval in Hp by done. discriminate. }
  rewrite process_advance in Hp by done.
  rewrite Hm in Hp. change (0 =? 0) with true in Hp. cbv iota in Hp.
  injection Hp as <-. split; [done |].
  intros s c Hin. by apply prune_entries in Hin.
Qed.

Lemma prune_pass_bound_witness :
  exists self',
    process (init 1 2 1) "a"%string = Py.ok self'
    /\ forall s c, (s, c) ∈ _query_dict self' -> _prune_threshold self' <= c.
Proof.
  eexists. split; [reflexivity |].
  apply (prune_pass_bound (init 1 2 1) _ "a"%string); reflexivity.
Defined.

(** C10. In every state of the tracker, [reset] empties the signature
    table and zeroes the token counter, and it leaves the sliding buffer
    and the three parameters as they are.  The next call of [process]
    therefore works on the tokens buffered before the reset followed by
    the new token: if these are at least [_l] tokens, the one signature it
    counts is taken from them, with count 1, and otherwise it counts
    nothing; either way the buffer it leaves holds the old tokens followed
    by the new one, less the first token once more than [_l] are held.
    The call ends as every call does: with [ZeroDivisionError] for a zero
    interval, and with a pruning pass when the counter, now 1, is a
    multiple of the interval. *)
Theorem reset_keeps_window (self : LIdentifyingAttack) (q : token) :
  _query_dict (reset self) = []
  /\ _query_count (reset self) = 0
  /\ _current_window (reset self) = _current_window self
  /\ _l (reset self) = _l self
  /\ _prune_threshold (reset self) = _prune_threshold self
  /\ _prune_interval (reset self) = _prune_interval self
  /\ process (reset self) q
     = (if _prune_interval self =? 0 then Py.raise Py.ZeroDivisionError
        else Py.ok (if 1 `mod` _prune_interval self =? 0
                    then _prune (advance (reset self) q)
                    else advance (reset self) q))
  /\ _query_dict (advance (reset self) q)
     = (if _l self <=? Py.len (_current_window self ++ [q])
        then [(window_signature (_l self) (_current_window self ++ [q]), 1)]
        else [])
  /\ _current_window (advance (reset self) q)
     = (if _l self <? Py.len (_current_window self ++ [q])
        then tail (_current_window self ++ [q])
        else _current_window self ++ [q])
  /\ _query_count (advance (reset self) q) = 1.
Proof.
  do 6 (split; [done |]). split; [| split; [| done]].
  - destruct (_prune_interval self =? 0) eqn:Hi.
    + apply Z.eqb_eq in Hi. by apply process_zero_interval.
    + apply Z.eqb_neq in Hi. by rewrite process_advance.
  - unfold advance, reset. cbn [_query_dict _current_window _l].
    by destruct (_l self <=? Py.len (_current_window self ++ [q])).
Qed.

Lemma reset_keeps_window_witness :
  process (reset {| _query_dict := [(["x"; "y"; "z"]%string, 4)];
                    _current_window := ["y"; "z"]%string;
                    _query_count := 5;
                    _l := 3;
                    _prune_threshold := 2;
                    _prune_interval := 100 |}) "a"%string
  = Py.ok {| _query_dict := [(["a"; "y"; "z"]%string, 1)];
             _current_window := ["y"; "z"; "a"]%string;
             _query_count := 1;
             _l := 3;
             _prune_threshold := 2;
             _prune_interval := 100 |}.
Proof.
  destruct (reset_keeps_window
              {| _query_dict := [(["x"; "y"; "z"]%string, 4)];
                 _current_window := ["y"; "z"]%string;
                 _query_count := 5;
                 _l := 3;
                 _prune_threshold := 2;
                 _prune_interval := 100 |} "a"%string)
    as (_ & _ & _ & _ & _ & _ & Hp & _).
  rewrite Hp. reflexivity.
Defined.

(** C1 (as the code behaves). Feeding [a,b,c,a,b,c,a,b,c] to a tracker
    built with [L = 3], threshold 2 and interval 100 leaves exactly one
    table entry, the signature [sorted(a,b,c)], with count 7: the buffer
    holds at least three tokens after each of the last seven tokens, and
    every one of those steps counts the same signature. *)
Theorem abc_stream_result (a b c : token) :
  exists self',
    feed (init 3 2 100) [a; b; c; a; b; c; a; b; c] = Py.ok self'
    /\ get_result self' = [(sorted [a; b; c], 7)].
Proof.
  assert (Hbca : sorted [b; c; a] = sorted [a; b; c]).
  { apply sorted_perm_eq. by rewrite (Permutation_app_comm [b; c] [a]). }
  assert (Hcab : sorted [c; a; b] = sorted [a; b; c]).
  { apply sorted_perm_eq. by rewrite (Permutation_app_comm [c] [a; b]). }
  unfold feed, init.
  do 3 tracker_step. rewrite bump_fresh.
  do 6 (tracker_step; rewrite ?Hbca, ?Hcab, bump_head).
  eexists. split; reflexivity.
Qed.

(** C1 as stated fails: on the tokens "a", "b", "c" the count is not 3. *)
Lemma abc_stream_count_not_three :
  ~ exists self',
      feed (init 3 2 100)
        ["a"; "b"; "c"; "a"; "b"; "c"; "a"; "b"; "c"]%string = Py.ok self'
      /\ get_result self' = [(sorted ["a"; "b"; "c"]%string, 3)].
Proof.
  intros (self' & Hfeed & Hres).
  vm_compute in Hfeed. injection Hfeed as <-.
  vm_compute in Hres. discriminate.
Qed.

End LIdentifyingClaims.
(** ** The combiner *)

Module RangeCombiningFacts.
Import RangeCombining.

Implicit Types (d t : Py.dict signature Z) (ts : list (Py.dict signature Z)).
Implicit Types (ls : list Z) (q l sp : Z).

Lemma index_nat {A} (s : list A) (i : nat) (x : A) :
  s !! i = Some x -> Py.index s (Z.of_nat i) = Py.ok x.
Proof.
  intros Hx. unfold Py.index.
  destruct (Z.of_nat i <? 0) eqn:Hneg; [apply Z.ltb_lt in Hneg; lia |].
  rewrite Hneg, Nat2Z.id, Hx. done.
Qed.

Lemma index_nat_None {A} (s : list A) (i : nat) :
  s !! i = None -> Py.index s (Z.of_nat i) = Py.raise Py.IndexError.
Proof.
  intros Hx. unfold Py.index.
  destruct (Z.of_nat i <? 0) eqn:Hneg; [apply Z.ltb_lt in Hneg; lia |].
  rewrite Hneg, Nat2Z.id, Hx. done.
Qed.

Lemma index_last {A} (s : list A) (x : A) :
  Py.index (s ++ [x]) (-1) = Py.ok x.
Proof.
  unfold Py.index, Py.len. change (-1 <? 0) with true. cbv iota.
  rewrite length_app. simpl length.
  destruct (-1 + Z.of_nat (length s + 1) <? 0) eqn:Hneg;
    [apply Z.ltb_lt in Hneg; lia |].
  replace (Z.to_nat (-1 + Z.of_nat (length s + 1))) with (length s) by lia.
  by rewrite list_lookup_middle.
Qed.

Lemma insert_middle {A} (pre : list A) (x y : A) (post : list A) :
  <[length pre := y]> (pre ++ x :: post) = pre ++ y :: post.
Proof. rewrite insert_app_r_alt by lia. by rewrite Nat.sub_diag. Qed.

Lemma prune_stored_lockstep pre t ts' l q d :
  prune_stored (length pre) l q d (pre ++ t :: ts')
  = Py.ok (pre ++ prune_by l (q - l) d t :: ts').
Proof.
  unfold prune_stored, prune_by.
  generalize (Py.keys d). intros ks. revert t.
  induction ks as [| k ks IH]; intros t; [done |].
  simpl.
  assert (Hin : forall offs t0,
    Py.foldM (λ tables i,
        t1 <- Py.index tables (Z.of_nat (length pre)) ;;
        Py.ok (<[length pre := discard (Py.slice k i (i + l)) t1]> tables))
      offs (pre ++ t0 :: ts')
    = Py.ok (pre ++ foldl (λ t1 i, discard (Py.slice k i (i + l)) t1) t0 offs
               :: ts')).
  { induction offs as [| i offs IHis]; intros t0; [done |].
    simpl. rewrite (index_nat _ _ t0) by by rewrite list_lookup_middle.
    simpl. rewrite insert_middle. apply IHis. }
  rewrite Hin. simpl. apply IH.
Qed.

(** On aligned lists the loop never raises, and its final state is given
    by [anchor], [settle] and [incoming_after]. *)
Lemma scan_lockstep q ls : forall ts pre sp d,
  length ts = length ls ->
  scan q (length pre) ls (sp, pre ++ ts, d)
  = Py.ok (anchor q (length pre) ls sp,
           pre ++ (settle q (zip ls ts) d).*2,
           incoming_after q (zip ls ts) d).
Proof.
  induction ls as [| l ls IH]; intros ts pre sp d Hlen.
  - by destruct ts.
  - destruct ts as [| t ts]; [done |]. simpl in Hlen.
    injection Hlen as Hlen. simpl scan. unfold visit.
    unfold incoming_after. simpl zip. simpl settle. simpl foldl.
    fold (incoming_after q (zip ls ts) (incoming_step q d (l, t))).
    rewrite fmap_cons.
    unfold stored_step, incoming_step. simpl fst. simpl snd.
    destruct (l <? q) eqn:Hlt.
    + rewrite prune_stored_lockstep. simpl.
      assert ((q <? l) = false) as -> by lia.
      assert ((l <=? q) = true) as -> by lia.
      specialize (IH ts (pre ++ [prune_by l (q - l) d t])
                    (Z.of_nat (length pre)) d Hlen).
      rewrite length_app in IH. simpl in IH. rewrite Nat.add_1_r in IH.
      rewrite <- !app_assoc in IH. exact IH.
    + destruct (q <? l) eqn:Hgt.
      * rewrite (index_nat _ _ t) by by rewrite list_lookup_middle.
        simpl. assert ((l <=? q) = false) as -> by lia.
        specialize (IH ts (pre ++ [t]) sp (prune_by q (l - q) t d) Hlen).
        rewrite length_app in IH. simpl in IH. rewrite Nat.add_1_r in IH.
        rewrite <- !app_assoc in IH. exact IH.
      * simpl. assert ((l <=? q) = true) as -> by lia.
        specialize (IH ts (pre ++ [t]) (Z.of_nat (length pre)) d Hlen).
        rewrite length_app in IH. simpl in IH. rewrite Nat.add_1_r in IH.
        rewrite <- !app_assoc in IH. exact IH.
Qed.

Implicit Types (e : Z * Py.dict signature Z)
  (es : list (Z * Py.dict signature Z)).

(** *** The anchor *)

Lemma anchor_above q ls : forall pos sp,
  Forall (λ l, q < l) ls -> anchor q pos ls sp = sp.
Proof.
  induction ls as [| l ls IH]; intros pos sp Hall; [done |].
  apply Forall_cons in Hall as [Hl Hall]. simpl.
  assert ((l <=? q) = false) as -> by lia. by apply IH.
Qed.

Lemma anchor_app q ls1 ls2 : forall pos sp,
  anchor q pos (ls1 ++ ls2) sp
  = anchor q (pos + length ls1) ls2 (anchor q pos ls1 sp).
Proof.
  induction ls1 as [| l ls1 IH]; intros pos sp; simpl.
  - by rewrite Nat.add_0_r.
  - rewrite IH. f_equal. lia.
Qed.

Lemma anchor_at q ls1 l ls2 sp :
  l <= q -> Forall (λ l, q < l) ls2 ->
  anchor q 0 (ls1 ++ l :: ls2) sp = Z.of_nat (length ls1).
Proof.
  intros Hl Hall. rewrite anchor_app. simpl.
  assert ((l <=? q) = true) as -> by lia. by rewrite anchor_above.
Qed.

(** Either every length lies above [q], or the list splits at the last
    length that does not. *)
Lemma split_at_anchor q es :
  Forall (λ e, q < e.1) es
  \/ exists es1 e es2,
       es = es1 ++ e :: es2 /\ e.1 <= q /\ Forall (λ e, q < e.1) es2.
Proof.
  induction es as [| e es IH]; [by left |].
  destruct IH as [Hall | (es1 & e' & es2 & -> & Hle & Hall)].
  - destruct (decide (q < e.1)) as [Hlt | Hge].
    + left. by constructor.
    + right. exists [], e, es. split; [done |]. split; [lia | done].
  - right. exists (e :: es1), e', es2. by split.
Qed.

(** *** The loop components *)

Lemma incoming_after_app q es1 es2 d :
  incoming_after q (es1 ++ es2) d
  = incoming_after q es2 (incoming_after q es1 d).
Proof. unfold incoming_after. by rewrite foldl_app. Qed.

Lemma settle_app q es1 es2 : forall d,
  settle q (es1 ++ es2) d
  = settle q es1 d ++ settle q es2 (incoming_after q es1 d).
Proof.
  induction es1 as [| e es1 IH]; intros d; [done |].
  simpl. by rewrite IH.
Qed.

Lemma settle_above q es : forall d,
  Forall (λ e, q < e.1) es -> settle q es d = es.
Proof.
  induction es as [| [l t] es IH]; intros d Hall; [done |].
  apply Forall_cons in Hall as [Hl Hall]. simpl in *.
  unfold stored_step. simpl. assert ((l <? q) = false) as -> by lia.
  by rewrite IH.
Qed.

Lemma incoming_after_cons_le q l t es d :
  l <= q -> incoming_after q ((l, t) :: es) d = incoming_after q es d.
Proof.
  intros Hl. unfold incoming_after. simpl. unfold incoming_step at 2. simpl.
  by assert ((q <? l) = false) as -> by lia.
Qed.

Lemma settle_cons_lt q l t es d :
  l < q ->
  settle q ((l, t) :: es) d = (l, prune_by l (q - l) d t) :: settle q es d.
Proof.
  intros Hl. simpl. unfold stored_step, incoming_step. simpl.
  assert ((l <? q) = true) as -> by lia.
  by assert ((q <? l) = false) as -> by lia.
Qed.

Lemma settle_cons_eq q t es d :
  settle q ((q, t) :: es) d = (q, t) :: settle q es d.
Proof.
  simpl. unfold stored_step, incoming_step. simpl. by rewrite Z.ltb_irrefl.
Qed.

Lemma settle_fst q es : forall d, (settle q es d).*1 = es.*1.
Proof.
  induction es as [| e es IH]; intros d; [done |].
  csimpl. by rewrite IH.
Qed.

Lemma settle_length q es d : length (settle q es d) = length es.
Proof. by rewrite <- (length_fmap fst), settle_fst, length_fmap. Qed.

(** *** List updates at a known position *)

Lemma index_middle {A} (pre : list A) (x : A) (post : list A) :
  Py.index (pre ++ x :: post) (Z.of_nat (length pre)) = Py.ok x.
Proof. apply index_nat. by rewrite list_lookup_middle. Qed.

Lemma insert_at_middle {A} (pre post : list A) (x : A) :
  Py.list_insert_at (pre ++ post) (Z.of_nat (length pre)) x
  = pre ++ x :: post.
Proof.
  unfold Py.list_insert_at, Py.clamp, Py.len.
  destruct (Z.of_nat (length pre) <? 0) eqn:Hneg;
    [apply Z.ltb_lt in Hneg; lia |].
  rewrite length_app, Z.min_l by lia. rewrite Nat2Z.id.
  by rewrite take_app_length, drop_app_length.
Qed.

Lemma setitem_middle {A} (pre : list A) (x y : A) (post : list A) :
  Py.setitem (pre ++ x :: post) (Z.of_nat (length pre)) y = pre ++ y :: post.
Proof.
  unfold Py.setitem.
  destruct (Z.of_nat (length pre) <? 0) eqn:Hneg;
    [apply Z.ltb_lt in Hneg; lia |].
  rewrite Nat2Z.id. apply insert_middle.
Qed.

(** *** Aligned combiners *)

Lemma of_entries_aligned es : aligned (of_entries es).
Proof. unfold aligned, of_entries. simpl. by rewrite !length_fmap. Qed.

Lemma aligned_of_entries self : aligned self -> self = of_entries (entries self).
Proof.
  unfold aligned, of_entries, entries. destruct self as [ts ls]. simpl.
  intros Hlen. by rewrite fst_zip, snd_zip by lia.
Qed.

Lemma entries_of_entries es : entries (of_entries es) = es.
Proof. unfold entries, of_entries. simpl. apply zip_fst_snd. Qed.

Lemma load_fresh d q :
  load_l_identifying_result (of_entries []) d q
  = Py.ok (of_entries [(q, d)], d).
Proof. done. Qed.

Lemma load_nonempty es d q :
  es ≠ [] ->
  load_l_identifying_result (of_entries es) d q = merge_into (of_entries es) d q.
Proof. by destruct es. Qed.

Lemma scan_of_entries q es d :
  scan q 0 es.*1 (-1, es.*2, d)
  = Py.ok (anchor q 0 es.*1 (-1), (settle q es d).*2, incoming_after q es d).
Proof.
  pose proof (scan_lockstep q es.*1 es.*2 [] (-1) d) as Hs.
  rewrite zip_fst_snd in Hs. apply Hs. by rewrite !length_fmap.
Qed.

(** *** Pruning is a filter *)

Lemma discard_pop k t : discard k t = Py.pop k t.
Proof.
  unfold discard, Py.mem. case_bool_decide as Hin; [done |].
  by rewrite pop_absent.
Qed.

Lemma discard_all_filter (ks : list signature) : forall t,
  foldl (λ t k, discard k t) t ks = filter (λ kv, kv.1 ∉ ks) t.
Proof.
  induction ks as [| k ks IH]; intros t; simpl.
  - symmetry. induction t as [| e t IHt]; [done |].
    rewrite filter_cons_True by apply not_elem_of_nil. by rewrite IHt.
  - rewrite IH, discard_pop. unfold Py.pop. rewrite list_filter_filter.
    apply list_filter_iff. intros e. rewrite not_elem_of_cons. tauto.
Qed.

Lemma prune_by_filter width n src t :
  prune_by width n src t
  = filter (λ kv, kv.1 ∉ removed_keys width n src) t.
Proof.
  unfold prune_by, removed_keys. rewrite <- discard_all_filter.
  generalize (Py.keys src). intros ks. revert t.
  induction ks as [| k ks IH]; intros t; [done |].
  rewrite bind_cons, foldl_app. simpl. rewrite <- IH. f_equal.
  unfold discard_slices. by rewrite foldl_fmap.
Qed.

Lemma prune_by_idem width n src t :
  prune_by width n src (prune_by width n src t) = prune_by width n src t.
Proof. rewrite !prune_by_filter. by apply list_filter_filter_l. Qed.

Lemma prune_by_keys_NoDup width n src t :
  NoDup (Py.keys t) -> NoDup (Py.keys (prune_by width n src t)).
Proof.
  intros Hnd. rewrite prune_by_filter.
  eapply sublist_NoDup; [exact Hnd |].
  unfold Py.keys. apply fmap_sublist, sublist_filter.
Qed.

Lemma incoming_after_keys_NoDup q es : forall d,
  NoDup (Py.keys d) -> NoDup (Py.keys (incoming_after q es d)).
Proof.
  induction es as [| e es IH]; intros d Hnd; [done |].
  unfold incoming_after. simpl. apply IH. unfold incoming_step.
  destruct (q <? e.1); [by apply prune_by_keys_NoDup | done].
Qed.

(** A second pass of the loop over already settled entries changes
    nothing, and prunes the incoming table exactly as the first pass did. *)
Lemma settle_idem q es : forall d,
  settle q (settle q es d) d = settle q es d
  /\ incoming_after q (settle q es d) d = incoming_after q es d.
Proof.
  induction es as [| [l t] es IH]; intros d; [done |].
  simpl settle.
  assert (Hin : incoming_step q d (l, stored_step q d (l, t))
                = incoming_step q d (l, t)).
  { unfold incoming_step, stored_step. simpl.
    destruct (q <? l) eqn:Hgt; [| done].
    by assert ((l <? q) = false) as -> by lia. }
  assert (Hst : stored_step q d (l, stored_step q d (l, t))
                = stored_step q d (l, t)).
  { unfold stored_step. simpl.
    destruct (l <? q) eqn:Hlt; [| done]. apply prune_by_idem. }
  unfold incoming_after. simpl. rewrite Hin, Hst.
  destruct (IH (incoming_step q d (l, t))) as [IH1 IH2].
  split; [by rewrite IH1 | exact IH2].
Qed.

(** *** Loading what an earlier load has already pruned *)

Lemma elem_of_keys_prune_by width n src t k :
  k ∈ Py.keys (prune_by width n src t)
  <-> k ∈ Py.keys t /\ k ∉ removed_keys width n src.
Proof.
  rewrite prune_by_filter. unfold Py.keys. rewrite !list_elem_of_fmap. split.
  - intros ([k' v] & -> & [Hk Hin]%list_elem_of_filter).
    split; [| done]. by exists (k', v).
  - intros [([k' v] & -> & Hin) Hk]. exists (k', v).
    split; [done |]. by apply list_elem_of_filter.
Qed.

Lemma removed_keys_mono width n src src' k :
  (forall k', k' ∈ Py.keys src' -> k' ∈ Py.keys src) ->
  k ∈ removed_keys width n src' -> k ∈ removed_keys width n src.
Proof.
  intros Hsub. unfold removed_keys. rewrite !list_elem_of_bind.
  intros (s0 & Hk & Hs0). exists s0. split; [done | by apply Hsub].
Qed.

Lemma prune_by_again width n src src' t :
  (forall k, k ∈ Py.keys src' -> k ∈ Py.keys src) ->
  prune_by width n src' (prune_by width n src t) = prune_by width n src t.
Proof.
  intros Hsub. rewrite !prune_by_filter. apply list_filter_filter_r.
  intros kv Hkv Hin. apply Hkv. by eapply removed_keys_mono.
Qed.

Lemma incoming_after_filter q es : forall d,
  incoming_after q es d = filter (λ kv, kv.1 ∉ incoming_removed q es) d.
Proof.
  induction es as [| [l t] es IH]; intros d.
  - unfold incoming_after. simpl. symmetry.
    induction d as [| kv d IHd]; [done |].
    rewrite filter_cons_True by apply not_elem_of_nil. by rewrite IHd.
  - unfold incoming_after. simpl foldl.
    fold (incoming_after q es (incoming_step q d (l, t))).
    rewrite IH. unfold incoming_removed. rewrite bind_cons.
    fold (incoming_removed q es). unfold incoming_step. cbn [fst snd].
    destruct (q <? l).
    + rewrite prune_by_filter, list_filter_filter.
      apply list_filter_iff. intros kv. rewrite not_elem_of_app. tauto.
    + done.
Qed.

Lemma incoming_removed_app q es1 es2 :
  incoming_removed q (es1 ++ es2)
  = incoming_removed q es1 ++ incoming_removed q es2.
Proof. apply bind_app. Qed.

Lemma incoming_removed_settle q es : forall d,
  incoming_removed q (settle q es d) = incoming_removed q es.
Proof.
  induction es as [| [l t] es IH]; intros d; [done |].
  simpl settle. unfold incoming_removed. rewrite !bind_cons.
  fold (incoming_removed q (settle q es (incoming_step q d (l, t)))).
  fold (incoming_removed q es). rewrite IH. f_equal. cbn [fst snd].
  destruct (q <? l) eqn:Hgt; [| done].
  unfold stored_step. cbn [fst snd].
  by assert ((l <? q) = false) as -> by lia.
Qed.

Lemma incoming_after_again q es es' d :
  (forall k, k ∈ incoming_removed q es' -> k ∈ incoming_removed q es) ->
  incoming_after q es' (incoming_after q es d) = incoming_after q es d.
Proof.
  intros Hsub. rewrite !incoming_after_filter. apply list_filter_filter_r.
  intros kv Hkv Hin. by apply Hkv, Hsub.
Qed.

Lemma incoming_after_keys_sub q es d k :
  k ∈ Py.keys (incoming_after q es d) -> k ∈ Py.keys d.
Proof.
  rewrite incoming_after_filter. unfold Py.keys. rewrite !list_elem_of_fmap.
  intros (kv & -> & [_ Hin]%list_elem_of_filter). by exists kv.
Qed.

Lemma incoming_step_keys_mono q d d' l t k :
  (forall k', k' ∈ Py.keys d' -> k' ∈ Py.keys d) ->
  k ∈ Py.keys (incoming_step q d' (l, t)) ->
  k ∈ Py.keys (incoming_step q d (l, t)).
Proof.
  intros Hsub. unfold incoming_step. cbn [fst snd].
  destruct (q <? l); [| apply Hsub].
  rewrite !elem_of_keys_prune_by. intros [Hin Hk]. split; [by apply Hsub | done].
Qed.

(** A pass driven by a table with no more keys than [d] does not change
    entries that a pass driven by [d] has settled. *)
Lemma settle_again q es : forall d d',
  (forall k, k ∈ Py.keys d' -> k ∈ Py.keys d) ->
  settle q (settle q es d) d' = settle q es d.
Proof.
  induction es as [| [l t] es IH]; intros d d' Hsub; [done |].
  simpl settle.
  assert (Hst : stored_step q d' (l, stored_step q d (l, t))
                = stored_step q d (l, t)).
  { unfold stored_step. cbn [fst snd].
    destruct (l <? q) eqn:Hlt; [| done]. by apply prune_by_again. }
  rewrite Hst. f_equal. apply IH. intros k.
  assert (Hin : incoming_step q d' (l, stored_step q d (l, t))
                = incoming_step q d' (l, t)).
  { unfold incoming_step, stored_step. cbn [fst snd].
    destruct (q <? l) eqn:Hgt; [| done].
    by assert ((l <? q) = false) as -> by lia. }
  rewrite Hin. by apply incoming_step_keys_mono.
Qed.

(** *** Merging a table into itself *)

Lemma get_update_other (k : signature) d : forall t,
  k ∉ Py.keys d -> Py.get k (Py.update t d) = Py.get k t.
Proof.
  unfold Py.update, Py.keys.
  induction d as [| [k0 v0] d IH]; intros t Hk; [done |].
  rewrite fmap_cons, not_elem_of_cons in Hk. destruct Hk as [Hne Hk].
  simpl. rewrite IH by done. by apply get_set_ne.
Qed.

Lemma get_update_elem d : forall t k v,
  NoDup (Py.keys d) -> (k, v) ∈ d -> Py.get k (Py.update t d) = Some v.
Proof.
  unfold Py.keys.
  induction d as [| [k0 v0] d IH]; intros t k v Hnd Hin.
  - by apply elem_of_nil in Hin.
  - rewrite fmap_cons in Hnd. apply NoDup_cons in Hnd as [Hk0 Hnd].
    apply elem_of_cons in Hin as [[= -> ->] | Hin].
    + unfold Py.update. simpl.
      fold (Py.update (Py.set k0 v0 t) d).
      rewrite get_update_other by done. apply get_set_eq.
    + unfold Py.update. simpl. fold (Py.update (Py.set k0 v0 t) d).
      by apply IH.
Qed.

Lemma update_fixed d : forall t,
  (forall k v, (k, v) ∈ d -> Py.get k t = Some v) -> Py.update t d = t.
Proof.
  induction d as [| [k v] d IH]; intros t Hget; [done |].
  unfold Py.update. simpl. rewrite set_same.
  - apply IH. intros k' v' Hin. apply Hget. by right.
  - apply Hget. by left.
Qed.

Lemma update_update t d :
  NoDup (Py.keys d) -> Py.update (Py.update t d) d = Py.update t d.
Proof.
  intros Hnd. apply update_fixed. intros k v Hin. by apply get_update_elem.
Qed.

Lemma get_elem d : forall k v,
  NoDup (Py.keys d) -> (k, v) ∈ d -> Py.get k d = Some v.
Proof.
  unfold Py.keys.
  induction d as [| [k0 v0] d IH]; intros k v Hnd Hin.
  - by apply elem_of_nil in Hin.
  - rewrite fmap_cons in Hnd. apply NoDup_cons in Hnd as [Hk0 Hnd].
    simpl. apply elem_of_cons in Hin as [[= -> ->] | Hin].
    + by rewrite decide_True.
    + rewrite decide_False; [by apply IH |].
      intros ->. apply Hk0. by apply (list_elem_of_fmap_2 fst _ (k0, v)).
Qed.

Lemma update_self d : NoDup (Py.keys d) -> Py.update d d = d.
Proof. intros Hnd. apply update_fixed. intros k v. by apply get_elem. Qed.

(** *** The three outcomes of a load on a non-empty aligned combiner *)

(** Every stored length lies above [q]: [smaller_pos] is still [-1], the
    test reads the last stored length, and the load is rejected. *)
Lemma load_below es d q :
  es ≠ [] -> Forall (λ e, q < e.1) es ->
  load_l_identifying_result (of_entries es) d q = Py.raise Py.ValueError.
Proof.
  intros Hne Hall. rewrite load_nonempty by done.
  unfold merge_into. cbn [of_entries _combined_results _lengths_processed].
  rewrite scan_of_entries. cbn [Py.bind Py.ok].
  rewrite anchor_above by by apply Forall_fmap.
  destruct (exists_last Hne) as (es' & [l t] & ->).
  rewrite fmap_app. cbn [fmap list_fmap fst]. rewrite index_last.
  rewrite Forall_app, Forall_singleton in Hall. destruct Hall as [_ Hl].
  cbn [Py.bind Py.ok]. simpl in Hl.
  assert ((l <? q) = false) as -> by lia.
  assert ((l =? q) = false) as -> by lia. done.
Qed.

(** The anchor length is below [q]: the pruned table is inserted right
    after the anchor. *)
Lemma load_insert es1 l t es2 d q :
  l < q -> Forall (λ e, q < e.1) es2 ->
  load_l_identifying_result (of_entries (es1 ++ (l, t) :: es2)) d q
  = let d1 := incoming_after q es1 d in
    let d2 := incoming_after q es2 d1 in
    Py.ok (of_entries (settle q es1 d
                         ++ (l, prune_by l (q - l) d1 t) :: (q, d2) :: es2),
           d2).
Proof.
  intros Hl Hall. rewrite load_nonempty by by destruct es1.
  unfold merge_into. cbn [of_entries _combined_results _lengths_processed].
  rewrite scan_of_entries. cbn [Py.bind Py.ok].
  rewrite fmap_app, fmap_cons. cbn [fst].
  rewrite anchor_at; [| lia | by apply Forall_fmap].
  rewrite length_fmap.
  rewrite <- (length_fmap fst es1) at 1. rewrite index_middle.
  cbn [Py.bind Py.ok]. assert ((l <? q) = true) as -> by lia.
  rewrite settle_app, incoming_after_app.
  rewrite settle_cons_lt, incoming_after_cons_le by lia.
  rewrite (settle_above q es2) by done.
  cbv zeta. f_equal. f_equal. unfold of_entries. f_equal.
  - set (pre := settle q es1 d ++ [(l, prune_by l (q - l) (incoming_after q es1 d) t)]).
    replace (Z.of_nat (length es1) + 1) with (Z.of_nat (length pre.*2)).
    2:{ unfold pre. rewrite length_fmap, length_app, settle_length. simpl. lia. }
    replace ((settle q es1 d ++ (l, prune_by l (q - l) (incoming_after q es1 d) t) :: es2).*2)
      with (pre.*2 ++ es2.*2).
    2:{ unfold pre. rewrite !fmap_app, <- app_assoc. done. }
    rewrite insert_at_middle. unfold pre.
    rewrite !fmap_app, !fmap_cons, <- app_assoc. done.
  - set (pre := es1.*1 ++ [l]).
    replace (Z.of_nat (length es1) + 1) with (Z.of_nat (length pre)).
    2:{ unfold pre. rewrite length_app, length_fmap. simpl. lia. }
    replace (es1.*1 ++ l :: es2.*1) with (pre ++ es2.*1).
    2:{ unfold pre. by rewrite <- app_assoc. }
    rewrite insert_at_middle. unfold pre.
    rewrite !fmap_app, !fmap_cons, settle_fst, <- app_assoc. done.
Qed.

(** The anchor length is [q] itself: the pruned table is merged into the
    anchor's table by [update]. *)
Lemma load_merge es1 t es2 d q :
  Forall (λ e, q < e.1) es2 ->
  load_l_identifying_result (of_entries (es1 ++ (q, t) :: es2)) d q
  = let d2 := incoming_after q es2 (incoming_after q es1 d) in
    Py.ok (of_entries (settle q es1 d ++ (q, Py.update t d2) :: es2), d2).
Proof.
  intros Hall. rewrite load_nonempty by by destruct es1.
  unfold merge_into. cbn [of_entries _combined_results _lengths_processed].
  rewrite scan_of_entries. cbn [Py.bind Py.ok].
  rewrite fmap_app, fmap_cons. cbn [fst].
  rewrite anchor_at; [| lia | by apply Forall_fmap].
  rewrite length_fmap.
  rewrite <- (length_fmap fst es1) at 1. rewrite index_middle.
  cbn [Py.bind Py.ok]. rewrite Z.ltb_irrefl, Z.eqb_refl.
  rewrite settle_app, incoming_after_app.
  rewrite settle_cons_eq, incoming_after_cons_le by lia.
  rewrite (settle_above q es2) by done.
  rewrite fmap_app, fmap_cons. cbn [snd].
  rewrite <- (settle_length q es1 d), <- (length_fmap snd (settle q es1 d)).
  rewrite index_middle. cbn [Py.bind Py.ok]. rewrite setitem_middle.
  cbv zeta. f_equal. f_equal. unfold of_entries. f_equal.
  - by rewrite fmap_app, fmap_cons.
  - by rewrite !fmap_app, !fmap_cons, settle_fst.
Qed.

(** A load keeps the two lists of the combiner in step. *)
Lemma load_keeps_aligned self d q r :
  aligned self ->
  load_l_identifying_result self d q = Py.ok r -> aligned r.1.
Proof.
  intros Hal Hload. rewrite (aligned_of_entries self Hal) in Hload.
  destruct (decide (entries self = [])) as [Hnil | Hne].
  { rewrite Hnil, load_fresh in Hload. injection Hload as <-.
    apply of_entries_aligned. }
  destruct (split_at_anchor q (entries self))
    as [Hall | (es1 & [l t] & es2 & Hes & Hle & Hall)].
  { rewrite load_below in Hload by done. discriminate. }
  rewrite Hes in Hload. simpl in Hle.
  destruct (decide (l = q)) as [-> | Hlq].
  - rewrite load_merge in Hload by done. cbv zeta in Hload.
    injection Hload as <-. apply of_entries_aligned.
  - rewrite load_insert in Hload by (done || lia). cbv zeta in Hload.
    injection Hload as <-. apply of_entries_aligned.
Qed.

Lemma load_all_keeps_aligned calls : forall self self',
  aligned self -> load_all self calls = Py.ok self' -> aligned self'.
Proof.
  induction calls as [| [d q] calls IH]; intros self self' Hal Hrun.
  - by injection Hrun as <-.
  - simpl in Hrun.
    destruct (load_l_identifying_result self d q) as [e | r] eqn:Hload;
      [done |].
    simpl in Hrun. eapply IH; [| done]. by eapply load_keeps_aligned.
Qed.

End RangeCombiningFacts.

Module RangeCombiningClaims.
Import RangeCombining RangeCombiningFacts.

Implicit Types (d t : Py.dict signature Z).
Implicit Types (e : Z * Py.dict signature Z)
  (es : list (Z * Py.dict signature Z)).

Lemma settle_snoc_lt q es l t d :
  l < q ->
  settle q es d ++ [(l, prune_by l (q - l) (incoming_after q es d) t)]
  = settle q (es ++ [(l, t)]) d.
Proof. intros Hl. by rewrite settle_app, settle_cons_lt. Qed.

Lemma load_twice_entries es d q r :
  NoDup (Py.keys d) ->
  load_l_identifying_result (of_entries es) d q = Py.ok r ->
  load_l_identifying_result r.1 d q = Py.ok r.
Proof.
  intros Hnd Hload.
  destruct (decide (es = [])) as [-> | Hne].
  { rewrite load_fresh in Hload. injection Hload as <-. simpl.
    pose proof (load_merge [] d [] d q (Forall_nil_2 _)) as Hm.
    cbv zeta in Hm. simpl in Hm. rewrite Hm.
    unfold incoming_after. simpl. by rewrite update_self. }
  destruct (split_at_anchor q es) as [Hall | (es1 & [l t] & es2 & -> & Hle & Hall)].
  { rewrite load_below in Hload by done. discriminate. }
  simpl in Hle. destruct (decide (l = q)) as [-> | Hlq].
  - rewrite load_merge in Hload by done. cbv zeta in Hload.
    injection Hload as <-. cbn [fst].
    rewrite load_merge by done. cbv zeta.
    destruct (settle_idem q es1 d) as [-> ->].
    rewrite update_update; [done |].
    by do 2 apply incoming_after_keys_NoDup.
  - rewrite load_insert in Hload by (done || lia). cbv zeta in Hload.
    injection Hload as <-. cbn [fst].
    rewrite (cons_middle _ (settle q es1 d)), app_assoc.
    rewrite settle_snoc_lt by lia.
    rewrite load_merge by done. cbv zeta.
    destruct (settle_idem q (es1 ++ [(l, t)]) d) as [-> ->].
    rewrite incoming_after_app, (incoming_after_cons_le q l t []) by lia.
    unfold incoming_after at 2. cbn [foldl].
    rewrite update_self; [done |].
    by repeat apply incoming_after_keys_NoDup.
Qed.

(** Loading, at the anchor length, the table that a pass over [es1] and
    [es2] has already pruned. *)
Lemma reload_pruned es1 t es2 d q :
  Forall (λ e, q < e.1) es2 ->
  let d2 := incoming_after q es2 (incoming_after q es1 d) in
  load_l_identifying_result
    (of_entries (settle q es1 d ++ (q, t) :: es2)) d2 q
  = Py.ok (of_entries (settle q es1 d ++ (q, Py.update t d2) :: es2), d2).
Proof.
  intros Hall d2. rewrite load_merge by done. cbv zeta.
  assert (Hd2 : d2 = incoming_after q (es1 ++ es2) d)
    by by rewrite incoming_after_app.
  assert (Hsame : incoming_after q es2
                    (incoming_after q (settle q es1 d) d2) = d2).
  { rewrite Hd2.
    rewrite (incoming_after_again q (es1 ++ es2) (settle q es1 d)).
    - apply incoming_after_again. intros k Hk.
      rewrite incoming_removed_app, elem_of_app. by right.
    - intros k Hk. rewrite incoming_removed_settle in Hk.
      rewrite incoming_removed_app, elem_of_app. by left. }
  rewrite Hsame. rewrite settle_again; [done |].
  intros k Hk. by do 2 apply incoming_after_keys_sub in Hk.
Qed.

Lemma load_pruned_entries es d q r :
  NoDup (Py.keys d) ->
  load_l_identifying_result (of_entries es) d q = Py.ok r ->
  load_l_identifying_result r.1 r.2 q = Py.ok r.
Proof.
  intros Hnd Hload.
  destruct (decide (es = [])) as [-> | Hne].
  { rewrite load_fresh in Hload. injection Hload as <-. simpl.
    pose proof (load_merge [] d [] d q (Forall_nil_2 _)) as Hm.
    cbv zeta in Hm. simpl in Hm. rewrite Hm.
    unfold incoming_after. simpl. by rewrite update_self. }
  destruct (split_at_anchor q es) as [Hall | (es1 & [l t] & es2 & -> & Hle & Hall)].
  { rewrite load_below in Hload by done. discriminate. }
  simpl in Hle. destruct (decide (l = q)) as [-> | Hlq].
  - rewrite load_merge in Hload by done. cbv zeta in Hload.
    injection Hload as <-. cbn [fst snd].
    rewrite reload_pruned by done. cbv zeta.
    rewrite update_update; [done |].
    by repeat apply incoming_after_keys_NoDup.
  - rewrite load_insert in Hload by (done || lia). cbv zeta in Hload.
    injection Hload as <-. cbn [fst snd].
    rewrite (cons_middle _ (settle q es1 d)), app_assoc.
    rewrite settle_snoc_lt by lia.
    assert (Hd1 : incoming_after q es1 d
                  = incoming_after q (es1 ++ [(l, t)]) d).
    { rewrite incoming_after_app.
      by rewrite (incoming_after_cons_le q l t []) by lia. }
    rewrite Hd1. rewrite reload_pruned by done. cbv zeta.
    rewrite update_self; [done |].
    by repeat apply incoming_after_keys_NoDup.
Qed.

(** C9. Subsumption idempotence: when a load of [(d, q)] into an aligned
    combiner succeeds, loading the same pair again succeeds as well and
    leaves the flattened result list unchanged; indeed the whole combiner
    state is unchanged.  This holds both when the second call receives a
    fresh copy of [d] and when it receives the very dictionary that the
    first call has pruned in place ([r.2]). *)
Theorem load_twice_same_result (self : RangeCombiningAttack) d q r :
  aligned self ->
  NoDup (Py.keys d) ->
  load_l_identifying_result self d q = Py.ok r ->
  (exists r2,
     load_l_identifying_result r.1 d q = Py.ok r2
     /\ get_result r2.1 = get_result r.1
     /\ r2 = r)
  /\ (exists r2,
        load_l_identifying_result r.1 r.2 q = Py.ok r2
        /\ get_result r2.1 = get_result r.1
        /\ r2 = r).
Proof.
  intros Hal Hnd Hload. rewrite (aligned_of_entries self Hal) in Hload.
  split; exists r; (split; [| done]).
  - by eapply load_twice_entries.
  - by eapply load_pruned_entries.
Qed.

Lemma load_twice_same_result_witness :
  exists r2,
    load_l_identifying_result
      (of_entries [(2, [(["a"; "b"]%string, 1); (["b"; "c"]%string, 2);
                        (["c"; "d"]%string, 1)]);
                   (3, [(["a"; "b"; "c"]%string, 2)])])
      [(["a"; "b"]%string, 2); (["b"; "c"]%string, 2);
       (["c"; "d"]%string, 1)] 2
    = Py.ok r2
    /\ get_result r2.1
       = [["a"; "b"]; ["b"; "c"]; ["c"; "d"]; ["a"; "b"; "c"]]%string.
Proof.
  destruct (load_twice_same_result
    (of_entries [(2, [(["a"; "b"]%string, 1)]);
                 (3, [(["a"; "b"; "c"]%string, 2)])])
    [(["a"; "b"]%string, 2); (["b"; "c"]%string, 2);
     (["c"; "d"]%string, 1)] 2
    (of_entries [(2, [(["a"; "b"]%string, 1); (["b"; "c"]%string, 2);
                      (["c"; "d"]%string, 1)]);
                 (3, [(["a"; "b"; "c"]%string, 2)])],
     [(["b"; "c"]%string, 2); (["c"; "d"]%string, 1)]))
    as [(r2 & Hload & Hres & _) _].
  - reflexivity.
  - compute_done.
  - reflexivity.
  - exists r2. split; [exact Hload | exact Hres].
Defined.

(** A load of a length that is new and not below every stored length
    inserts one entry. *)
Lemma load_new_length es d q m :
  m ∈ es.*1 -> m <= q -> q ∉ es.*1 ->
  exists es' d',
    load_l_identifying_result (of_entries es) d q = Py.ok (of_entries es', d')
    /\ es'.*1 ≡ₚ q :: es.*1.
Proof.
  intros Hm Hmq Hq.
  destruct (split_at_anchor q es) as [Hall | (es1 & [l t] & es2 & -> & Hle & Hall)].
  { apply list_elem_of_fmap in Hm as (e & -> & He).
    rewrite Forall_forall in Hall. specialize (Hall e He). lia. }
  simpl in Hle. assert (l ≠ q) as Hlq.
  { intros ->. apply Hq. rewrite fmap_app, fmap_cons, elem_of_app.
    right. by left. }
  rewrite load_insert by (done || lia). cbv zeta.
  eexists _, _. split; [done |].
  rewrite !fmap_app, !fmap_cons, settle_fst. cbn [fst].
  rewrite (Permutation_middle _ _ q). apply Permutation_app_head, perm_swap.
Qed.

Lemma load_all_above : forall calls es m,
  m ∈ es.*1 ->
  Forall (λ c, m <= c.2) calls ->
  NoDup (es.*1 ++ calls.*2) ->
  exists es',
    load_all (of_entries es) calls = Py.ok (of_entries es')
    /\ es'.*1 ≡ₚ es.*1 ++ calls.*2.
Proof.
  induction calls as [| [d q] calls IH]; intros es m Hm Hall Hnd.
  - exists es. split; [done |]. by rewrite app_nil_r.
  - apply Forall_cons in Hall as [Hmq Hall]. simpl in Hmq.
    rewrite fmap_cons in Hnd. cbn [snd] in Hnd.
    assert (q ∉ es.*1) as Hq.
    { apply NoDup_app in Hnd as (_ & Hdisj & _). intros Hin.
      apply (Hdisj q Hin). by left. }
    destruct (load_new_length es d q m Hm Hmq Hq) as (es1 & d' & Hload & Hp).
    simpl load_all. rewrite Hload. cbn [Py.bind Py.ok fst].
    destruct (IH es1 m) as (es' & Hrest & Hp').
    + rewrite Hp. by right.
    + done.
    + rewrite Hp, <- app_comm_cons. by rewrite Permutation_middle.
    + exists es'. split; [done |].
      rewrite Hp', Hp, <- app_comm_cons. by rewrite Permutation_middle.
Qed.

(** The loads that the code does accept.  From a fresh combiner, a
    sequence of loads with pairwise distinct lengths in which no load after
    the first has a length below every length loaded before it succeeds
    call by call, and the combiner ends with one stored table per loaded
    length.  A further load whose length is below every loaded length
    raises [ValueError]. *)
Theorem loads_succeed_unless_below
    (calls : list (Py.dict signature Z * Z)) :
  NoDup calls.*2 ->
  (forall i c, calls !! i = Some c -> (0 < i)%nat ->
     exists j c', (j < i)%nat /\ calls !! j = Some c' /\ c'.2 <= c.2) ->
  exists self,
    load_all init calls = Py.ok self
    /\ length (_combined_results self) = length calls
    /\ _lengths_processed self ≡ₚ calls.*2
    /\ forall d q,
         calls ≠ [] -> Forall (λ c, q < c.2) calls ->
         load_l_identifying_result self d q = Py.raise Py.ValueError.
Proof.
  intros Hnd Hprev.
  destruct calls as [| [d0 q0] calls].
  { exists init. by repeat split. }
  assert (Hfirst : forall i c, ((d0, q0) :: calls) !! i = Some c -> q0 <= c.2).
  { intros i. induction i as [i IHi] using lt_wf_ind. intros c Hc.
    destruct i as [| i].
    - injection Hc as <-. simpl. lia.
    - destruct (Hprev (S i) c Hc ltac:(lia)) as (j & c' & Hj & Hc' & Hle).
      specialize (IHi j Hj c' Hc'). lia. }
  change init with (of_entries []). cbn [load_all].
  rewrite load_fresh. cbn [Py.bind Py.ok fst].
  destruct (load_all_above calls [(q0, d0)] q0) as (es' & Hload & Hp).
  - by left.
  - apply Forall_lookup. intros i c Hc. by apply (Hfirst (S i)).
  - exact Hnd.
  - exists (of_entries es'). split; [done |]. split; [| split; [exact Hp |]].
    + cbn [of_entries _combined_results]. rewrite length_fmap.
      rewrite <- (length_fmap fst es'), Hp. simpl. by rewrite length_fmap.
    + intros d q _ Hbelow. apply load_below.
      * intros ->. apply Permutation_length in Hp. done.
      * apply Forall_forall. intros e He.
        assert (e.1 ∈ ((d0, q0) :: calls).*2) as Hin.
        { change (e.1 ∈ [(q0, d0)].*1 ++ calls.*2). rewrite <- Hp.
          by apply list_elem_of_fmap_2. }
        apply list_elem_of_fmap in Hin as (c & -> & Hc).
        rewrite Forall_forall in Hbelow. by apply Hbelow.
Qed.

Lemma loads_succeed_unless_below_witness :
  exists self,
    load_all init
      [([(["a"; "b"]%string, 2)], 2);
       ([(["a"; "b"; "c"; "d"]%string, 2)], 4);
       ([(["a"; "b"; "c"]%string, 2)], 3)] = Py.ok self
    /\ length (_combined_results self) = 3%nat.
Proof.
  destruct (loads_succeed_unless_below
    [([(["a"; "b"]%string, 2)], 2);
     ([(["a"; "b"; "c"; "d"]%string, 2)], 4);
     ([(["a"; "b"; "c"]%string, 2)], 3)]) as (self & Hload & Hlen & _ & _).
  - compute_done.
  - intros [| [| [| i]]] c Hc Hi; [lia | | | done].
    + injection Hc as <-. exists 0%nat, ([(["a"; "b"]%string, 2)], 2).
      split; [lia |]. split; [done | simpl; lia].
    + injection Hc as <-. exists 0%nat, ([(["a"; "b"]%string, 2)], 2).
      split; [lia |]. split; [done | simpl; lia].
  - exists self. split; [exact Hload | exact Hlen].
Defined.

(** C2 fails on the code.  After a table of length 3, loading a table of
    length 2 raises [ValueError], although the same two loads succeed in
    the other order and the method is documented to record a length that
    has not been processed before.  No stored length is at most 2, so the
    loop leaves [smaller_pos] at its initial [-1]; the test after the loop
    then reads [_lengths_processed[-1]], which is the last stored length 3
    and not a smaller one, and falls through to the [raise], past the
    insertion at [smaller_pos + 1 = 0] that would have put the new length
    in front. *)
Theorem load_smaller_length_raises :
  load_all init
    [([(["a"; "b"; "c"]%string, 2)], 3); ([(["a"; "b"]%string, 2)], 2)]
  = Py.raise Py.ValueError
  /\ scan 2 0 [3]
       (-1, [[(["a"; "b"; "c"]%string, 2)]], [(["a"; "b"]%string, 2)])
     = Py.ok (-1, [[(["a"; "b"; "c"]%string, 2)]], [])
  /\ Py.index [3] (-1) = Py.ok 3
  /\ Py.list_insert_at [3] (-1 + 1) 2 = [2; 3]
  /\ exists self,
       load_all init
         [([(["a"; "b"]%string, 2)], 2); ([(["a"; "b"; "c"]%string, 2)], 3)]
       = Py.ok self
       /\ _lengths_processed self = [2; 3].
Proof. repeat split. eexists. by split. Qed.

(** C3 fails on the code: the offsets loop stops one short, so the suffix
    slice survives.  After loading [{(a,b): 2, (b,c): 2}] with length 2 and
    then [{(a,b,c): 2}] with length 3, the signature [(b,c)], which is the
    slice of [(a,b,c)] at offset [3 - 2], is still in the first table. *)
Theorem suffix_slice_survives :
  exists self,
    load_all init
      [([(["a"; "b"]%string, 2); (["b"; "c"]%string, 2)], 2);
       ([(["a"; "b"; "c"]%string, 2)], 3)] = Py.ok self
    /\ _lengths_processed self = [2; 3]
    /\ _combined_results self
       = [[(["b"; "c"]%string, 2)]; [(["a"; "b"; "c"]%string, 2)]]
    /\ Py.slice ["a"; "b"; "c"]%string (3 - 2) (3 - 2 + 2)
       = ["b"; "c"]%string.
Proof. eexists. by repeat split. Qed.

End RangeCombiningClaims.

Module CredentialConnectingFacts.
Import CredentialConnecting.

#[export] Program Instance insertion_order : SetOrder := {|
  set_of := remove_dups;
  set_and := insertion_set_and;
  set_add := insertion_set_add
|}.
Next Obligation. apply NoDup_remove_dups. Qed.
Next Obligation. intros. apply elem_of_remove_dups. Qed.
Next Obligation.
  intros. unfold insertion_set_and. apply NoDup_filter, NoDup_remove_dups.
Qed.
Next Obligation.
  intros. unfold insertion_set_and.
  rewrite list_elem_of_filter, elem_of_remove_dups. tauto.
Qed.
Next Obligation.
  intros s i Hs. unfold insertion_set_add. case_decide; [done |].
  apply NoDup_app. split; [done |]. split; [| apply NoDup_singleton].
  intros x Hx ->%list_elem_of_singleton. done.
Qed.
Next Obligation.
  intros s i j. unfold insertion_set_add. case_decide.
  - split; [by right | intros [-> | ?]; done].
  - rewrite elem_of_app, list_elem_of_singleton. tauto.
Qed.

(** *** Loops *)

Lemma foldl_invariant {A B} (P : A -> Prop) (Q : B -> Prop)
    (f : A -> B -> A) (l : list B) : forall a,
  (forall a b, P a -> Q b -> P (f a b)) ->
  P a -> Forall Q l -> P (foldl f a l).
Proof.
  induction l as [| b l IH]; intros a Hf Ha Hl; [done |].
  apply Forall_cons in Hl as [Hb Hl]. simpl. apply IH; auto.
Qed.

Lemma foldM_total {A B} (P : B -> Prop) (Q : A -> Prop)
    (f : B -> A -> Py.result B) (l : list A) : forall b,
  (forall b x, P b -> Q x -> exists b', f b x = Py.ok b' /\ P b') ->
  P b -> Forall Q l ->
  exists b', Py.foldM f l b = Py.ok b' /\ P b'.
Proof.
  induction l as [| x l IH]; intros b Hf Hb Hl; [by exists b |].
  apply Forall_cons in Hl as [Hx Hl]. simpl.
  destruct (Hf b x Hb Hx) as (b1 & -> & Hb1). simpl. by apply IH.
Qed.

Lemma foldM_invariant {A B} (P : B -> Prop) (Q : A -> Prop)
    (f : B -> A -> Py.result B) (l : list A) : forall b b',
  (forall b x b', P b -> Q x -> f b x = Py.ok b' -> P b') ->
  P b -> Forall Q l -> Py.foldM f l b = Py.ok b' -> P b'.
Proof.
  induction l as [| x l IH]; intros b b' Hf Hb Hl Hrun.
  - by injection Hrun as <-.
  - apply Forall_cons in Hl as [Hx Hl]. simpl in Hrun.
    destruct (f b x) as [e | b1] eqn:Hfx; [done |]. simpl in Hrun.
    apply (IH b1 b'); [exact Hf | by apply (Hf b x) | done | done].
Qed.

Lemma imap_pair_bound {A} (l : list A) :
  Forall (λ ix, l !! ix.1 = Some ix.2) (imap pair l).
Proof.
  apply Forall_forall. intros [i x] Hin.
  apply elem_of_lookup_imap in Hin as (i' & x' & [= -> ->] & Hl). done.
Qed.

Lemma get_default_Some {K V} `{EqDecision K} (k : K) (d : Py.dict K V)
    (v x : V) :
  Py.get k d = Some x -> get_default k d v = x.
Proof. unfold get_default. by intros ->. Qed.

Lemma get_default_None {K V} `{EqDecision K} (k : K) (d : Py.dict K V)
    (v : V) :
  Py.get k d = None -> get_default k d v = v.
Proof. unfold get_default. by intros ->. Qed.

Lemma foldM_track {A B} (P : B -> Prop) (Q : A -> Prop)
    (R : B -> B -> Prop) (S : A -> B -> Prop)
    (f : B -> A -> Py.result B) (l : list A) :
  (forall b, R b b) ->
  (forall b1 b2 b3, R b1 b2 -> R b2 b3 -> R b1 b3) ->
  (forall x b b', S x b -> R b b' -> S x b') ->
  (forall b x, P b -> Q x ->
     exists b', f b x = Py.ok b' /\ P b' /\ R b b' /\ S x b') ->
  forall b, P b -> Forall Q l ->
  exists b',
    Py.foldM f l b = Py.ok b' /\ P b' /\ R b b' /\ Forall (λ x, S x b') l.
Proof.
  intros Hrefl Htrans Hmono Hstep.
  induction l as [| x l IH]; intros b Hb Hl.
  - exists b. by repeat split.
  - apply Forall_cons in Hl as [Hx Hl]. simpl.
    destruct (Hstep b x Hb Hx) as (b1 & -> & Hb1 & Hr1 & Hs1). simpl.
    destruct (IH b1 Hb1 Hl) as (b' & Hrun & Hb' & Hr & Hall).
    exists b'. split; [done |]. split; [done |].
    split; [by eapply Htrans |].
    constructor; [by eapply Hmono | done].
Qed.

Lemma filter_key_absent {A B} `{EqDecision B} (f : A -> B) (l : list A)
    (k : B) :
  k ∉ f <$> l -> filter (λ x, f x = k) l = [].
Proof.
  induction l as [| x l IH]; [done |].
  rewrite fmap_cons, not_elem_of_cons. intros [Hne Hk].
  rewrite filter_cons_False by done. by apply IH.
Qed.

Lemma count_unique_key {A B} `{EqDecision B} (f : A -> B) (l : list A)
    (k : B) :
  NoDup (f <$> l) -> k ∈ f <$> l ->
  length (filter (λ x, f x = k) l) = 1%nat.
Proof.
  induction l as [| x l IH]; intros Hnd Hk.
  - by apply elem_of_nil in Hk.
  - rewrite fmap_cons in Hnd, Hk. apply NoDup_cons in Hnd as [Hx Hnd].
    destruct (decide (f x = k)) as [<- | Hne].
    + rewrite filter_cons_True by done. by rewrite filter_key_absent.
    + rewrite filter_cons_False by done. apply IH; [done |].
      apply elem_of_cons in Hk as [-> | Hk]; done.
Qed.

(** *** The tables that [pre_compute] builds *)

Lemma digest_group_aligned sha256_hexdigest query_type prefix_length
    (credentials : list credential) :
  length (digest_group sha256_hexdigest query_type prefix_length
            credentials).2
  = length (digest_group sha256_hexdigest query_type prefix_length
              credentials).1.
Proof.
  unfold digest_group.
  apply (foldl_invariant
           (λ acc : list string * list string, length acc.2 = length acc.1)
           (λ _, True)).
  - intros [hl pl] c Hlen _. simpl in *.
    repeat case_decide; simpl; rewrite ?length_app; simpl; lia.
  - done.
  - by apply Forall_true.
Qed.

Lemma pre_compute_aligned sha256_hexdigest self query_type prefix_length
    (lines : list (list credential)) :
  aligned self ->
  aligned (pre_compute sha256_hexdigest self query_type prefix_length lines).
Proof.
  intros Hal. unfold pre_compute.
  apply (foldl_invariant aligned (λ _, True)); [| done | by apply Forall_true].
  intros self' credentials Hal' _.
  destruct (10 <? Py.len credentials); [| done].
  unfold aligned. simpl. apply Forall2_app; [done |].
  constructor; [apply digest_group_aligned | constructor].
Qed.

(** *** Counters are multisets *)

Section counter_facts.
Implicit Types (c : Py.dict string Z) (xs ys : list string) (x : string).

Lemma elem_of_set c x (v : Z) (kv : string * Z) :
  kv ∈ Py.set x v c -> kv = (x, v) \/ kv ∈ c.
Proof.
  induction c as [| [k n] c IH]; simpl.
  - intros ->%list_elem_of_singleton. by left.
  - destruct (decide (x = k)) as [-> | Hne].
    + intros [-> | Hin]%elem_of_cons; [by left | right; by right].
    + intros [-> | Hin]%elem_of_cons; [right; by left |].
      destruct (IH Hin) as [-> | Hc]; [by left | right; by right].
Qed.

Lemma keys_set_NoDup c x (v : Z) :
  NoDup (Py.keys c) -> NoDup (Py.keys (Py.set x v c)).
Proof.
  intros Hnd. destruct (decide (x ∈ Py.keys c)) as [Hin | Hnin].
  - by rewrite keys_set_present.
  - rewrite keys_set_absent by done. apply NoDup_app.
    split; [done |]. split; [| apply NoDup_singleton].
    by intros k Hk ->%list_elem_of_singleton.
Qed.

Lemma get_default_set c x y (v : Z) :
  get_default y (Py.set x v c) 0
  = if decide (y = x) then v else get_default y c 0.
Proof.
  unfold get_default. destruct (decide (y = x)) as [-> | Hne].
  - by rewrite get_set_eq.
  - by rewrite get_set_ne.
Qed.

(** The three facts that make [Counter(xs)] the multiset of [xs]. *)
Lemma Counter_spec xs :
  NoDup (Py.keys (Counter xs))
  /\ (forall kv, kv ∈ Counter xs -> 0 < kv.2)
  /\ forall x, get_default x (Counter xs) 0 = Z.of_nat (occurrences xs x).
Proof.
  unfold Counter.
  assert (Hgen : forall c,
    NoDup (Py.keys c) ->
    (forall kv, kv ∈ c -> 0 < kv.2) ->
    (forall x, 0 <= get_default x c 0) ->
    let c' := foldl (λ c x, Py.set x (get_default x c 0 + 1) c) c xs in
    NoDup (Py.keys c')
    /\ (forall kv, kv ∈ c' -> 0 < kv.2)
    /\ forall x, get_default x c' 0
                 = get_default x c 0 + Z.of_nat (occurrences xs x)).
  { induction xs as [| y xs IH]; intros c Hnd Hpos Hnn; cbn zeta.
    - split; [done |]. split; [done |]. intros x. simpl. lia.
    - cbn [foldl].
      destruct (IH (Py.set y (get_default y c 0 + 1) c)) as (H1 & H2 & H3).
      + by apply keys_set_NoDup.
      + intros kv [-> | Hin]%elem_of_set; [| by apply Hpos].
        simpl. specialize (Hnn y). lia.
      + intros x. rewrite get_default_set. case_decide; [| done].
        specialize (Hnn y). lia.
      + split; [done |]. split; [done |]. intros x. rewrite H3.
        rewrite get_default_set. unfold occurrences.
        destruct (decide (x = y)) as [-> | Hne].
        * rewrite count_occ_cons_eq by done. lia.
        * rewrite count_occ_cons_neq by done. done. }
  destruct (Hgen []) as (H1 & H2 & H3).
  - apply NoDup_nil_2.
  - by intros kv ?%elem_of_nil.
  - done.
  - split; [done |]. split; [done |]. intros x. by rewrite H3.
Qed.

Lemma occurrences_replicate (n : nat) (k x : string) :
  occurrences (replicate n k) x = if decide (x = k) then n else 0%nat.
Proof.
  unfold occurrences. induction n as [| n IH]; simpl replicate.
  - by case_decide.
  - destruct (decide (x = k)) as [-> | Hne].
    + rewrite count_occ_cons_eq by done. by rewrite IH.
    + rewrite count_occ_cons_neq by done. done.
Qed.

Lemma occurrences_elements c x :
  NoDup (Py.keys c) ->
  occurrences (elements c) x = Z.to_nat (get_default x c 0).
Proof.
  unfold elements, occurrences, Py.keys, get_default.
  induction c as [| [k n] c IH]; intros Hnd; [done |].
  rewrite fmap_cons in Hnd. apply NoDup_cons in Hnd as [Hk Hnd].
  rewrite bind_cons, count_occ_app, IH by done. cbn [fst snd Py.get].
  fold (occurrences (replicate (Z.to_nat n) k) x).
  rewrite occurrences_replicate.
  destruct (decide (x = k)) as [-> | Hne]; [| done].
  assert (Py.get k c = None) as -> by by apply get_None.
  cbn [default]. simpl. lia.
Qed.

Lemma get_default_cons_eq c x (n : Z) :
  get_default x ((x, n) :: c) 0 = n.
Proof. unfold get_default. cbn [Py.get]. by rewrite decide_True. Qed.

Lemma get_default_cons_ne c x k (n : Z) :
  x ≠ k -> get_default x ((k, n) :: c) 0 = get_default x c 0.
Proof. intros Hne. unfold get_default. cbn [Py.get]. by rewrite decide_False. Qed.

Lemma get_default_absent c x :
  x ∉ Py.keys c -> get_default x c 0 = 0.
Proof. intros Hx. apply get_default_None. by apply get_None. Qed.

Lemma get_default_positive_part c1 c2 x :
  NoDup (Py.keys c1) ->
  (forall y, 0 <= get_default y c2 0) ->
  get_default x
    (omap (λ kv, let n := kv.2 - get_default kv.1 c2 0 in
                 if 0 <? n then Some (kv.1, n) else None) c1) 0
  = Z.max 0 (get_default x c1 0 - get_default x c2 0).
Proof.
  intros Hnd Hc2. unfold Py.keys in Hnd.
  induction c1 as [| [k n] c1 IH].
  - cbn [omap list_omap]. unfold get_default at 1 2. cbn [Py.get default].
    specialize (Hc2 x). lia.
  - rewrite fmap_cons in Hnd. apply NoDup_cons in Hnd as [Hk Hnd].
    specialize (IH Hnd). cbn [omap list_omap fst snd]. cbv zeta.
    destruct (decide (x = k)) as [-> | Hne].
    + rewrite (get_default_cons_eq c1).
      rewrite (get_default_absent c1 k Hk) in IH.
      destruct (0 <? n - get_default k c2 0) eqn:Hcmp.
      * rewrite get_default_cons_eq. lia.
      * etransitivity; [exact IH |]. specialize (Hc2 k). lia.
    + rewrite (get_default_cons_ne c1) by done.
      destruct (0 <? n - get_default k c2 0).
      * by rewrite get_default_cons_ne.
      * exact IH.
Qed.

Lemma negative_part_nil c1 c2 :
  (forall kv, kv ∈ c2 -> 0 < kv.2) ->
  omap (λ kv : string * Z,
          if negb (Py.mem kv.1 c1) && (kv.2 <? 0)
          then Some (kv.1, 0 - kv.2) else None) c2 = [].
Proof.
  induction c2 as [| kv c2 IH]; intros Hpos; [done |].
  cbn [omap list_omap].
  assert (0 < kv.2) as Hkv by (apply Hpos; by left).
  assert ((kv.2 <? 0) = false) as -> by lia.
  rewrite andb_false_r. apply IH. intros kv' Hin. apply Hpos. by right.
Qed.

Lemma positive_part_keys_NoDup c1 c2 :
  NoDup (Py.keys c1) ->
  NoDup (Py.keys
           (omap (λ kv, let n := kv.2 - get_default kv.1 c2 0 in
                        if 0 <? n then Some (kv.1, n) else None) c1)).
Proof.
  unfold Py.keys. induction c1 as [| [k n] c1 IH]; intros Hnd; [done |].
  rewrite fmap_cons in Hnd. apply NoDup_cons in Hnd as [Hk Hnd].
  cbn [omap list_omap fst snd]. cbv zeta.
  destruct (0 <? n - get_default k c2 0); [| by apply IH].
  rewrite fmap_cons. apply NoDup_cons. split; [| by apply IH].
  cbn [fst]. intros Hin. apply Hk.
  apply list_elem_of_fmap in Hin as ([k' n'] & -> & Hin).
  apply list_elem_of_omap in Hin as ([k0 n0] & Hin0 & Hf).
  cbn [fst snd] in Hf. cbv zeta in Hf.
  destruct (0 <? n0 - get_default k0 c2 0); [| done].
  injection Hf as -> _. by apply (list_elem_of_fmap_2 fst _ (k', n0)).
Qed.

(** [elements(Counter(xs) - Counter(ys))] is the multiset difference of
    [xs] and [ys]. *)
Lemma occurrences_difference xs ys x :
  occurrences (elements (counter_sub (Counter xs) (Counter ys))) x
  = (occurrences xs x - occurrences ys x)%nat.
Proof.
  destruct (Counter_spec xs) as (Hnd1 & Hpos1 & Hget1).
  destruct (Counter_spec ys) as (Hnd2 & Hpos2 & Hget2).
  unfold counter_sub. rewrite negative_part_nil by done.
  rewrite app_nil_r.
  rewrite occurrences_elements by by apply positive_part_keys_NoDup.
  rewrite get_default_positive_part; [| done |].
  - rewrite Hget1, Hget2. lia.
  - intros y. rewrite Hget2. lia.
Qed.

Lemma set_absent c x (v : Z) :
  x ∉ Py.keys c -> Py.set x v c = c ++ [(x, v)].
Proof.
  unfold Py.keys. induction c as [| [k n] c IH]; [done |].
  rewrite fmap_cons, not_elem_of_cons. cbn [fst]. intros [Hne Hx].
  cbn [Py.set]. rewrite decide_False by done. by rewrite IH.
Qed.

(** Without repeated members, [Counter(xs)] lists [xs] with count 1. *)
Lemma Counter_NoDup xs : NoDup xs -> Counter xs = (λ x, (x, 1)) <$> xs.
Proof.
  unfold Counter.
  assert (Hgen : forall c,
    NoDup (Py.keys c ++ xs) ->
    foldl (λ c x, Py.set x (get_default x c 0 + 1) c) c xs
    = c ++ ((λ x, (x, 1)) <$> xs)).
  { induction xs as [| x xs IH]; intros c Hnd.
    - by rewrite app_nil_r.
    - cbn [foldl].
      assert (x ∉ Py.keys c) as Hx.
      { apply NoDup_app in Hnd as (_ & Hdisj & _). intros Hin.
        apply (Hdisj x Hin). by left. }
      rewrite get_default_absent, set_absent by done.
      rewrite IH.
      + by rewrite fmap_cons, <- app_assoc.
      + unfold Py.keys. rewrite fmap_app, <- app_assoc. exact Hnd. }
  intros Hnd. by rewrite Hgen.
Qed.

Lemma occurrences_zero xs x : occurrences xs x = 0%nat <-> x ∉ xs.
Proof.
  unfold occurrences. split.
  - intros Hzero Hin%list_elem_of_In.
    by apply (count_occ_not_In (decide_rel (=))) in Hzero.
  - intros Hx. apply count_occ_not_In. by rewrite <- list_elem_of_In.
Qed.

(** Without repeated members in [xs], the difference keeps the members of
    [xs] that are not in [ys], in the order of [xs]. *)
Lemma elements_difference_NoDup xs ys :
  NoDup xs ->
  elements (counter_sub (Counter xs) (Counter ys)) = filter (λ x, x ∉ ys) xs.
Proof.
  intros Hnd. destruct (Counter_spec ys) as (_ & Hpos & Hget).
  unfold counter_sub. rewrite negative_part_nil, app_nil_r by done.
  rewrite (Counter_NoDup xs Hnd). clear Hnd.
  induction xs as [| x xs IH]; [done |].
  rewrite fmap_cons. cbn [omap list_omap fst snd]. cbv zeta.
  rewrite Hget, filter_cons.
  destruct (decide (x ∉ ys)) as [Hx | Hx].
  - apply occurrences_zero in Hx. rewrite Hx.
    change (0 <? 1 - Z.of_nat 0) with true. cbv iota.
    unfold elements. rewrite bind_cons. cbn [fst snd].
    change (Z.to_nat 1) with 1%nat. cbn [replicate app]. f_equal.
    exact IH.
  - assert (occurrences ys x ≠ 0%nat) as Hocc
      by (by rewrite occurrences_zero).
    assert ((0 <? 1 - Z.of_nat (occurrences ys x)) = false) as -> by lia.
    exact IH.
Qed.

Lemma occurrences_nil_inv xs : (forall x, occurrences xs x = 0%nat) -> xs = [].
Proof. intros Hall. by apply (count_occ_inv_nil (decide_rel (=))). Qed.

Lemma occurrences_Permutation xs ys :
  (forall x, occurrences xs x = occurrences ys x) -> xs ≡ₚ ys.
Proof. intros Hall. by apply (Permutation_count_occ (decide_rel (=))). Qed.

Lemma Permutation_occurrences xs ys x :
  xs ≡ₚ ys -> occurrences xs x = occurrences ys x.
Proof. intros Hp. by apply (Permutation_count_occ (decide_rel (=))). Qed.

Lemma occurrences_app xs ys x :
  occurrences (xs ++ ys) x = (occurrences xs x + occurrences ys x)%nat.
Proof. apply count_occ_app. Qed.
End counter_facts.

Section matcher_facts.
Context `{SetOrder}.

(** *** The index and the tally only name positions of [B] *)

Lemma get_default_bounded n index elem i :
  index_bounded n index -> i ∈ get_default elem index [] -> (i < n)%nat.
Proof.
  intros Hb. unfold get_default.
  destruct (Py.get elem index) as [s |] eqn:Hg; simpl.
  - by apply (Hb elem s).
  - by intros ?%elem_of_nil.
Qed.

Lemma index_add_bounded n index i elem :
  (i < n)%nat -> index_bounded n index ->
  index_bounded n (index_add index i elem).
Proof.
  intros Hi Hb elem' s j. unfold index_add.
  destruct (decide (elem' = elem)) as [-> | Hne].
  - rewrite get_set_eq. intros [= <-] [-> | Hj]%set_add_elem; [done |].
    by eapply get_default_bounded.
  - rewrite get_set_ne by done. apply Hb.
Qed.

Lemma build_index_bounded B : index_bounded (length B) (build_index B).
Proof.
  unfold build_index.
  apply (foldl_invariant (index_bounded (length B))
           (λ ib, B !! ib.1 = Some ib.2)).
  - intros index [i b] Hb Hi. simpl in *.
    apply (foldl_invariant (index_bounded (length B)) (λ _, True)).
    + intros index' elem Hb' _. apply index_add_bounded; [| done].
      by eapply lookup_lt_Some.
    + done.
    + by apply Forall_true.
  - by intros elem s i [=].
  - apply imap_pair_bound.
Qed.

Lemma counter_incr_keys counter idx i :
  i ∈ Py.keys (counter_incr counter idx) <-> i = idx \/ i ∈ Py.keys counter.
Proof. apply elem_of_keys_set. Qed.

Lemma tally_bounded n index a i :
  index_bounded n index -> i ∈ Py.keys (tally index a) -> (i < n)%nat.
Proof.
  intros Hb. unfold tally. revert i.
  apply (foldl_invariant
           (λ counter, forall i, i ∈ Py.keys counter -> (i < n)%nat)
           (λ _, True)).
  - intros counter elem Hc _.
    apply (foldl_invariant
             (λ counter, forall i, i ∈ Py.keys counter -> (i < n)%nat)
             (λ idx, (idx < n)%nat)).
    + intros c idx Hc' Hidx i [-> | Hi]%counter_incr_keys; auto.
    + done.
    + apply Forall_forall. intros idx Hidx.
      by eapply get_default_bounded.
  - by intros i ?%elem_of_nil.
  - by apply Forall_true.
Qed.

Lemma max_by_elem {A} (key : A -> Z) (rest : list A) : forall best,
  max_by key best rest ∈ best :: rest.
Proof.
  induction rest as [| x rest IH]; intros best; simpl; [by left |].
  specialize (IH (if key best <? key x then x else best)).
  apply elem_of_cons in IH as [-> | IH].
  - destruct (key best <? key x); [right; by left | by left].
  - by do 2 right.
Qed.

Lemma positions_of_elem b item i :
  i ∈ positions_of b item <-> b !! i = Some item.
Proof.
  unfold positions_of. rewrite list_elem_of_bind. split.
  - intros ([j x] & Hi & Hin).
    apply elem_of_lookup_imap in Hin as (j' & x' & [= -> ->] & Hl).
    simpl in Hi. case_decide as Hx; [| by apply elem_of_nil in Hi].
    apply list_elem_of_singleton in Hi as ->. by rewrite <- Hx.
  - intros Hl. exists (i, item). split.
    + simpl. rewrite decide_True by done. by left.
    + apply elem_of_lookup_imap. by exists i, item.
Qed.

Lemma pos_list_bound a b :
  Forall (λ d, (d < length b)%nat) (set_and a b ≫= positions_of b).
Proof.
  apply Forall_forall. intros d (item & Hd & _)%list_elem_of_bind.
  apply positions_of_elem in Hd. by eapply lookup_lt_Some.
Qed.

(** *** [_find_best_matches] never raises *)

Lemma match_candidate_ok index B min_overlap a :
  index_bounded (length B) index ->
  exists r,
    match_candidate index B min_overlap a = Py.ok r
    /\ (length r <= 1)%nat
    /\ Forall (from_group B) r.
Proof.
  intros Hb. unfold match_candidate.
  destruct (Py.keys (tally index a)) as [| k ks] eqn:Hkeys.
  { exists []. split; [done |]. split; [simpl; lia | done]. }
  set (best := max_by _ k ks).
  destruct (min_overlap <=? _).
  2:{ exists []. split; [done |]. split; [simpl; lia | done]. }
  assert (Hbest : (best < length B)%nat).
  { apply (tally_bounded _ index a); [done |].
    rewrite Hkeys. apply max_by_elem. }
  apply lookup_lt_is_Some_2 in Hbest as [b Hbl].
  rewrite (RangeCombiningFacts.index_nat _ _ b Hbl). simpl.
  eexists. split; [done |]. split; [simpl; lia |].
  apply Forall_singleton. exists best, b, (set_and a b ≫= positions_of b).
  split; [done |]. split; [done |]. apply pos_list_bound.
Qed.

Lemma find_best_matches_ok A B min_overlap :
  exists mrl,
    _find_best_matches A B min_overlap = Py.ok mrl
    /\ (length mrl <= length A)%nat
    /\ Forall (from_group B) mrl.
Proof.
  unfold _find_best_matches.
  assert (Hgen : forall A results,
    Forall (from_group B) results ->
    exists mrl,
      Py.foldM (λ results a,
                  r <- match_candidate (build_index B) B min_overlap a ;;
                  Py.ok (results ++ r)) A results = Py.ok mrl
      /\ (length mrl <= length results + length A)%nat
      /\ Forall (from_group B) mrl).
  { clear A. induction A as [| a A IH]; intros results Hres.
    - exists results. split; [done |]. split; [simpl; lia | done].
    - simpl.
      destruct (match_candidate_ok (build_index B) B min_overlap a
                  (build_index_bounded B)) as (r & -> & Hlen & Hr).
      simpl. destruct (IH (results ++ r)) as (mrl & Hrun & Hl & Hall).
      { by apply Forall_app. }
      exists mrl. split; [done |]. split; [| done].
      rewrite length_app in Hl. lia. }
  destruct (Hgen A []) as (mrl & Hrun & Hl & Hall); [done |].
  exists mrl. split; [done |]. split; [simpl in Hl; lia | done].
Qed.

(** *** The output loop *)

(** On a group of an aligned matcher, [resolve] reads the plaintext and
    the token at each listed position. *)
Lemma resolve_from_group self g plain hashes pl :
  _credentials_data self !! g = Some plain ->
  _hash_credentials_data self !! g = Some hashes ->
  length plain = length hashes ->
  Forall (λ d, (d < length hashes)%nat) pl ->
  exists ms hs,
    resolve self [g] 0 pl = Py.ok (ms, hs)
    /\ Forall2 (λ d m, plain !! d = Some m) pl ms
    /\ Forall2 (λ d h, hashes !! d = Some h) pl hs.
Proof.
  intros Hplain Hhashes Hlen Hpl. unfold resolve.
  match goal with |- context [Py.foldM ?body pl _] => set (f := body) end.
  assert (Hgen : forall ms0 hs0,
    exists ms hs,
      Py.foldM f pl (ms0, hs0) = Py.ok (ms0 ++ ms, hs0 ++ hs)
      /\ Forall2 (λ d m, plain !! d = Some m) pl ms
      /\ Forall2 (λ d h, hashes !! d = Some h) pl hs).
  { induction pl as [| d pl IH]; intros ms0 hs0.
    - exists [], []. rewrite !app_nil_r. by repeat split.
    - apply Forall_cons in Hpl as [Hd Hpl].
      destruct (lookup_lt_is_Some_2 hashes d Hd) as [h Hh].
      destruct (lookup_lt_is_Some_2 plain d) as [m Hm]; [lia |].
      cbn [Py.foldM]. unfold f at 1.
      rewrite (RangeCombiningFacts.index_nat [g] 0 g) by done.
      cbn [Py.bind Py.ok].
      rewrite (RangeCombiningFacts.index_nat _ _ plain Hplain).
      cbn [Py.bind Py.ok].
      rewrite (RangeCombiningFacts.index_nat _ _ m Hm).
      cbn [Py.bind Py.ok].
      rewrite (RangeCombiningFacts.index_nat _ _ hashes Hhashes).
      cbn [Py.bind Py.ok].
      rewrite (RangeCombiningFacts.index_nat _ _ h Hh).
      cbn [Py.bind Py.ok fst snd].
      destruct (IH Hpl (ms0 ++ [m]) (hs0 ++ [h]))
        as (ms & hs & -> & Hms & Hhs).
      exists (m :: ms), (h :: hs). rewrite <- !app_assoc.
      split; [done |]. split; by constructor. }
  destruct (Hgen [] []) as (ms & hs & Hrun & Hms & Hhs).
  by exists ms, hs.
Qed.

Lemma dedup_inv_snoc acc r :
  dedup_inv acc -> dedup_key r ∉ acc.2 ->
  dedup_inv (acc.1 ++ [r], acc.2 ++ [dedup_key r]).
Proof.
  intros [Heq Hnd] Hnew. split; simpl.
  - by rewrite fmap_app, Heq.
  - apply NoDup_app. split; [done |]. split; [| apply NoDup_singleton].
    by intros k Hk ->%list_elem_of_singleton.
Qed.

(** One entry of a well-formed [match_result_list]: the loop body
    succeeds, keeps the invariant, and leaves the key of the entry in
    [match_test]. *)
Lemma connect_entry_ok self queries acc idpos r :
  aligned self ->
  (idpos < length queries)%nat ->
  from_group (_hash_credentials_data self) r ->
  dedup_inv acc ->
  exists acc',
    connect_entry self queries acc (idpos, r) = Py.ok acc'
    /\ dedup_inv acc'
    /\ test_grows acc acc'
    /\ forall pos det ml,
         r.2 !! pos = Some det ->
         resolve self r.1 pos det = Py.ok ml ->
         sorted ml.1 ∈ acc'.2.
Proof.
  intros Hal Hid (g & hashes & pl & -> & Hg & Hpl) Hinv.
  destruct (Forall2_lookup_r _ _ _ _ _ Hal Hg) as (plain & Hplain & Hlen).
  destruct (resolve_from_group self g plain hashes pl Hplain Hg Hlen Hpl)
    as (ms & hs & Hres & _ & _).
  destruct (lookup_lt_is_Some_2 queries idpos Hid) as [query Hq].
  unfold connect_entry. cbn [fst snd]. change (Py.len [g] =? 0) with false.
  cbv iota. cbn [imap Py.foldM Py.bind]. unfold connect at 1.
  cbn [fst snd]. rewrite Hres. cbn [Py.bind Py.ok fst snd].
  case_bool_decide as Hseen.
  - exists acc. cbn [Py.bind Py.ok]. split; [done |]. split; [done |].
    split; [by intros k |].
    intros [| pos] det ml Hdet Hml; [| done].
    injection Hdet as <-. rewrite Hres in Hml. by injection Hml as <-.
  - rewrite (RangeCombiningFacts.index_nat _ _ query Hq).
    cbn [Py.bind Py.ok].
    rewrite (RangeCombiningFacts.index_nat [g] 0 g) by done.
    cbn [Py.bind Py.ok].
    rewrite (RangeCombiningFacts.index_nat _ _ plain Hplain).
    cbn [Py.bind Py.ok].
    eexists. split; [done |]. split; [| split].
    + by apply (dedup_inv_snoc acc
                  {| matches_list := ms; unmatches_list := _;
                     other_candidate := _ |}).
    + intros k Hk. cbn [snd]. apply elem_of_app. by left.
    + intros [| pos] det ml Hdet Hml; [| done].
      injection Hdet as <-. rewrite Hres in Hml. injection Hml as <-.
      cbn [fst snd]. apply elem_of_app. right. by left.
Qed.

(** On an aligned matcher [run] never raises; its records have pairwise
    distinct keys, and the key of every entry of [match_result_list] is
    among them. *)
Lemma run_ok self queries min_overlap :
  aligned self ->
  exists mrl recs,
    _find_best_matches queries (_hash_credentials_data self) min_overlap
      = Py.ok mrl
    /\ run self queries min_overlap = Py.ok recs
    /\ NoDup (dedup_key <$> recs)
    /\ forall i r pos det ml,
         mrl !! i = Some r ->
         r.2 !! pos = Some det ->
         resolve self r.1 pos det = Py.ok ml ->
         sorted ml.1 ∈ dedup_key <$> recs.
Proof.
  intros Hal. unfold run.
  destruct (find_best_matches_ok queries (_hash_credentials_data self)
              min_overlap) as (mrl & Hfind & Hlen & Hall).
  rewrite Hfind. cbn [Py.bind Py.ok].
  destruct (foldM_track dedup_inv
              (λ ie, (ie.1 < length queries)%nat
                     /\ from_group (_hash_credentials_data self) ie.2)
              test_grows
              (λ ie acc, forall pos det ml,
                 ie.2.2 !! pos = Some det ->
                 resolve self ie.2.1 pos det = Py.ok ml ->
                 sorted ml.1 ∈ acc.2)
              (connect_entry self queries) (imap pair mrl))
    with (b := ([], []) : list ConnectionRecord * list (list string))
    as (acc & Hrun & [Heq Hnd] & _ & Hseen).
  - by intros acc k.
  - intros a1 a2 a3 H12 H23 k Hk. by apply H23, H12.
  - intros ie a1 a2 Hs Hg pos det ml Hdet Hml. by eapply Hg, Hs.
  - intros acc [idpos r] Hinv [Hid Hr]. by apply connect_entry_ok.
  - split; [done | apply NoDup_nil_2].
  - apply Forall_forall. intros [i r] Hin.
    apply elem_of_lookup_imap in Hin as (i' & r' & [= -> ->] & Hl).
    split; simpl.
    + apply lookup_lt_Some in Hl. lia.
    + rewrite Forall_forall in Hall. apply Hall.
      by eapply list_elem_of_lookup_2.
  - exists mrl, acc.1. split; [done |]. rewrite Hrun. cbn [Py.bind Py.ok].
    split; [done |]. rewrite <- Heq. split; [done |].
    intros i r pos det ml Hi Hdet Hml.
    rewrite Forall_forall in Hseen.
    apply (Hseen (i, r)) with pos det; [| done | done].
    apply elem_of_lookup_imap. by exists i, r.
Qed.

(** *** A matcher with a single group *)

Lemma set_add_first i : set_add [] i = [i].
Proof.
  pose proof (set_add_NoDup [] i (NoDup_nil_2)) as Hnd.
  pose proof (set_add_elem [] i) as Hel.
  destruct (set_add [] i) as [| j [| j' s]].
  - specialize (Hel i). rewrite elem_of_nil in Hel. tauto.
  - f_equal. destruct (Hel j) as [[-> | Hj] _]; [by left | done |].
    by apply elem_of_nil in Hj.
  - exfalso. apply NoDup_cons in Hnd as [Hj _]. apply Hj.
    destruct (Hel j) as [[-> | Hj1] _]; [by left | |].
    + destruct (Hel j') as [[-> | Hj2] _]; [right; by left | by left |].
      by apply elem_of_nil in Hj2.
    + by apply elem_of_nil in Hj1.
Qed.

Lemma index_single_fold xs : forall index elem,
  NoDup xs ->
  (forall x, x ∈ xs -> Py.get x index = None) ->
  Py.get elem (foldl (λ index elem, index_add index 0 elem) index xs)
  = if decide (elem ∈ xs) then Some [0%nat] else Py.get elem index.
Proof.
  induction xs as [| x xs IH]; intros index elem Hnd Hfresh.
  - cbn [foldl]. by rewrite decide_False by apply not_elem_of_nil.
  - apply NoDup_cons in Hnd as [Hx Hnd]. cbn [foldl].
    rewrite IH; [| done |].
    2:{ intros y Hy. unfold index_add. rewrite get_set_ne.
        - apply Hfresh. by right.
        - by intros ->. }
    unfold index_add.
    rewrite (get_default_None x index) by (apply Hfresh; by left).
    rewrite set_add_first.
    destruct (decide (elem ∈ xs)) as [Hin | Hnin].
    + rewrite decide_True; [done | by right].
    + destruct (decide (elem = x)) as [-> | Hne].
      * rewrite get_set_eq. rewrite decide_True; [done | by left].
      * rewrite get_set_ne by done.
        rewrite decide_False; [done |].
        rewrite not_elem_of_cons. done.
Qed.

Lemma build_index_single g elem :
  get_default elem (build_index [g]) []
  = if decide (elem ∈ g) then [0%nat] else [].
Proof.
  unfold build_index, get_default. cbn [imap foldl fst snd].
  rewrite index_single_fold; [| apply set_of_NoDup | done].
  destruct (decide (elem ∈ set_of g)) as [Hin | Hnin];
    rewrite set_of_elem in *.
  - by rewrite decide_True.
  - by rewrite decide_False.
Qed.

Lemma counter_incr_single n :
  counter_incr (single_tally n) 0 = single_tally (S n).
Proof.
  destruct n as [| n]; [done |]. unfold counter_incr, get_default.
  cbn [single_tally Py.get Py.set]. rewrite !decide_True by done.
  cbn [default]. do 2 f_equal. unfold id. lia.
Qed.

Lemma tally_single_fold g xs : forall n,
  foldl (λ counter elem,
           foldl counter_incr counter
             (get_default elem (build_index [g]) []))
    (single_tally n) xs
  = single_tally (n + length (filter (λ x, x ∈ g) xs)).
Proof.
  induction xs as [| x xs IH]; intros n.
  - simpl. by rewrite Nat.add_0_r.
  - simpl foldl. rewrite build_index_single, filter_cons.
    destruct (decide (x ∈ g)).
    + simpl foldl. rewrite counter_incr_single, IH. simpl length.
      f_equal. lia.
    + simpl foldl. by rewrite IH.
Qed.

Lemma tally_single g a :
  tally (build_index [g]) a = single_tally (overlap a g).
Proof. unfold tally, overlap. apply (tally_single_fold g _ 0). Qed.

(** With a single group, a candidate is accepted exactly when it has
    some token in the group and at least [min_overlap] of them. *)
Lemma match_candidate_single g min_overlap a :
  match_candidate (build_index [g]) [g] min_overlap a
  = Py.ok (if bool_decide (0 < overlap a g)%nat
              && (min_overlap <=? Z.of_nat (overlap a g))
           then [([0%nat], [set_and a g ≫= positions_of g])]
           else []).
Proof.
  unfold match_candidate. rewrite tally_single.
  destruct (overlap a g) as [| n]; [done |].
  cbn [single_tally Py.keys fmap list_fmap fst max_by].
  unfold get_default. cbn [Py.get]. rewrite decide_True by done.
  cbn [default]. rewrite bool_decide_true by lia. cbn [andb]. unfold id.
  by destruct (min_overlap <=? Z.of_nat (S n)).
Qed.

(** *** Positions in a group without repeated tokens *)

Lemma singleton_list {A} (l : list A) (i : A) :
  NoDup l -> (forall j, j ∈ l <-> j = i) -> l = [i].
Proof.
  intros Hnd Hel. destruct l as [| j [| j' l]].
  - specialize (Hel i). rewrite elem_of_nil in Hel. tauto.
  - f_equal. apply Hel. by left.
  - exfalso. apply NoDup_cons in Hnd as [Hj _]. apply Hj.
    assert (j = i) as -> by (apply Hel; by left).
    assert (j' = i) as -> by (apply Hel; right; by left). by left.
Qed.

Lemma positions_shift (b : list string) (item : string) :
  forall f : nat -> nat,
  imap (λ i x, (f i, x)) b
    ≫= (λ ix : nat * string, if decide (ix.2 = item) then [ix.1] else [])
  = f <$> positions_of b item.
Proof.
  unfold positions_of. induction b as [| x b IH]; intros f; [done |].
  cbn [imap]. rewrite !bind_cons, fmap_app. cbn [fst snd]. f_equal.
  - by case_decide.
  - unfold compose. cbv beta. rewrite (IH (λ i, f (S i))).
    change (λ i : nat, f (S i)) with (f ∘ S).
    rewrite (list_fmap_compose S f). f_equal. symmetry. exact (IH S).
Qed.

Lemma positions_of_cons x b item :
  positions_of (x :: b) item
  = (if decide (x = item) then [0%nat] else []) ++ (S <$> positions_of b item).
Proof.
  unfold positions_of at 1. cbn [imap]. rewrite bind_cons. cbn [fst snd].
  f_equal. exact (positions_shift b item S).
Qed.

Lemma positions_of_NoDup b item : NoDup (positions_of b item).
Proof.
  induction b as [| x b IH]; [apply NoDup_nil_2 |].
  rewrite positions_of_cons. apply NoDup_app. split; [| split].
  - case_decide; [apply NoDup_singleton | apply NoDup_nil_2].
  - intros i Hi. case_decide; [| by apply elem_of_nil in Hi].
    apply list_elem_of_singleton in Hi as ->.
    by intros (j & ? & _)%list_elem_of_fmap.
  - by apply (NoDup_fmap_2 S).
Qed.

Lemma positions_of_unique g i z :
  NoDup g -> g !! i = Some z -> positions_of g z = [i].
Proof.
  intros Hnd Hi. apply singleton_list; [apply positions_of_NoDup |].
  intros j. rewrite positions_of_elem. split.
  - intros Hj. by eapply NoDup_lookup.
  - by intros ->.
Qed.

Lemma plain_of_lookup g plain i z m :
  NoDup g -> g !! i = Some z -> plain !! i = Some m ->
  plain_of g plain z = m.
Proof.
  intros Hnd Hi Hm. unfold plain_of.
  by rewrite (positions_of_unique g i z), Hm.
Qed.

(** The tokens [zs] of a group resolve to their aligned plaintexts, in
    the order of [zs]. *)
Lemma resolve_tokens self gi plain g zs :
  _credentials_data self !! gi = Some plain ->
  _hash_credentials_data self !! gi = Some g ->
  length plain = length g ->
  NoDup g ->
  (forall z, z ∈ zs -> z ∈ g) ->
  resolve self [gi] 0 (zs ≫= positions_of g)
  = Py.ok (plain_of g plain <$> zs, zs).
Proof.
  intros Hplain Hg Hlen Hnd Hzs.
  destruct (resolve_from_group self gi plain g (zs ≫= positions_of g))
    as (ms & hs & -> & Hms & Hhs); try done.
  { apply Forall_forall. intros d (z & Hd & _)%list_elem_of_bind.
    apply positions_of_elem in Hd. by eapply lookup_lt_Some. }
  do 2 f_equal.
  - revert ms Hms. clear Hhs hs.
    induction zs as [| z zs IH]; intros ms Hms.
    + by apply Forall2_nil_inv_l in Hms.
    + destruct (list_elem_of_lookup_1 g z) as [i Hi]; [apply Hzs; by left |].
      rewrite bind_cons, (positions_of_unique g i z) in Hms by done.
      apply Forall2_cons_inv_l in Hms as (m & ms' & Hm & Hms' & ->).
      rewrite fmap_cons. f_equal.
      * symmetry. by eapply plain_of_lookup.
      * apply IH; [| done]. intros z' Hz'. apply Hzs. by right.
  - revert hs Hhs. clear Hms ms.
    induction zs as [| z zs IH]; intros hs Hhs.
    + by apply Forall2_nil_inv_l in Hhs.
    + destruct (list_elem_of_lookup_1 g z) as [i Hi]; [apply Hzs; by left |].
      rewrite bind_cons, (positions_of_unique g i z) in Hhs by done.
      apply Forall2_cons_inv_l in Hhs as (h & hs' & Hh & Hhs' & ->).
      f_equal.
      * congruence.
      * apply IH; [| done]. intros z' Hz'. apply Hzs. by right.
Qed.

(** The output loop on a single accepted entry.  The candidate is read
    at [idpos = 0], the position of the entry in [match_result_list]. *)
Lemma output_single self queries query g plain pl ms hs :
  queries !! 0%nat = Some query ->
  _credentials_data self !! g = Some plain ->
  resolve self [g] 0 pl = Py.ok (ms, hs) ->
  Py.foldM (connect_entry self queries) (imap pair [([g], [pl])]) ([], [])
  = Py.ok ([{| matches_list := ms;
               unmatches_list :=
                 elements (counter_sub (Counter query) (Counter hs));
               other_candidate :=
                 elements (counter_sub (Counter plain) (Counter ms)) |}],
           [sorted ms]).
Proof.
  intros Hq Hplain Hres. cbn [imap Py.foldM Py.bind].
  unfold connect_entry. cbn [fst snd]. change (Py.len [g] =? 0) with false.
  cbv iota. cbn [imap Py.foldM Py.bind]. unfold connect. cbn [fst snd].
  rewrite Hres. cbn [Py.bind Py.ok fst snd].
  rewrite bool_decide_false by apply not_elem_of_nil.
  rewrite (RangeCombiningFacts.index_nat _ _ query Hq).
  cbn [Py.bind Py.ok].
  rewrite (RangeCombiningFacts.index_nat [g] 0 g) by done.
  cbn [Py.bind Py.ok].
  rewrite (RangeCombiningFacts.index_nat _ _ plain Hplain).
  done.
Qed.

(** *** Overlap with a single group *)

Lemma set_of_Permutation xs : NoDup xs -> set_of xs ≡ₚ xs.
Proof.
  intros Hnd. apply NoDup_Permutation; [apply set_of_NoDup | done |].
  apply set_of_elem.
Qed.

Lemma filter_all {A} (P : A -> Prop) `{!forall x, Decision (P x)}
    (l : list A) :
  Forall P l -> filter P l = l.
Proof.
  induction 1 as [| x l Hx Hl IH]; [done |].
  by rewrite filter_cons_True, IH.
Qed.

Lemma filter_none {A} (P : A -> Prop) `{!forall x, Decision (P x)}
    (l : list A) :
  Forall (λ x, ¬ P x) l -> filter P l = [].
Proof.
  induction 1 as [| x l Hx Hl IH]; [done |].
  by rewrite filter_cons_False.
Qed.

Lemma overlap_all a g :
  NoDup a -> (forall x, x ∈ a -> x ∈ g) -> overlap a g = length a.
Proof.
  intros Hnd Hall. unfold overlap.
  rewrite <- (Permutation_length (set_of_Permutation a Hnd)). f_equal.
  apply filter_all, Forall_forall. intros x Hx. by apply Hall, set_of_elem.
Qed.

Lemma overlap_none a g :
  (forall x, x ∈ a -> x ∉ g) -> overlap a g = 0%nat.
Proof.
  intros Hall. unfold overlap. rewrite filter_none; [done |].
  apply Forall_forall. intros x Hx. by apply Hall, set_of_elem.
Qed.

Lemma overlap_filter a g :
  NoDup a -> overlap a g = length (filter (λ x, x ∈ g) a).
Proof.
  intros Hnd. unfold overlap.
  by rewrite (set_of_Permutation a Hnd).
Qed.

Lemma set_and_Permutation a g zs :
  NoDup zs -> (forall x, x ∈ zs <-> x ∈ a /\ x ∈ g) -> set_and a g ≡ₚ zs.
Proof.
  intros Hnd Hzs. apply NoDup_Permutation; [apply set_and_NoDup | done |].
  intros x. by rewrite set_and_elem, Hzs.
Qed.
End matcher_facts.

End CredentialConnectingFacts.

Module CredentialConnectingClaims.
Import CredentialConnecting CredentialConnectingFacts.

(** C8. Deduplication: on an aligned matcher every run returns, the sorted
    matched-plaintext lists of the returned records are pairwise distinct,
    and for every accepted match (every entry of [match_result_list]) there
    is exactly one record with its sorted matched-plaintext list, however
    many candidates resolved to that list. *)
Theorem dedup_unique `{SetOrder} (self : CredentialConnectingAttack)
    (queries : list (list string)) (min_overlap : Z) :
  aligned self ->
  exists mrl recs,
    _find_best_matches queries (_hash_credentials_data self) min_overlap
      = Py.ok mrl
    /\ run self queries min_overlap = Py.ok recs
    /\ NoDup (dedup_key <$> recs)
    /\ forall i r pos det ml,
         mrl !! i = Some r ->
         r.2 !! pos = Some det ->
         resolve self r.1 pos det = Py.ok ml ->
         length (filter (λ rec, dedup_key rec = sorted ml.1) recs) = 1%nat.
Proof.
  intros Hal.
  destruct (run_ok self queries min_overlap Hal)
    as (mrl & recs & Hfind & Hrun & Hnd & Hseen).
  exists mrl, recs. split; [done |]. split; [done |]. split; [done |].
  intros i r pos det ml Hi Hdet Hml.
  apply count_unique_key; [done |]. by eapply Hseen.
Qed.

Lemma dedup_unique_witness :
  exists recs,
    run {| _credentials_data := [["pA"; "pB"; "pC"]%string];
           _hash_credentials_data := [["A"; "B"; "C"]%string] |}
      [["A"; "B"]; ["B"; "A"; "Q"]]%string 2 = Py.ok recs
    /\ NoDup (dedup_key <$> recs).
Proof.
  destruct (dedup_unique
              {| _credentials_data := [["pA"; "pB"; "pC"]%string];
                 _hash_credentials_data := [["A"; "B"; "C"]%string] |}
              [["A"; "B"]; ["B"; "A"; "Q"]]%string 2)
    as (mrl & recs & _ & Hrun & Hnd & _).
  - by repeat constructor.
  - exists recs. split; [exact Hrun | exact Hnd].
Defined.

(** C5. Matcher correctness on one group of eleven distinct tokens
    [tA .. tK] with aligned plaintexts [pA .. pK]: for the candidate
    [(tA, tB, tC)] and [min_overlap = 2] the run returns exactly one
    record; its matched plaintexts are those of [tA], [tB], [tC] (in the
    iteration order of the intersection set), its unmatched list is empty,
    and its other candidates are the plaintexts of [tD .. tK]; when the
    plaintexts are pairwise distinct they come in exactly that order. *)
Theorem single_group_match `{SetOrder}
    (tA tB tC tD tE tF tG tH tI tJ tK : string)
    (pA pB pC pD pE pF pG pH pI pJ pK : string) :
  NoDup [tA; tB; tC; tD; tE; tF; tG; tH; tI; tJ; tK] ->
  exists r,
    run {| _credentials_data :=
             [[pA; pB; pC; pD; pE; pF; pG; pH; pI; pJ; pK]];
           _hash_credentials_data :=
             [[tA; tB; tC; tD; tE; tF; tG; tH; tI; tJ; tK]] |}
      [[tA; tB; tC]] 2 = Py.ok [r]
    /\ matches_list r ≡ₚ [pA; pB; pC]
    /\ unmatches_list r = []
    /\ other_candidate r ≡ₚ [pD; pE; pF; pG; pH; pI; pJ; pK]
    /\ (NoDup [pA; pB; pC; pD; pE; pF; pG; pH; pI; pJ; pK] ->
        other_candidate r = [pD; pE; pF; pG; pH; pI; pJ; pK]).
Proof.
  intros Hnd.
  set (g := [tA; tB; tC; tD; tE; tF; tG; tH; tI; tJ; tK]) in *.
  set (plain := [pA; pB; pC; pD; pE; pF; pG; pH; pI; pJ; pK]).
  set (a := [tA; tB; tC]).
  assert (Hsub : forall x, x ∈ a -> x ∈ g).
  { intros x Hx. unfold g. change (x ∈ a ++ [tD; tE; tF; tG; tH; tI; tJ; tK]).
    apply elem_of_app. by left. }
  assert (Hnda : NoDup a).
  { change g with (a ++ [tD; tE; tF; tG; tH; tI; tJ; tK]) in Hnd.
    by apply NoDup_app in Hnd as [? _]. }
  assert (Hzs : set_and a g ≡ₚ a).
  { apply set_and_Permutation; [done |]. intros x. split; [| tauto].
    intros Hx. split; [done | by apply Hsub]. }
  unfold run, _find_best_matches. cbn [_hash_credentials_data Py.foldM].
  rewrite match_candidate_single, (overlap_all a g Hnda Hsub).
  change (bool_decide (0 < length a)%nat && (2 <=? Z.of_nat (length a)))
    with true. cbv iota. cbn [Py.bind Py.ok app].
  set (self := {| _credentials_data := [plain];
                  _hash_credentials_data := [g] |}).
  assert (Hres : resolve self [0%nat] 0 (set_and a g ≫= positions_of g)
                 = Py.ok (plain_of g plain <$> set_and a g, set_and a g)).
  { apply (resolve_tokens self 0 plain g); try done.
    intros z Hz. apply set_and_elem in Hz. tauto. }
  rewrite (output_single self [a] a 0%nat plain _ _ _ eq_refl eq_refl Hres).
  cbn [Py.bind Py.ok fst].
  eexists. split; [done |]. cbn [matches_list unmatches_list other_candidate].
  assert (Hms : plain_of g plain <$> set_and a g ≡ₚ [pA; pB; pC]).
  { rewrite Hzs. unfold a. rewrite !fmap_cons, fmap_nil.
    rewrite (plain_of_lookup g plain 0 tA pA) by done.
    rewrite (plain_of_lookup g plain 1 tB pB) by done.
    rewrite (plain_of_lookup g plain 2 tC pC) by done. done. }
  split; [done |]. split; [| split].
  - apply occurrences_nil_inv. intros x. rewrite occurrences_difference.
    rewrite (Permutation_occurrences _ _ x Hzs). lia.
  - apply occurrences_Permutation. intros x.
    rewrite occurrences_difference.
    rewrite (Permutation_occurrences _ _ x Hms).
    change plain with ([pA; pB; pC] ++ [pD; pE; pF; pG; pH; pI; pJ; pK]).
    rewrite occurrences_app. lia.
  - intros Hndp. rewrite elements_difference_NoDup by done.
    generalize dependent (plain_of g plain <$> set_and a g).
    intros ms _ Hms.
    change plain with ([pA; pB; pC] ++ [pD; pE; pF; pG; pH; pI; pJ; pK])
      in Hndp |- *.
    apply NoDup_app in Hndp as (_ & Hdisj & _).
    rewrite filter_app, filter_none, filter_all; [done | |].
    + apply Forall_forall. intros x Hx Hin. rewrite Hms in Hin.
      by apply (Hdisj x).
    + apply Forall_forall. intros x Hx Hnin. apply Hnin. by rewrite Hms.
Qed.

Lemma single_group_match_witness :
  exists r,
    run {| _credentials_data :=
             [["pA"; "pB"; "pC"; "pD"; "pE"; "pF"; "pG"; "pH"; "pI"; "pJ";
               "pK"]%string];
           _hash_credentials_data :=
             [["A"; "B"; "C"; "D"; "E"; "F"; "G"; "H"; "I"; "J";
               "K"]%string] |}
      [["A"; "B"; "C"]%string] 2 = Py.ok [r]
    /\ unmatches_list r = [].
Proof.
  destruct (single_group_match "A" "B" "C" "D" "E" "F" "G" "H" "I" "J" "K"
              "pA" "pB" "pC" "pD" "pE" "pF" "pG" "pH" "pI" "pJ" "pK")
    as (r & Hrun & _ & Hun & _ & _).
  - compute_done.
  - exists r. split; [exact Hrun | exact Hun].
Defined.

(** C4 fails on the code.  The group is ["A" .. "K"]; the first candidate
    ("X","Y","Z") has no token in it and is skipped by
    [_find_best_matches], the second candidate ("A","B","Q") is accepted.
    Its record is built at [idpos = 0], so its unmatched list is taken
    from the first candidate: it is ["X","Y","Z"], not ["Q"]. *)
Theorem unmatched_from_skipped_candidate `{SetOrder} :
  exists r,
    run {| _credentials_data :=
             [["pA"; "pB"; "pC"; "pD"; "pE"; "pF"; "pG"; "pH"; "pI"; "pJ";
               "pK"]%string];
           _hash_credentials_data :=
             [["A"; "B"; "C"; "D"; "E"; "F"; "G"; "H"; "I"; "J";
               "K"]%string] |}
      [["X"; "Y"; "Z"]; ["A"; "B"; "Q"]]%string 2 = Py.ok [r]
    /\ matches_list r ≡ₚ ["pA"; "pB"]%string
    /\ unmatches_list r = ["X"; "Y"; "Z"]%string
    /\ filter (λ x, x ∉ ["A"; "B"; "C"; "D"; "E"; "F"; "G"; "H"; "I"; "J";
                          "K"]%string) ["A"; "B"; "Q"]%string
       = ["Q"]%string.
Proof.
  set (g := ["A"; "B"; "C"; "D"; "E"; "F"; "G"; "H"; "I"; "J"; "K"]%string).
  set (plain := ["pA"; "pB"; "pC"; "pD"; "pE"; "pF"; "pG"; "pH"; "pI"; "pJ";
                 "pK"]%string).
  set (a1 := ["X"; "Y"; "Z"]%string). set (a2 := ["A"; "B"; "Q"]%string).
  assert (Hzs : set_and a2 g ≡ₚ ["A"; "B"]%string).
  { apply set_and_Permutation; [compute_done |]. intros x. split.
    - intros Hx. split.
      + unfold a2. rewrite !elem_of_cons in *. tauto.
      + unfold g. rewrite !elem_of_cons in *. tauto.
    - intros [Ha Hg]. unfold a2 in Ha.
      apply elem_of_cons in Ha as [-> | Ha]; [by left |].
      apply elem_of_cons in Ha as [-> | Ha]; [right; by left |].
      apply list_elem_of_singleton in Ha as ->.
      exfalso. revert Hg. compute_done. }
  unfold run, _find_best_matches. cbn [_hash_credentials_data Py.foldM].
  rewrite !match_candidate_single.
  rewrite (overlap_none a1 g).
  2:{ intros x Hx. unfold a1 in Hx.
      repeat (apply elem_of_cons in Hx as [-> | Hx]; [compute_done |]).
      by apply elem_of_nil in Hx. }
  rewrite (overlap_filter a2 g) by compute_done.
  change (length (filter (λ x, x ∈ g) a2)) with 2%nat.
  change (bool_decide (0 < 0)%nat && (2 <=? Z.of_nat 0)) with false.
  change (bool_decide (0 < 2)%nat && (2 <=? Z.of_nat 2)) with true.
  cbv iota. cbn [Py.bind Py.ok app].
  set (self := {| _credentials_data := [plain];
                  _hash_credentials_data := [g] |}).
  assert (Hres : resolve self [0%nat] 0 (set_and a2 g ≫= positions_of g)
                 = Py.ok (plain_of g plain <$> set_and a2 g, set_and a2 g)).
  { apply (resolve_tokens self 0 plain g); try done.
    - compute_done.
    - intros z Hz. apply set_and_elem in Hz. tauto. }
  rewrite (output_single self [a1; a2] a1 0%nat plain _ _ _
             eq_refl eq_refl Hres).
  cbn [Py.bind Py.ok fst].
  eexists. split; [done |]. cbn [matches_list unmatches_list other_candidate].
  split; [| split; [| done]].
  - rewrite Hzs. done.
  - symmetry in Hzs.
    apply Permutation_length_2_inv in Hzs as [-> | ->]; reflexivity.
Qed.

End CredentialConnectingClaims.


(** * Further properties of the code *)

(** ** Dictionaries: entries *)

Section dict_entries.
Context {K V : Type} `{EqDecision K}.
Implicit Types (d : Py.dict K V) (k : K) (v : V).

Lemma elem_of_dict_set k v d (kv : K * V) :
  kv ∈ Py.set k v d -> kv = (k, v) \/ kv ∈ d.
Proof.
  induction d as [| [k' v'] d IH]; simpl.
  - intros ->%list_elem_of_singleton. by left.
  - destruct (decide (k = k')) as [-> | Hne].
    + intros [-> | Hin]%elem_of_cons; [by left | right; by right].
    + intros [-> | Hin]%elem_of_cons; [right; by left |].
      destruct (IH Hin) as [-> | Hd]; [by left | right; by right].
Qed.

Lemma dict_set_NoDup k v d :
  NoDup (Py.keys d) -> NoDup (Py.keys (Py.set k v d)).
Proof.
  intros Hnd. destruct (decide (k ∈ Py.keys d)) as [Hin | Hnin].
  - by rewrite keys_set_present.
  - rewrite keys_set_absent by done. apply NoDup_app.
    split; [done |]. split; [| apply NoDup_singleton].
    by intros k' Hk ->%list_elem_of_singleton.
Qed.

Lemma get_Some_elem k v d : Py.get k d = Some v -> (k, v) ∈ d.
Proof.
  induction d as [| [k' v'] d IH]; simpl; [done |].
  destruct (decide (k = k')) as [-> | Hne].
  - intros [= ->]. by left.
  - intros Hg. right. by apply IH.
Qed.

Lemma keys_filter_NoDup (P : K * V -> Prop) `{!forall x, Decision (P x)} d :
  NoDup (Py.keys d) -> NoDup (Py.keys (filter P d)).
Proof.
  unfold Py.keys. intros Hnd.
  eapply sublist_NoDup; [exact Hnd |].
  apply fmap_sublist, sublist_filter.
Qed.
End dict_entries.

(** ** The tracker over a whole stream *)

Module LIdentifyingExtra.
Import LIdentifying LIdentifyingInv LIdentifyingFacts.

Lemma bind_ok_r {A} (m : Py.result A) : (x <- m ;; Py.ok x) = m.
Proof. by destruct m. Qed.

Lemma feed_app self xs : forall ys,
  feed self (xs ++ ys) = (s <- feed self xs ;; feed s ys).
Proof.
  revert self. induction xs as [| x xs IH]; intros self ys; simpl; [done |].
  destruct (process self x) as [e | s]; simpl; [done | apply IH].
Qed.

Lemma feed_snoc self xs q :
  feed self (xs ++ [q]) = (s <- feed self xs ;; process s q).
Proof.
  rewrite feed_app. destruct (feed self xs) as [e | s]; simpl; [done |].
  apply bind_ok_r.
Qed.

(** What [process] does to the fields other than the table. *)
Lemma process_fields self q self' :
  process self q = Py.ok self' ->
  _l self' = _l self
  /\ _prune_threshold self' = _prune_threshold self
  /\ _prune_interval self' = _prune_interval self
  /\ _query_count self' = _query_count self + 1
  /\ _current_window self' = _current_window (advance self q).
Proof.
  intros Hp.
  destruct (decide (_prune_interval self = 0)) as [Hz | Hnz].
  { rewrite process_zero_interval in Hp by done. discriminate. }
  rewrite process_advance in Hp by done.
  destruct ((_query_count self + 1) `mod` _prune_interval self =? 0);
    by injection Hp as <-.
Qed.

Lemma tail_drop {A} (l : list A) : forall k, tail (drop k l) = drop (S k) l.
Proof.
  induction l as [| x l IH]; intros [| k]; simpl; done.
Qed.

(** The buffer of [advance] is the buffer of most recent tokens. *)
Lemma advance_window self q (stream : list token) :
  0 <= _l self ->
  _current_window self
  = drop (length stream - Z.to_nat (_l self)) stream ->
  _current_window (advance self q)
  = drop (length (stream ++ [q]) - Z.to_nat (_l self)) (stream ++ [q]).
Proof.
  intros Hl Hw. unfold advance. cbn [_current_window].
  rewrite Hw. unfold Py.len.
  rewrite !length_app, length_drop. cbn [length].
  destruct (_l self <?
            Z.of_nat (length stream - (length stream - Z.to_nat (_l self)) + 1))
    eqn:Hlt.
  - apply Z.ltb_lt in Hlt.
    assert (Hge : (Z.to_nat (_l self) <= length stream)%nat) by lia.
    rewrite <- drop_app_le by (rewrite ?length_app; lia).
    rewrite tail_drop. f_equal. lia.
  - apply Z.ltb_ge in Hlt.
    replace (length stream - Z.to_nat (_l self))%nat with 0%nat by lia.
    replace (length stream + 1 - Z.to_nat (_l self))%nat with 0%nat by lia.
    by rewrite !drop_0.
Qed.

(** X2. Fed to a fresh tracker with a window length [l >= 0] and a
    non-zero pruning interval, every stream is processed without an
    exception, and the buffer then holds the most recent tokens of the
    stream: all of them while fewer than [l] have arrived, the last [l]
    afterwards.  The buffer never ends a call with more than [l] tokens. *)
Theorem buffer_holds_latest_tokens (l thr int : Z) (stream : list token) :
  0 <= l ->
  int ≠ 0 ->
  exists self,
    feed (init l thr int) stream = Py.ok self
    /\ _current_window self = drop (length stream - Z.to_nat l) stream
    /\ Py.len (_current_window self) <= l.
Proof.
  intros Hl Hi.
  assert (Hmain : exists self,
    feed (init l thr int) stream = Py.ok self
    /\ _current_window self = drop (length stream - Z.to_nat l) stream
    /\ _l self = l /\ _prune_interval self = int).
  { induction stream as [| q stream IH] using rev_ind.
    - exists (init l thr int). by rewrite drop_nil.
    - destruct IH as (s & Hf & Hw & Hls & His).
      rewrite feed_snoc, Hf. cbn [Py.bind Py.ok].
      assert (Hnz : _prune_interval s ≠ 0) by by rewrite His.
      rewrite (process_advance s q Hnz). eexists. split; [done |].
      assert (Hadv : _current_window (advance s q)
                = drop (length (stream ++ [q]) - Z.to_nat l) (stream ++ [q])).
      { rewrite <- Hls. apply advance_window; by rewrite Hls. }
      destruct ((_query_count s + 1) `mod` _prune_interval s =? 0); by simpl. }
  destruct Hmain as (s & Hf & Hw & _). exists s. split; [done |].
  split; [done |]. rewrite Hw. unfold Py.len. rewrite length_drop. lia.
Qed.

Lemma buffer_holds_latest_tokens_witness :
  exists self,
    feed (init 2 1 100) ["a"; "b"; "c"]%string = Py.ok self
    /\ _current_window self = ["b"; "c"]%string
    /\ Py.len (_current_window self) <= 2.
Proof.
  apply (buffer_holds_latest_tokens 2 1 100 ["a"; "b"; "c"]%string);
    [by vm_compute | by vm_compute].
Defined.

(** X1. [process] raises exactly when the pruning interval is zero, and
    then it is the [ZeroDivisionError] of the modulo test; neither the
    [+=] on the signature table nor the [pop(0)] on the buffer can fail,
    whatever the state of the tracker. *)
Theorem process_raises_only_on_zero_interval (self : LIdentifyingAttack)
    (q : token) :
  (_prune_interval self = 0
   /\ process self q = Py.raise Py.ZeroDivisionError)
  \/ (_prune_interval self ≠ 0 /\ exists self', process self q = Py.ok self').
Proof.
  destruct (decide (_prune_interval self = 0)) as [Hz | Hnz].
  - left. split; [done |]. by apply process_zero_interval.
  - right. split; [done |]. eexists. by apply process_advance.
Qed.

(** *** The newest token is counted one call late *)

Lemma slice_prefix {A} (w : list A) (q : A) :
  Py.slice (w ++ [q]) 0 (Py.len w) = w.
Proof.
  unfold Py.slice, Py.clamp, Py.len. rewrite length_app. cbn [length].
  change (0 <? 0) with false. cbv iota.
  destruct (Z.of_nat (length w) <? 0) eqn:Hneg;
    [apply Z.ltb_lt in Hneg; lia |].
  rewrite Z.min_l, Z.min_l by lia.
  rewrite Z.sub_0_r, Nat2Z.id. change (Z.to_nat 0) with 0%nat.
  rewrite drop_0. apply take_app_length.
Qed.

Lemma stale_signature l (w : list token) q :
  Py.len w = l -> window_signature l (w ++ [q]) = sorted w.
Proof. intros <-. unfold window_signature. by rewrite slice_prefix. Qed.

Lemma full_signature l (w : list token) :
  Py.len w = l -> window_signature l w = sorted w.
Proof. intros <-. unfold window_signature. by rewrite slice_all. Qed.

Lemma small_mod a int : 0 < a < int -> a `mod` int ≠ 0.
Proof. intros Ha. rewrite Z.mod_small; lia. Qed.

(** While fewer than [l] tokens have arrived, nothing is counted. *)
Lemma feed_fill l thr int (xs : list token) :
  Py.len xs < l -> Py.len xs < int ->
  feed (init l thr int) xs
  = Py.ok {| _query_dict := [];
             _current_window := xs;
             _query_count := Py.len xs;
             _l := l;
             _prune_threshold := thr;
             _prune_interval := int |}.
Proof.
  induction xs as [| q xs IH] using rev_ind; intros Hl Hi; [done |].
  unfold Py.len in Hl, Hi. rewrite length_app in Hl, Hi. cbn [length] in Hl, Hi.
  rewrite feed_snoc, IH by (unfold Py.len; lia). cbn [Py.bind Py.ok].
  rewrite process_no_prune; cbn [_prune_interval _query_count];
    [| lia | apply small_mod; unfold Py.len; lia].
  unfold advance. cbn [_query_dict _current_window _query_count _l
                       _prune_threshold _prune_interval].
  assert (Hlen : Py.len (xs ++ [q]) = Py.len xs + 1).
  { unfold Py.len. rewrite length_app. cbn [length]. lia. }
  rewrite Hlen.
  destruct (l <=? Py.len xs + 1) eqn:Hle;
    [apply Z.leb_le in Hle; unfold Py.len in Hle; lia |].
  destruct (l <? Py.len xs + 1) eqn:Hlt;
    [apply Z.ltb_lt in Hlt; unfold Py.len in Hlt; lia |].
  done.
Qed.

(** X3. The signature counted by a call is taken from the first [l]
    tokens of the buffer, and the token just received is the last of up to
    [l + 1]: on a fresh tracker the first full window is counted twice, by
    the call that completes it and by the next one, whatever token that
    next call brings, and the window that ends with that token is not
    counted. *)
Theorem first_window_counted_twice (l thr int : Z) (w : list token)
    (q : token) :
  1 <= l ->
  Py.len w = l ->
  l + 1 < int ->
  exists self,
    feed (init l thr int) (w ++ [q]) = Py.ok self
    /\ get_result self = [(sorted w, 2)].
Proof.
  intros Hl Hw Hi.
  destruct w as [| x w0 _] using rev_ind; [unfold Py.len in Hw; simpl in Hw; lia |].
  assert (Hlen : Py.len (w0 ++ [x]) = Py.len w0 + 1).
  { unfold Py.len. rewrite length_app. cbn [length]. lia. }
  rewrite !feed_snoc, feed_fill by lia. cbn [Py.bind Py.ok].
  rewrite process_no_prune; cbn [_prune_interval _query_count];
    [| lia | apply small_mod; lia].
  cbn [Py.bind Py.ok].
  rewrite process_no_prune;
    [| unfold advance; cbn [_prune_interval]; lia
     | unfold advance; cbn [_prune_interval _query_count];
       apply small_mod; lia].
  eexists. split; [done |].
  unfold get_result, advance.
  cbn [_query_dict _current_window _query_count _l].
  rewrite Hw.
  assert (Hle : (l <=? l) = true) by (apply Z.leb_le; lia).
  assert (Hlt : (l <? l) = false) by (apply Z.ltb_ge; lia).
  rewrite Hle, Hlt.
  assert (Hlen2 : Py.len ((w0 ++ [x]) ++ [q]) = l + 1).
  { unfold Py.len in *. rewrite length_app. cbn [length]. lia. }
  rewrite Hlen2.
  assert (Hle2 : (l <=? l + 1) = true) by (apply Z.leb_le; lia).
  rewrite Hle2.
  rewrite (full_signature l (w0 ++ [x])) by done.
  rewrite (stale_signature l (w0 ++ [x]) q) by done.
  by rewrite bump_fresh, bump_head.
Qed.

Lemma first_window_counted_twice_witness :
  exists self,
    feed (init 2 1 100) (["a"; "b"]%string ++ ["c"%string]) = Py.ok self
    /\ get_result self = [(sorted ["a"; "b"]%string, 2)].
Proof.
  apply (first_window_counted_twice 2 1 100 ["a"; "b"]%string "c"%string);
    by vm_compute.
Defined.

(** *** The signature table of a reachable tracker *)

Lemma slice_prefix_length {A} (w : list A) l :
  0 <= l <= Py.len w -> Py.len (Py.slice w 0 l) = l.
Proof.
  intros Hl. unfold Py.slice, Py.clamp, Py.len in *.
  change (0 <? 0) with false. cbv iota.
  destruct (l <? 0) eqn:Hneg; [apply Z.ltb_lt in Hneg; lia |].
  rewrite !Z.min_l by lia. rewrite Z.sub_0_r.
  change (Z.to_nat 0) with 0%nat. rewrite drop_0, length_take. lia.
Qed.

Lemma bump_well_formed l s d :
  Sorted token_le s -> Py.len s = l ->
  well_formed l d -> well_formed l (bump s d).
Proof.
  intros Hs Hlen [Hnd Hall].
  assert (Hset : forall c, 1 <= c -> well_formed l (Py.set s c d)).
  { intros c Hc. split; [by apply dict_set_NoDup |].
    apply Forall_forall. intros e [-> | He]%elem_of_dict_set; [done |].
    by apply (proj1 (Forall_forall _ _) Hall). }
  unfold bump. destruct (Py.get s d) as [c |] eqn:Hg; [| by apply Hset].
  apply Hset. apply get_Some_elem in Hg.
  apply (proj1 (Forall_forall _ _) Hall) in Hg. simpl in Hg. lia.
Qed.

Lemma filter_well_formed l (P : signature * Z -> Prop)
    `{!forall x, Decision (P x)} d :
  well_formed l d -> well_formed l (filter P d).
Proof.
  intros [Hnd Hall]. split; [by apply keys_filter_NoDup |].
  apply Forall_forall. intros e [_ He]%list_elem_of_filter.
  by apply (proj1 (Forall_forall _ _) Hall).
Qed.

Lemma advance_well_formed self q :
  0 <= _l self ->
  well_formed (_l self) (_query_dict self) ->
  well_formed (_l self) (_query_dict (advance self q)).
Proof.
  intros Hl Hwf. unfold advance. cbn [_query_dict].
  destruct (_l self <=? Py.len (_current_window self ++ [q])) eqn:Hle;
    [| done].
  apply Z.leb_le in Hle. apply bump_well_formed; [apply sorted_Sorted | | done].
  unfold window_signature, Py.len. rewrite sorted_length.
  by apply slice_prefix_length.
Qed.

(** A property that [advance] and [_prune] preserve holds after every
    stream, and every stream is processed. *)
Lemma feed_preserves (P : LIdentifyingAttack -> Prop) :
  (forall s q, P s -> P (advance s q)) ->
  (forall s, P s -> P (_prune s)) ->
  forall xs self,
    _prune_interval self ≠ 0 -> P self ->
    exists self', feed self xs = Py.ok self' /\ P self'.
Proof.
  intros Hadv Hprune xs.
  induction xs as [| q xs IH]; intros self Hi HP; [by exists self |].
  cbn [feed]. rewrite process_advance by done. cbn [Py.bind Py.ok].
  destruct ((_query_count self + 1) `mod` _prune_interval self =? 0);
    apply IH; auto.
Qed.

(** X4. On a fresh tracker with window length [l >= 0] and non-zero
    interval, after any stream the signature table is well formed: no
    signature is listed twice, every signature is an ascending tuple of
    exactly [l] tokens, and every count is at least 1. *)
Theorem table_well_formed (l thr int : Z) (stream : list token) :
  0 <= l ->
  int ≠ 0 ->
  exists self,
    feed (init l thr int) stream = Py.ok self
    /\ well_formed l (get_result self).
Proof.
  intros Hl Hi.
  destruct (feed_preserves
              (λ s, _l s = l /\ well_formed l (_query_dict s)))
    with (xs := stream) (self := init l thr int)
    as (s & Hf & _ & Hwf).
  - intros s q [Hls Hwf]. split; [done |].
    rewrite <- Hls. apply advance_well_formed; by rewrite Hls.
  - intros s [Hls Hwf]. split; [done |]. by apply filter_well_formed.
  - done.
  - split; [done |]. split; [apply NoDup_nil_2 | apply Forall_nil_2].
  - by exists s.
Qed.

Lemma table_well_formed_witness :
  exists self,
    feed (init 2 1 100) ["a"; "b"; "a"; "b"]%string = Py.ok self
    /\ well_formed 2 (get_result self).
Proof.
  apply (table_well_formed 2 1 100 ["a"; "b"; "a"; "b"]%string);
    by vm_compute.
Defined.

(** *** Counting without pruning *)

Lemma total_count_set s (v : Z) d :
  total_count (Py.set s v d)
  = total_count d - default 0 (Py.get s d) + v.
Proof.
  induction d as [| [k c] d IH]; cbn [Py.set Py.get total_count foldr].
  - simpl. lia.
  - destruct (decide (s = k)) as [-> | Hne]; cbn [total_count foldr snd].
    + simpl. lia.
    + fold (total_count (Py.set s v d)). fold (total_count d).
      rewrite IH. lia.
Qed.

Lemma total_count_bump s d : total_count (bump s d) = total_count d + 1.
Proof.
  unfold bump. destruct (Py.get s d) as [c |] eqn:Hg;
    rewrite total_count_set, Hg; simpl; lia.
Qed.

(** X5. While no pruning pass has run (fewer tokens than the interval), a
    fresh tracker with window length [l >= 1] has counted one signature
    for every token from the [l]-th on: the counts of the table add up to
    [n - l + 1] after [n >= l] tokens, and the table is empty before. *)
Theorem counts_add_up (l thr int : Z) (stream : list token) :
  1 <= l ->
  Py.len stream < int ->
  exists self,
    feed (init l thr int) stream = Py.ok self
    /\ total_count (get_result self) = Z.max 0 (Py.len stream - l + 1).
Proof.
  intros Hl.
  assert (Hmain : Py.len stream < int -> exists self,
    feed (init l thr int) stream = Py.ok self
    /\ total_count (_query_dict self) = Z.max 0 (Py.len stream - l + 1)
    /\ _current_window self = drop (length stream - Z.to_nat l) stream
    /\ _query_count self = Py.len stream
    /\ _l self = l /\ _prune_interval self = int).
  { induction stream as [| q stream IH] using rev_ind; intros Hi.
    - exists (init l thr int). repeat split; try done.
      unfold Py.len. simpl. lia.
    - assert (Hlen : Py.len (stream ++ [q]) = Py.len stream + 1).
      { unfold Py.len. rewrite length_app. cbn [length]. lia. }
      rewrite Hlen in Hi.
      destruct IH as (s & Hf & Ht & Hw & Hc & Hls & His); [lia |].
      assert (0 <= Py.len stream) by (unfold Py.len; lia).
      rewrite feed_snoc, Hf. cbn [Py.bind Py.ok].
      rewrite process_no_prune;
        [| rewrite His; lia | rewrite His, Hc; apply small_mod; lia].
      eexists. split; [done |].
      split; [| split; [| by rewrite Hlen, <- Hc]].
      + unfold advance. cbn [_query_dict]. rewrite Hw, Hls, Hlen.
        assert (Hwl : Py.len (drop (length stream - Z.to_nat l) stream ++ [q])
                      = Z.min (Py.len stream) l + 1).
        { unfold Py.len. rewrite length_app, length_drop. cbn [length]. lia. }
        rewrite Hwl.
        destruct (l <=? Z.min (Py.len stream) l + 1) eqn:Hle.
        * apply Z.leb_le in Hle. rewrite total_count_bump, Ht. lia.
        * apply Z.leb_gt in Hle. rewrite Ht. lia.
      + rewrite <- Hls. apply advance_window; [lia | by rewrite Hls]. }
  intros Hi. destruct (Hmain Hi) as (s & Hf & Ht & _). by exists s.
Qed.

Lemma counts_add_up_witness :
  exists self,
    feed (init 3 2 100) ["a"; "b"; "c"; "a"; "b"]%string = Py.ok self
    /\ total_count (get_result self) = 3.
Proof.
  apply (counts_add_up 3 2 100 ["a"; "b"; "c"; "a"; "b"]%string);
    by vm_compute.
Defined.

End LIdentifyingExtra.

(** ** The combiner over a sequence of loads *)

Module RangeCombiningExtra.
Import RangeCombining RangeCombiningInv RangeCombiningFacts.
Implicit Types (d t : Py.dict signature Z) (ts : list (Py.dict signature Z)).
Implicit Types (ls : list Z) (q l : Z).
Implicit Types (es : list (Z * Py.dict signature Z)).

Lemma elem_of_range n i : i ∈ Py.range n <-> 0 <= i < n.
Proof.
  unfold Py.range. rewrite list_elem_of_fmap. split.
  - intros (j & -> & Hj%elem_of_seq). lia.
  - intros Hi. exists (Z.to_nat i). split; [lia |].
    apply elem_of_seq. lia.
Qed.

Lemma elem_of_removed_keys width n src (s : signature) :
  s ∈ removed_keys width n src
  <-> exists k i,
        k ∈ Py.keys src /\ 0 <= i < n /\ s = Py.slice k i (i + width).
Proof.
  unfold removed_keys. rewrite list_elem_of_bind. split.
  - intros (k & Hs & Hk). apply list_elem_of_fmap in Hs as (i & -> & Hi).
    exists k, i. by rewrite <- elem_of_range.
  - intros (k & i & Hk & Hi & ->). exists k. split; [| done].
    apply list_elem_of_fmap. exists i. by rewrite elem_of_range.
Qed.

Lemma elem_of_incoming_removed q es (s : signature) :
  s ∈ incoming_removed q es
  <-> exists e, e ∈ es /\ q < e.1 /\ s ∈ removed_keys q (e.1 - q) e.2.
Proof.
  unfold incoming_removed. rewrite list_elem_of_bind. split.
  - intros (e & Hs & He). exists e. split; [done |].
    destruct (q <? e.1) eqn:Hlt; [| by apply elem_of_nil in Hs].
    split; [lia | done].
  - intros (e & He & Hlt & Hs). exists e. split; [| done].
    by assert ((q <? e.1) = true) as -> by lia.
Qed.

(** The incoming table, once loaded, is pruned against every stored table
    of greater length. *)
Lemma incoming_after_pruned q es d e :
  e ∈ es -> q < e.1 ->
  pruned_against q (incoming_after q es d) e.1 e.2.
Proof.
  intros He Hlt k i Hk Hi. rewrite incoming_after_filter.
  unfold Py.keys. rewrite list_elem_of_fmap.
  intros (kv & Hkv & [Hout _]%list_elem_of_filter). apply Hout.
  rewrite <- Hkv. apply elem_of_incoming_removed. exists e.
  split; [done |]. split; [done |].
  apply elem_of_removed_keys. by exists k, i.
Qed.

Lemma stored_step_sublist q d (e : Z * Py.dict signature Z) :
  stored_step q d e `sublist_of` e.2.
Proof.
  unfold stored_step. destruct (e.1 <? q); [| done].
  rewrite prune_by_filter. apply sublist_filter.
Qed.

Lemma keys_sublist (t t' : Py.dict signature Z) (k : signature) :
  t' `sublist_of` t -> k ∈ Py.keys t' -> k ∈ Py.keys t.
Proof.
  intros Hsub. unfold Py.keys. rewrite !list_elem_of_fmap.
  intros (kv & -> & Hin). exists kv. split; [done |].
  by eapply elem_of_sublist.
Qed.

Lemma derived_mono q d es es' e' :
  (forall e, e ∈ es -> e ∈ es') -> derived q d es e' -> derived q d es' e'.
Proof. intros Hsub (t & Hin & Hrest). exists t. split; [by apply Hsub | done]. Qed.

(** Every entry that the loop leaves stems from the entry it visited. *)
Lemma settle_derived q es : forall d d2 e',
  (forall k, k ∈ Py.keys d2 -> k ∈ Py.keys (incoming_after q es d)) ->
  e' ∈ settle q es d -> derived q d2 es e'.
Proof.
  induction es as [| [l t] es IH]; intros d d2 e' Hsub Hin.
  - by apply elem_of_nil in Hin.
  - simpl settle in Hin. apply elem_of_cons in Hin as [-> | Hin].
    + exists t. cbn [fst snd]. split; [by left |].
      split; [apply (stored_step_sublist q d (l, t)) |]. split.
      * intros Hlt. unfold stored_step. cbn [fst snd].
        by assert ((l <? q) = false) as -> by lia.
      * intros Hlt k i Hk Hi. unfold stored_step. cbn [fst snd].
        assert ((l <? q) = true) as -> by lia.
        rewrite elem_of_keys_prune_by. intros [_ Hout]. apply Hout.
        apply elem_of_removed_keys. exists k, i. split; [| done].
        by eapply incoming_after_keys_sub, Hsub.
    + eapply derived_mono; [| by eapply (IH (incoming_step q d (l, t)))].
      intros e He. by right.
Qed.

Lemma above_derived q d es e :
  e ∈ es -> q < e.1 -> derived q d es e.
Proof.
  intros He Hlt. exists e.2. split; [by destruct e |].
  split; [done |]. split; [done | lia].
Qed.

Lemma incoming_after_split q es1 (e : Z * Py.dict signature Z) es2 d :
  e.1 <= q ->
  incoming_after q (es1 ++ e :: es2) d
  = incoming_after q es2 (incoming_after q es1 d).
Proof.
  intros Hle. rewrite incoming_after_app. destruct e as [l t].
  by rewrite incoming_after_cons_le.
Qed.

(** The shape of every successful load.  The caller's dictionary ends as
    [incoming_after]; the stored entries are the derived old entries and
    one entry of the loaded length, which holds either the pruned incoming
    table, or the old table of that length updated by it. *)
Lemma load_shape es d q r :
  load_l_identifying_result (of_entries es) d q = Py.ok r ->
  exists es' x,
    r = (of_entries es', incoming_after q es d)
    /\ (q, x) ∈ es'
    /\ (x = incoming_after q es d
        \/ exists t, (q, t) ∈ es
                     /\ x = Py.update t (incoming_after q es d))
    /\ (forall e', e' ∈ es' ->
          e' = (q, x) \/ derived q (incoming_after q es d) es e')
    /\ lengths_after q es.*1 es'.*1.
Proof.
  intros Hload.
  destruct (decide (es = [])) as [-> | Hne].
  { rewrite load_fresh in Hload. injection Hload as <-.
    exists [(q, d)], d. split; [done |]. split; [by left |].
    split; [by left |]. split.
    - intros e' ->%list_elem_of_singleton. by left.
    - by left. }
  destruct (split_at_anchor q es)
    as [Hall | (es1 & [l t] & es2 & -> & Hle & Hall)].
  { rewrite load_below in Hload by done. discriminate. }
  cbn [fst] in Hle.
  set (d2 := incoming_after q (es1 ++ (l, t) :: es2) d).
  assert (Hd2 : incoming_after q es2 (incoming_after q es1 d) = d2).
  { unfold d2. by rewrite (incoming_after_split q es1 (l, t) es2). }
  assert (Hold : forall pre e',
            (forall e, e ∈ pre -> e ∈ es1 ++ (l, t) :: es2) ->
            (forall k, k ∈ Py.keys d2 ->
                       k ∈ Py.keys (incoming_after q pre d)) ->
            e' ∈ settle q pre d ++ es2 ->
            derived q d2 (es1 ++ (l, t) :: es2) e').
  { intros pre e' Hpre Hsub [Hin | Hin]%elem_of_app.
    - eapply derived_mono; [exact Hpre |]. by eapply settle_derived.
    - apply above_derived.
      + apply elem_of_app. right. by right.
      + by apply (proj1 (Forall_forall _ _) Hall). }
  destruct (decide (l = q)) as [-> | Hlq].
  - rewrite load_merge in Hload by done. cbv zeta in Hload.
    rewrite Hd2 in Hload. injection Hload as <-.
    exists (settle q es1 d ++ (q, Py.update t d2) :: es2), (Py.update t d2).
    split; [done |]. split; [apply elem_of_app; right; by left |].
    split; [right; exists t; split; [| done];
            apply elem_of_app; right; by left |].
    split.
    + intros e' [Hin | [-> | Hin]%elem_of_cons]%elem_of_app; [| by left |];
        right; apply (Hold es1).
      * intros e He. apply elem_of_app. by left.
      * intros k Hk. rewrite <- Hd2 in Hk.
        by eapply incoming_after_keys_sub.
      * apply elem_of_app. by left.
      * intros e He. apply elem_of_app. by left.
      * intros k Hk. rewrite <- Hd2 in Hk.
        by eapply incoming_after_keys_sub.
      * apply elem_of_app. by right.
    + right. right. rewrite !fmap_app, !fmap_cons, settle_fst. cbn [fst].
      split; [done |]. apply elem_of_app. right. by left.
  - rewrite load_insert in Hload by (done || lia). cbv zeta in Hload.
    rewrite Hd2 in Hload. injection Hload as <-.
    assert (Hpre : settle q es1 d
                     ++ (l, prune_by l (q - l) (incoming_after q es1 d) t)
                     :: (q, d2) :: es2
                   = settle q (es1 ++ [(l, t)]) d ++ (q, d2) :: es2).
    { rewrite settle_app, settle_cons_lt by lia. by rewrite <- app_assoc. }
    rewrite Hpre.
    exists (settle q (es1 ++ [(l, t)]) d ++ (q, d2) :: es2), d2.
    split; [done |]. split; [apply elem_of_app; right; by left |].
    split; [by left |].
    assert (Hin1 : forall e, e ∈ es1 ++ [(l, t)] -> e ∈ es1 ++ (l, t) :: es2).
    { intros e [He | ->%list_elem_of_singleton]%elem_of_app;
        apply elem_of_app; [by left | right; by left]. }
    assert (Hsub1 : forall k, k ∈ Py.keys d2 ->
                      k ∈ Py.keys (incoming_after q (es1 ++ [(l, t)]) d)).
    { intros k Hk. rewrite <- Hd2 in Hk.
      rewrite (incoming_after_split q es1 (l, t) []) by done.
      unfold incoming_after at 1. cbn [foldl].
      by eapply incoming_after_keys_sub. }
    split.
    + intros e' [Hin | [-> | Hin]%elem_of_cons]%elem_of_app; [| by left |];
        right; apply (Hold (es1 ++ [(l, t)])); try done;
        apply elem_of_app; [by left | by right].
    + right. left. exists es1.*1, l, es2.*1.
      rewrite !fmap_app, !fmap_cons, settle_fst, fmap_app. cbn [fst fmap list_fmap].
      rewrite <- app_assoc. split; [done |]. split; [lia |].
      split; [by apply Forall_fmap | done].
Qed.

Lemma load_succeeds es d q :
  es = [] \/ Exists (λ e, e.1 <= q) es ->
  exists r, load_l_identifying_result (of_entries es) d q = Py.ok r.
Proof.
  intros Hes. destruct (decide (es = [])) as [-> | Hne].
  { eexists. apply load_fresh. }
  destruct Hes as [-> | Hex]; [done |].
  destruct (split_at_anchor q es)
    as [Hall | (es1 & [l t] & es2 & -> & Hle & Hall)].
  { apply Exists_exists in Hex as (e & He & Hle).
    apply (proj1 (Forall_forall _ _) Hall) in He. lia. }
  cbn [fst] in Hle. destruct (decide (l = q)) as [-> | Hlq].
  - eexists. by apply load_merge.
  - eexists. apply load_insert; [lia | done].
Qed.

(** X6. On a combiner whose two lists are in step, a load either is
    rejected with [ValueError], which happens exactly when tables are
    stored and all of them have a length above the loaded one, or it
    succeeds; no lookup of the loop is ever out of range.  After a
    successful load the lists are in step again and the loaded length is
    recorded. *)
Theorem load_raises_only_below (self : RangeCombiningAttack) d q :
  aligned self ->
  (load_l_identifying_result self d q = Py.raise Py.ValueError
   /\ _lengths_processed self ≠ []
   /\ Forall (λ l, q < l) (_lengths_processed self))
  \/ (exists r,
        load_l_identifying_result self d q = Py.ok r
        /\ aligned r.1
        /\ q ∈ _lengths_processed r.1
        /\ (_lengths_processed self = []
            \/ Exists (λ l, l <= q) (_lengths_processed self))).
Proof.
  intros Hal. rewrite (aligned_of_entries self Hal).
  cbn [of_entries _lengths_processed].
  destruct (decide (entries self = [])) as [Hnil | Hne].
  - right. rewrite Hnil. eexists. split; [apply load_fresh |].
    split; [apply of_entries_aligned |]. split; [by left | by left].
  - destruct (decide (Forall (λ e, q < e.1) (entries self))) as [Hall | Hex].
    + left. split; [by apply load_below |]. split.
      * by destruct (entries self).
      * by apply Forall_fmap.
    + apply not_Forall_Exists in Hex; [| apply _].
      assert (Hex' : Exists (λ e, e.1 <= q) (entries self)).
      { eapply Exists_impl; [exact Hex |]. intros e He. simpl in He. lia. }
      right. destruct (load_succeeds (entries self) d q) as [r Hr];
        [by right |].
      exists r. split; [done |].
      split; [eapply load_keeps_aligned; [apply of_entries_aligned | done] |].
      split.
      * apply load_shape in Hr as (es' & x & -> & Hx & _).
        cbn [fst of_entries _lengths_processed].
        by apply (list_elem_of_fmap_2 fst _ (q, x)).
      * right. apply Exists_fmap.
        eapply Exists_impl; [exact Hex' |]. done.
Qed.

Lemma load_raises_only_below_witness :
  load_l_identifying_result
    (of_entries [(3, [(["a"; "b"; "c"]%string, 2)])])
    [(["a"; "b"]%string, 2)] 2
  = Py.raise Py.ValueError
  /\ aligned (of_entries [(3, [(["a"; "b"; "c"]%string, 2)])]).
Proof.
  split; [| reflexivity].
  destruct (load_raises_only_below
              (of_entries [(3, [(["a"; "b"; "c"]%string, 2)])])
              [(["a"; "b"]%string, 2)] 2) as [(Hr & _) | (r & Hr & _)].
  - reflexivity.
  - exact Hr.
  - vm_compute in Hr. discriminate Hr.
Defined.

(** *** The recorded lengths *)

Lemma lengths_after_sorted q ls ls' :
  lengths_after q ls ls' ->
  StronglySorted Z.lt ls ->
  StronglySorted Z.lt ls' /\ forall m, m ∈ ls' <-> m = q \/ m ∈ ls.
Proof.
  intros [[-> ->] | [(pre & l & post & -> & Hl & Hpost & ->) | [-> Hq]]] Hs.
  - split.
    + apply SSorted_cons; [constructor | constructor].
    + intros m. rewrite list_elem_of_singleton, elem_of_nil. tauto.
  - apply StronglySorted_app in Hs as (Hcross & Hpre & Hrest).
    apply StronglySorted_cons in Hrest as [Hl' Hrest].
    split.
    + apply StronglySorted_app.
      split; [| split; [done |]].
      * intros x1 x2 Hx1 [-> | [-> | Hx2]%elem_of_cons]%elem_of_cons.
        -- apply Hcross; [done | by left].
        -- assert (x1 < l) by (apply Hcross; [done | by left]). lia.
        -- apply Hcross; [done | by right].
      * apply SSorted_cons.
        -- by apply SSorted_cons.
        -- constructor; [done | done].
    + intros m. rewrite !elem_of_app, !elem_of_cons. tauto.
  - split; [done |]. intros m. split; [by right |].
    by intros [-> | Hm].
Qed.

Lemma load_all_preserves (P : RangeCombiningAttack -> Prop) :
  (forall self d q r,
     aligned self -> P self ->
     load_l_identifying_result self d q = Py.ok r -> P r.1) ->
  forall calls self self',
    aligned self -> P self -> load_all self calls = Py.ok self' -> P self'.
Proof.
  intros Hstep calls.
  induction calls as [| [d q] calls IH]; intros self self' Hal HP Hrun.
  - by injection Hrun as <-.
  - cbn [load_all] in Hrun.
    destruct (load_l_identifying_result self d q) as [e | r] eqn:Hload;
      [done |].
    cbn [Py.bind] in Hrun. eapply IH; [| | exact Hrun].
    + by eapply load_keeps_aligned.
    + by eapply Hstep.
Qed.

Lemma load_lengths self d q r :
  aligned self ->
  load_l_identifying_result self d q = Py.ok r ->
  lengths_after q (_lengths_processed self) (_lengths_processed r.1).
Proof.
  intros Hal Hload. rewrite (aligned_of_entries self Hal) in Hload.
  apply load_shape in Hload as (es' & x & -> & _ & _ & _ & Hlen).
  cbn [fst of_entries _lengths_processed].
  unfold entries in Hlen. rewrite fst_zip in Hlen; [done |].
  unfold aligned in Hal. lia.
Qed.

Lemma load_all_lengths calls : forall self self',
  aligned self ->
  StronglySorted Z.lt (_lengths_processed self) ->
  load_all self calls = Py.ok self' ->
  StronglySorted Z.lt (_lengths_processed self')
  /\ forall l, l ∈ _lengths_processed self'
               <-> l ∈ _lengths_processed self \/ l ∈ calls.*2.
Proof.
  induction calls as [| [d q] calls IH]; intros self self' Hal Hs Hrun.
  - injection Hrun as <-. split; [done |]. intros l.
    rewrite fmap_nil, elem_of_nil. tauto.
  - cbn [load_all] in Hrun.
    destruct (load_l_identifying_result self d q) as [e | r] eqn:Hload;
      [done |].
    cbn [Py.bind] in Hrun.
    destruct (lengths_after_sorted q _ _ (load_lengths self d q r Hal Hload) Hs)
      as [Hs' Hmem].
    destruct (IH r.1 self') as [Hs'' Hmem''];
      [by eapply load_keeps_aligned | done | done |].
    split; [done |]. intros l. rewrite Hmem'', Hmem, fmap_cons, elem_of_cons.
    cbn [snd]. tauto.
Qed.

(** X7. Whatever the order of the loads, after a sequence of
    successful loads on a fresh combiner the recorded lengths are strictly
    ascending, they are exactly the lengths that were loaded (each recorded
    once, however often it was loaded), and one table is stored per
    recorded length. *)
Theorem reachable_lengths_ascending
    (calls : list (Py.dict signature Z * Z)) (self : RangeCombiningAttack) :
  load_all init calls = Py.ok self ->
  StronglySorted Z.lt (_lengths_processed self)
  /\ (forall l, l ∈ _lengths_processed self <-> l ∈ calls.*2)
  /\ length (_combined_results self) = length (_lengths_processed self).
Proof.
  intros Hrun.
  destruct (load_all_lengths calls init self) as [Hs Hmem]; try done.
  { constructor. }
  split; [done |]. split.
  - intros l. rewrite Hmem. cbn [init _lengths_processed].
    rewrite elem_of_nil. tauto.
  - by apply (load_all_keeps_aligned calls init self).
Qed.

Lemma reachable_lengths_ascending_witness :
  exists self,
    load_all init
      [([(["a"; "b"]%string, 2)], 2);
       ([(["a"; "b"; "c"; "d"]%string, 2)], 4);
       ([(["a"; "b"; "c"]%string, 2)], 3);
       ([(["b"; "c"]%string, 5)], 2)] = Py.ok self
    /\ StronglySorted Z.lt (_lengths_processed self)
    /\ _lengths_processed self = [2; 3; 4].
Proof.
  eexists. split; [reflexivity |]. split; [| reflexivity].
  apply (reachable_lengths_ascending
           [([(["a"; "b"]%string, 2)], 2);
            ([(["a"; "b"; "c"; "d"]%string, 2)], 4);
            ([(["a"; "b"; "c"]%string, 2)], 3);
            ([(["b"; "c"]%string, 5)], 2)]).
  reflexivity.
Defined.

(** *** Subsumption, as the loop enforces it *)

Lemma elem_of_keys_update d : forall t (k : signature),
  k ∈ Py.keys (Py.update t d) -> k ∈ Py.keys t \/ k ∈ Py.keys d.
Proof.
  unfold Py.update.
  induction d as [| [k0 v0] d IH]; intros t k Hk; [by left |].
  cbn [foldl fst snd] in Hk. apply IH in Hk as [Hk | Hk].
  - apply elem_of_keys_set in Hk as [-> | Hk]; [right; by left | by left].
  - right. by right.
Qed.

Lemma load_keeps_subsumed es d q r :
  subsumed es ->
  load_l_identifying_result (of_entries es) d q = Py.ok r ->
  subsumed (entries r.1).
Proof.
  intros Hsub Hload.
  apply load_shape in Hload as (es' & x & -> & Hx & Hxs & Hmem & _).
  cbn [fst]. rewrite entries_of_entries.
  set (d2 := incoming_after q es d) in *.
  assert (Hnew_above : forall l2 t2, (l2, t2) ∈ es -> q < l2 ->
            pruned_against q x l2 t2).
  { intros l2 t2 Hin Hlt k i Hk Hi Hkx.
    pose proof (incoming_after_pruned q es d (l2, t2) Hin Hlt k i Hk Hi)
      as Hd2.
    destruct Hxs as [-> | (t & Ht & ->)]; [done |].
    apply elem_of_keys_update in Hkx as [Hkt | Hkd]; [| done].
    by apply (Hsub (q, t) (l2, t2) Ht Hin Hlt k i Hk Hi). }
  assert (Hnew_below : forall e1, derived q d2 es e1 -> e1.1 < q ->
            pruned_against e1.1 e1.2 q x).
  { intros e1 (t1 & Hin1 & Hsub1 & _ & Hpr) Hlt k i Hk Hi Hk1.
    destruct Hxs as [-> | (t & Ht & ->)]; [by apply (Hpr Hlt k i Hk Hi) |].
    apply elem_of_keys_update in Hk as [Hkt | Hkd].
    - apply (Hsub (e1.1, t1) (q, t) Hin1 Ht Hlt k i Hkt Hi).
      by eapply keys_sublist.
    - by apply (Hpr Hlt k i Hkd Hi). }
  intros e1 e2 H1 H2 Hlt.
  destruct (Hmem e1 H1) as [-> | Hd1], (Hmem e2 H2) as [-> | Hd2].
  - cbn [fst] in Hlt. lia.
  - cbn [fst snd] in *. destruct Hd2 as (t2 & Hin2 & _ & Heq & _).
    rewrite (Heq Hlt). by apply Hnew_above.
  - cbn [fst snd] in *. by apply Hnew_below.
  - destruct Hd1 as (t1 & Hin1 & Hsub1 & _), Hd2 as (t2 & Hin2 & Hsub2 & _).
    intros k i Hk Hi Hk1.
    apply (Hsub (e1.1, t1) (e2.1, t2) Hin1 Hin2 Hlt k i);
      [by eapply keys_sublist | done | by eapply keys_sublist].
Qed.

(** X8. The subsumption that the loads do enforce.  After any sequence
    of successful loads on a fresh combiner, for any two stored tables of
    lengths [l1 < l2], no key of the [l1] table is a slice
    [k[i : i + l1]] of a key [k] of the [l2] table at an offset
    [0 <= i < l2 - l1]; this holds whether the longer table was loaded
    before or after the shorter one (the slice at the last offset
    [l2 - l1] is not covered by the loop). *)
Theorem reachable_subsumed
    (calls : list (Py.dict signature Z * Z)) (self : RangeCombiningAttack) :
  load_all init calls = Py.ok self ->
  forall l1 t1 l2 t2 k i,
    (l1, t1) ∈ entries self -> (l2, t2) ∈ entries self ->
    l1 < l2 ->
    k ∈ Py.keys t2 -> 0 <= i < l2 - l1 ->
    Py.slice k i (i + l1) ∉ Py.keys t1.
Proof.
  intros Hrun.
  assert (Hs : subsumed (entries self)).
  { apply (load_all_preserves (λ s, subsumed (entries s)))
      with (calls := calls) (self := init); [| done | | done].
    - intros s d q r Hal Hsub Hload.
      rewrite (aligned_of_entries s Hal) in Hload.
      by eapply load_keeps_subsumed.
    - intros e1 e2 He1. by apply elem_of_nil in He1. }
  intros l1 t1 l2 t2 k i H1 H2 Hlt Hk Hi.
  by apply (Hs (l1, t1) (l2, t2) H1 H2 Hlt k i).
Qed.

Lemma reachable_subsumed_witness :
  Py.slice ["a"; "b"; "c"]%string 0 (0 + 2)
  ∉ Py.keys [(["b"; "c"]%string, 2)].
Proof.
  apply (reachable_subsumed
           [([(["a"; "b"]%string, 2); (["b"; "c"]%string, 2)], 2);
            ([(["a"; "b"; "c"]%string, 2)], 3)]
           (of_entries [(2, [(["b"; "c"]%string, 2)]);
                        (3, [(["a"; "b"; "c"]%string, 2)])])
           eq_refl
           2 [(["b"; "c"]%string, 2)] 3 [(["a"; "b"; "c"]%string, 2)]
           ["a"; "b"; "c"]%string 0).
  - by left.
  - right. by left.
  - lia.
  - by left.
  - lia.
Defined.

(** *** What a load leaves alone *)

(** X9. A successful load only removes keys, apart from the table of
    the loaded length itself: the caller's dictionary comes back as a
    sublist of what was passed (same order, same counts); every stored
    table of another length stems from the stored table of that length,
    as a sublist of it, and is untouched if its length lies above the
    loaded one; and no recorded length is dropped. *)
Theorem load_only_prunes (self : RangeCombiningAttack) d q r :
  aligned self ->
  load_l_identifying_result self d q = Py.ok r ->
  r.2 `sublist_of` d
  /\ (forall l t', (l, t') ∈ entries r.1 -> l ≠ q ->
        exists t, (l, t) ∈ entries self
                  /\ t' `sublist_of` t /\ (q < l -> t' = t))
  /\ (forall l, l ∈ _lengths_processed self -> l ∈ _lengths_processed r.1).
Proof.
  intros Hal Hload. split; [| split].
  - rewrite (aligned_of_entries self Hal) in Hload.
    apply load_shape in Hload as (es' & x & -> & _).
    cbn [snd]. rewrite incoming_after_filter. apply sublist_filter.
  - rewrite (aligned_of_entries self Hal) in Hload.
    apply load_shape in Hload as (es' & x & -> & _ & _ & Hmem & _).
    cbn [fst]. rewrite entries_of_entries. intros l t' Hin Hne.
    destruct (Hmem _ Hin) as [[= -> ->] | (t & Ht & Hsub & Heq & _)];
      [done |].
    exists t. cbn [fst snd] in *. by split; [| split].
  - pose proof (load_lengths self d q r Hal Hload) as Hlen.
    intros l Hl.
    destruct Hlen as [[Hnil _] | [(pre & m & post & Hls & _ & _ & ->) | [-> _]]].
    + rewrite Hnil in Hl. by apply elem_of_nil in Hl.
    + rewrite Hls in Hl. revert Hl.
      rewrite !elem_of_app, !elem_of_cons. tauto.
    + done.
Qed.

Lemma load_only_prunes_witness :
  exists r,
    load_l_identifying_result
      (of_entries [(2, [(["a"; "b"]%string, 1); (["x"; "y"]%string, 4)]);
                   (4, [(["a"; "b"; "c"; "d"]%string, 2)])])
      [(["a"; "b"; "c"]%string, 2); (["p"; "q"; "r"]%string, 3)] 3
    = Py.ok r
    /\ r.2 `sublist_of`
         [(["a"; "b"; "c"]%string, 2); (["p"; "q"; "r"]%string, 3)].
Proof.
  eexists. split; [reflexivity |].
  apply (load_only_prunes
           (of_entries [(2, [(["a"; "b"]%string, 1); (["x"; "y"]%string, 4)]);
                        (4, [(["a"; "b"; "c"; "d"]%string, 2)])])
           [(["a"; "b"; "c"]%string, 2); (["p"; "q"; "r"]%string, 3)] 3).
  - reflexivity.
  - reflexivity.
Defined.

(** *** Loading a length that is already stored *)

Lemma incoming_after_below q es d :
  Forall (λ e, e.1 < q) es -> incoming_after q es d = d.
Proof.
  revert d. induction es as [| [l t] es IH]; intros d Hall; [done |].
  apply Forall_cons in Hall as [Hl Hall]. cbn [fst] in Hl.
  rewrite incoming_after_cons_le by lia. by apply IH.
Qed.

(** X10. Loading a length that is already stored, on a combiner with
    ascending recorded lengths, never fails and leaves the recorded
    lengths and the tables of greater length unchanged.  The incoming
    table is pruned first: it loses exactly the signatures that are a
    slice [k[i : i + q]], [0 <= i < l - q], of a signature [k] of a stored
    table of a greater length [l].  The stored table of the loaded length
    is then updated with what is left: a signature of the pruned incoming
    table ends with the incoming count alone, not the sum, and every
    other signature of the stored table keeps its count, also one whose
    incoming copy was pruned away. *)
Theorem equal_length_load_overwrites (self : RangeCombiningAttack)
    d q es1 t es2 :
  aligned self ->
  StronglySorted Z.lt (_lengths_processed self) ->
  NoDup (Py.keys d) ->
  entries self = es1 ++ (q, t) :: es2 ->
  exists r es1' t',
    load_l_identifying_result self d q = Py.ok r
    /\ _lengths_processed r.1 = _lengths_processed self
    /\ entries r.1 = es1' ++ (q, t') :: es2
    /\ length es1' = length es1
    /\ (forall kv,
          kv ∈ r.2
          <-> kv ∈ d
              /\ ¬ exists e k i,
                     e ∈ es2 /\ k ∈ Py.keys e.2 /\ 0 <= i < e.1 - q
                     /\ kv.1 = Py.slice k i (i + q))
    /\ (forall k v, (k, v) ∈ r.2 -> Py.get k t' = Some v)
    /\ (forall k, k ∉ Py.keys r.2 -> Py.get k t' = Py.get k t).
Proof.
  intros Hal Hs Hnd Hes.
  rewrite (aligned_of_entries self Hal), Hes in Hs |- *.
  cbn [of_entries _lengths_processed] in Hs |- *.
  rewrite fmap_app, fmap_cons in Hs. cbn [fst] in Hs.
  assert (Hall : Forall (λ e, q < e.1) es2).
  { apply StronglySorted_app_1_r in Hs.
    apply StronglySorted_cons in Hs as [Hq _].
    rewrite Forall_forall in Hq. apply Forall_forall. intros e He.
    apply Hq. by apply (list_elem_of_fmap_2 fst). }
  assert (Hbelow : Forall (λ e, e.1 < q) es1).
  { apply Forall_forall. intros e He.
    apply (StronglySorted_app_1_elem_of _ _ _ _ _ Hs).
    - by apply (list_elem_of_fmap_2 fst).
    - by left. }
  rewrite load_merge by done. cbv zeta.
  rewrite (incoming_after_below q es1 d Hbelow).
  set (d2 := incoming_after q es2 d).
  exists (of_entries (settle q es1 d ++ (q, Py.update t d2) :: es2), d2),
    (settle q es1 d), (Py.update t d2).
  cbn [fst snd of_entries _lengths_processed].
  split; [done |]. split.
  { by rewrite !fmap_app, !fmap_cons, settle_fst. }
  split; [apply (entries_of_entries
                   (settle q es1 d ++ (q, Py.update t d2) :: es2)) |].
  split; [apply settle_length |].
  assert (Hnd2 : NoDup (Py.keys d2)) by by apply incoming_after_keys_NoDup.
  split; [| split].
  - intros kv. unfold d2. rewrite incoming_after_filter, list_elem_of_filter.
    rewrite elem_of_incoming_removed. split.
    + intros [Hout Hin]. split; [done |].
      intros (e & k & i & He & Hk & Hi & Hkv). apply Hout.
      exists e. split; [done |].
      split; [by apply (proj1 (Forall_forall _ _) Hall) |].
      apply elem_of_removed_keys. by exists k, i.
    + intros [Hin Hout]. split; [| done].
      intros (e & He & Hlt & Hrem).
      apply elem_of_removed_keys in Hrem as (k & i & Hk & Hi & Hkv).
      apply Hout. by exists e, k, i.
  - intros k v Hin. by apply get_update_elem.
  - intros k Hk. by apply get_update_other.
Qed.

Lemma equal_length_load_overwrites_witness :
  exists r,
    load_l_identifying_result
      (of_entries [(2, [(["a"; "b"]%string, 1); (["c"; "d"]%string, 7)]);
                   (3, [(["a"; "b"; "c"]%string, 2)])])
      [(["a"; "b"]%string, 2); (["c"; "d"]%string, 3);
       (["x"; "y"]%string, 5)] 2
    = Py.ok r
    /\ r.2 = [(["c"; "d"]%string, 3); (["x"; "y"]%string, 5)]
    /\ entries r.1
       = [(2, [(["a"; "b"]%string, 1); (["c"; "d"]%string, 3);
               (["x"; "y"]%string, 5)]);
          (3, [(["a"; "b"; "c"]%string, 2)])].
Proof.
  destruct (equal_length_load_overwrites
              (of_entries [(2, [(["a"; "b"]%string, 1);
                                (["c"; "d"]%string, 7)]);
                           (3, [(["a"; "b"; "c"]%string, 2)])])
              [(["a"; "b"]%string, 2); (["c"; "d"]%string, 3);
               (["x"; "y"]%string, 5)] 2
              [] [(["a"; "b"]%string, 1); (["c"; "d"]%string, 7)]
              [(3, [(["a"; "b"; "c"]%string, 2)])])
    as (r & es1' & t' & Hr & _).
  - reflexivity.
  - repeat constructor.
  - compute_done.
  - reflexivity.
  - exists r. split; [exact Hr |].
    vm_compute in Hr. injection Hr as <-. by split.
Defined.

End RangeCombiningExtra.

(** ** The identification stage of the driver *)

Module PipelineExtra.
Import RangeCombining RangeCombiningInv RangeCombiningFacts.
Import RangeCombiningExtra Pipeline LIdentifyingInv.

Lemma lengths_after_elem q ls ls' :
  lengths_after q ls ls' -> forall m, m ∈ ls' <-> m = q \/ m ∈ ls.
Proof.
  intros [[-> ->] | [(pre & l & post & -> & _ & _ & ->) | [-> Hq]]] m.
  - rewrite list_elem_of_singleton, elem_of_nil. tauto.
  - rewrite !elem_of_app, !elem_of_cons. tauto.
  - split; [by right |]. by intros [-> | Hm].
Qed.

(** Once a length [m] is recorded, every load of a length that is not
    below [m] succeeds. *)
Lemma load_all_from_recorded calls : forall self m,
  aligned self ->
  m ∈ _lengths_processed self ->
  Forall (λ c, m <= c.2) calls ->
  exists self', load_all self calls = Py.ok self'.
Proof.
  induction calls as [| [d q] calls IH]; intros self m Hal Hm Hall.
  - by exists self.
  - apply Forall_cons in Hall as [Hq Hall]. cbn [snd] in Hq.
    cbn [load_all].
    destruct (load_succeeds (entries self) d q) as [r Hr].
    { right. apply Exists_exists.
      rewrite (aligned_of_entries self Hal) in Hm.
      cbn [of_entries _lengths_processed] in Hm.
      apply list_elem_of_fmap in Hm as (e & -> & He). by exists e. }
    rewrite <- (aligned_of_entries self Hal) in Hr. rewrite Hr.
    cbn [Py.bind Py.ok]. apply (IH r.1 m).
    + by eapply load_keeps_aligned.
    + apply (lengths_after_elem q _ _ (load_lengths self d q r Hal Hr)).
      by right.
    + done.
Qed.

Lemma StronglySorted_lt_NoDup (ls : list Z) :
  StronglySorted Z.lt ls -> NoDup ls.
Proof.
  induction 1 as [| l ls Hs IH Hall]; constructor; [| done].
  intros Hin. apply (proj1 (Forall_forall _ _) Hall) in Hin. lia.
Qed.

Lemma StronglySorted_lt_eq (ls1 ls2 : list Z) :
  StronglySorted Z.lt ls1 -> StronglySorted Z.lt ls2 ->
  (forall l, l ∈ ls1 <-> l ∈ ls2) -> ls1 = ls2.
Proof.
  intros H1 H2 Hmem.
  apply (StronglySorted_unique_strong Z.lt); [intros; lia | done | done |].
  apply NoDup_Permutation; auto using StronglySorted_lt_NoDup.
Qed.

(** One round of the driver on a combiner that is fresh or holds the
    lengths [ls] already. *)
Lemma checkpoint_round (rc : RangeCombiningAttack)
    (ts : list LIdentifying.LIdentifyingAttack) :
  StronglySorted Z.lt (LIdentifying._l <$> ts) ->
  aligned rc ->
  _lengths_processed rc = [] \/
    _lengths_processed rc = LIdentifying._l <$> ts ->
  exists rc',
    checkpoint rc ts = Py.ok rc'
    /\ aligned rc'
    /\ (ts ≠ [] -> _lengths_processed rc' = LIdentifying._l <$> ts).
Proof.
  intros Hs Hal Hls. unfold checkpoint.
  set (calls := (λ a, (LIdentifying.get_result a, LIdentifying._l a)) <$> ts).
  assert (Hcalls : calls.*2 = LIdentifying._l <$> ts).
  { unfold calls. rewrite <- list_fmap_compose. done. }
  assert (Hok : exists rc', load_all rc calls = Py.ok rc').
  { destruct ts as [| a ts]; [by exists rc |].
    assert (Hmin : Forall (λ c, LIdentifying._l a <= c.2) calls).
    { apply Forall_forall. intros c Hc.
      assert (Hc2 : c.2 ∈ calls.*2) by by apply list_elem_of_fmap_2.
      rewrite Hcalls, fmap_cons in Hc2.
      rewrite fmap_cons in Hs. apply StronglySorted_cons in Hs as [Hlt _].
      apply elem_of_cons in Hc2 as [-> | Hc2]; [lia |].
      apply (proj1 (Forall_forall _ _) Hlt) in Hc2. lia. }
    destruct Hls as [Hnil | Hsame].
    - unfold calls in *. rewrite fmap_cons in Hmin |- *. cbn [load_all].
      apply Forall_cons in Hmin as [_ Hmin].
      rewrite (aligned_of_entries rc Hal).
      assert (Hes : entries rc = []).
      { unfold entries. rewrite Hnil. done. }
      rewrite Hes, load_fresh. cbn [Py.bind Py.ok fst].
      apply (load_all_from_recorded _ _ (LIdentifying._l a));
        [apply of_entries_aligned | by left | done].
    - apply (load_all_from_recorded _ _ (LIdentifying._l a));
        [done | rewrite Hsame; by left | done]. }
  destruct Hok as [rc' Hrun]. exists rc'. split; [done |].
  split; [by eapply load_all_keeps_aligned |].
  intros Hne.
  assert (Hs0 : StronglySorted Z.lt (_lengths_processed rc)).
  { destruct Hls as [-> | ->]; [constructor | done]. }
  destruct (load_all_lengths calls rc rc' Hal Hs0 Hrun) as [Hs' Hmem].
  apply StronglySorted_lt_eq; [done | done |].
  intros l. rewrite Hmem, Hcalls.
  destruct Hls as [-> | ->]; [rewrite elem_of_nil |]; tauto.
Qed.

(** X11. The periodic reload of the driver never fails.  With trackers
    whose window lengths are strictly ascending (the driver uses
    [range(length_low, length_high)]), handing the tables of all trackers
    to the combiner, in that order, succeeds on a fresh combiner and again
    at every later checkpoint, whatever the tables hold by then; from the
    first checkpoint on the combiner records exactly the trackers'
    lengths. *)
Theorem checkpoints_succeed (ls : list Z)
    (rounds : list (list LIdentifying.LIdentifyingAttack)) :
  StronglySorted Z.lt ls ->
  ls ≠ [] ->
  Forall (λ ts, LIdentifying._l <$> ts = ls) rounds ->
  exists rc,
    Py.foldM checkpoint rounds init = Py.ok rc
    /\ (rounds ≠ [] -> _lengths_processed rc = ls).
Proof.
  intros Hs Hne Hrounds.
  assert (Hgen : forall rc,
            aligned rc ->
            _lengths_processed rc = [] \/ _lengths_processed rc = ls ->
            exists rc',
              Py.foldM checkpoint rounds rc = Py.ok rc'
              /\ (rounds ≠ [] -> _lengths_processed rc' = ls)
              /\ (rounds = [] -> rc' = rc)).
  { induction rounds as [| ts rounds IH]; intros rc Hal Hls.
    - exists rc. by split.
    - apply Forall_cons in Hrounds as [Hts Hrounds].
      destruct (checkpoint_round rc ts) as (rc1 & Hrun & Hal1 & Hls1).
      { by rewrite Hts. }
      { done. }
      { by rewrite Hts. }
      assert (Hne' : ts ≠ []) by (intros ->; by rewrite fmap_nil in Hts).
      specialize (Hls1 Hne'). rewrite Hts in Hls1.
      destruct (IH Hrounds rc1 Hal1 (or_intror Hls1))
        as (rc' & Hrun' & Hls' & Hnil').
      exists rc'. cbn [Py.foldM]. rewrite Hrun. cbn [Py.bind Py.ok].
      split; [done |]. split; [| done]. intros _.
      destruct rounds as [| ts' rounds]; [| by apply Hls'].
      by rewrite (Hnil' eq_refl). }
  destruct (Hgen init) as (rc' & Hrun & Hls' & _); [done | by left |].
  by exists rc'.
Qed.

Lemma checkpoints_succeed_witness :
  exists rc,
    Py.foldM checkpoint
      [[LIdentifying.init 2 2 100; LIdentifying.init 3 2 100];
       [LIdentifying.init 2 2 100; LIdentifying.init 3 2 100]] init
    = Py.ok rc
    /\ _lengths_processed rc = [2; 3].
Proof.
  destruct (checkpoints_succeed [2; 3]
              [[LIdentifying.init 2 2 100; LIdentifying.init 3 2 100];
               [LIdentifying.init 2 2 100; LIdentifying.init 3 2 100]])
    as (rc & Hrun & Hls).
  - repeat constructor.
  - done.
  - by repeat constructor.
  - exists rc. split; [exact Hrun |]. by apply Hls.
Defined.

(** *** Tracker tables in the combiner *)

Lemma well_formed_sublist l (t t' : Py.dict signature Z) :
  t' `sublist_of` t -> well_formed l t -> well_formed l t'.
Proof.
  intros Hsub [Hnd Hall]. split.
  - eapply sublist_NoDup; [exact Hnd |]. unfold Py.keys.
    by apply fmap_sublist.
  - apply Forall_forall. intros e He.
    apply (proj1 (Forall_forall _ _) Hall). by eapply elem_of_sublist.
Qed.

Lemma elem_of_update (d : Py.dict signature Z) :
  forall (t : Py.dict signature Z) kv,
    kv ∈ Py.update t d -> kv ∈ t \/ kv ∈ d.
Proof.
  unfold Py.update.
  induction d as [| [k v] d IH]; intros t kv Hin; [by left |].
  cbn [foldl fst snd] in Hin. apply IH in Hin as [Hin | Hin].
  - apply elem_of_dict_set in Hin as [-> | Hin]; [right; by left | by left].
  - right. by right.
Qed.

Lemma update_keys_NoDup (d : Py.dict signature Z) :
  forall t : Py.dict signature Z,
    NoDup (Py.keys t) -> NoDup (Py.keys (Py.update t d)).
Proof.
  unfold Py.update.
  induction d as [| [k v] d IH]; intros t Hnd; [done |].
  cbn [foldl]. apply IH. by apply dict_set_NoDup.
Qed.

Lemma well_formed_update l (t d : Py.dict signature Z) :
  well_formed l t -> well_formed l d -> well_formed l (Py.update t d).
Proof.
  intros [Hndt Ht] [Hndd Hd]. split; [by apply update_keys_NoDup |].
  apply Forall_forall. intros e [He | He]%elem_of_update.
  - by apply (proj1 (Forall_forall _ _) Ht).
  - by apply (proj1 (Forall_forall _ _) Hd).
Qed.

Lemma load_keeps_well_formed es d q r :
  Forall (λ e, well_formed e.1 e.2) es ->
  well_formed q d ->
  load_l_identifying_result (of_entries es) d q = Py.ok r ->
  Forall (λ e, well_formed e.1 e.2) (entries r.1).
Proof.
  intros Hes Hd Hload.
  apply load_shape in Hload as (es' & x & -> & Hx & Hxs & Hmem & _).
  cbn [fst]. rewrite entries_of_entries.
  assert (Hd2 : well_formed q (incoming_after q es d)).
  { eapply well_formed_sublist; [| exact Hd].
    rewrite incoming_after_filter. apply sublist_filter. }
  apply Forall_forall. intros e' He'.
  destruct (Hmem e' He') as [-> | (t & Ht & Hsub & _)].
  - cbn [fst snd]. destruct Hxs as [-> | (t & Ht & ->)]; [done |].
    apply well_formed_update; [| done].
    by apply (proj1 (Forall_forall _ _) Hes (q, t)).
  - eapply well_formed_sublist; [exact Hsub |].
    by apply (proj1 (Forall_forall _ _) Hes (e'.1, t)).
Qed.

Lemma load_all_well_formed calls : forall self self',
  aligned self ->
  Forall (λ e, well_formed e.1 e.2) (entries self) ->
  Forall (λ c, well_formed c.2 c.1) calls ->
  load_all self calls = Py.ok self' ->
  Forall (λ e, well_formed e.1 e.2) (entries self').
Proof.
  induction calls as [| [d q] calls IH]; intros self self' Hal Hes Hall Hrun.
  - by injection Hrun as <-.
  - apply Forall_cons in Hall as [Hd Hall]. cbn [fst snd] in Hd.
    cbn [load_all] in Hrun.
    destruct (load_l_identifying_result self d q) as [e | r] eqn:Hload;
      [done |].
    cbn [Py.bind] in Hrun. eapply (IH r.1); [| | done | done].
    + by eapply load_keeps_aligned.
    + rewrite (aligned_of_entries self Hal) in Hload.
      by eapply load_keeps_well_formed.
Qed.

Lemma get_result_entries self :
  aligned self ->
  get_result self = concat ((λ e, Py.keys e.2) <$> entries self).
Proof.
  intros Hal. unfold get_result, entries.
  rewrite <- (snd_zip (_lengths_processed self) (_combined_results self))
    at 1 by (unfold aligned in Hal; lia).
  by rewrite <- list_fmap_compose.
Qed.

Lemma same_length_sorted (l : Z) (ks : list signature) :
  Forall (λ k, Py.len k = l) ks ->
  StronglySorted (λ k1 k2, Py.len k1 <= Py.len k2) ks.
Proof.
  induction 1 as [| k ks Hk Hks IH]; constructor; [done |].
  eapply Forall_impl; [exact Hks |]. intros k' Hk'. simpl in *. lia.
Qed.

Lemma well_formed_keys l (t : Py.dict signature Z) :
  well_formed l t ->
  Forall (λ k, Sorted token_le k /\ Py.len k = l) (Py.keys t).
Proof.
  intros [_ Hall]. unfold Py.keys. apply Forall_fmap.
  eapply Forall_impl; [exact Hall |]. by intros e (? & ? & _).
Qed.

(** The keys of well-formed tables of ascending lengths, flattened. *)
Lemma concat_keys_distinct (es : list (Z * Py.dict signature Z)) :
  StronglySorted Z.lt es.*1 ->
  Forall (λ e, well_formed e.1 e.2) es ->
  NoDup (concat ((λ e, Py.keys e.2) <$> es))
  /\ StronglySorted (λ k1 k2, Py.len k1 <= Py.len k2)
       (concat ((λ e, Py.keys e.2) <$> es))
  /\ Forall (λ k, Sorted token_le k /\ Py.len k ∈ es.*1)
       (concat ((λ e, Py.keys e.2) <$> es)).
Proof.
  induction es as [| [l t] es IH]; intros Hs Hall.
  - cbn. split; [apply NoDup_nil_2 |]. split; constructor.
  - rewrite fmap_cons in Hs. cbn [fst] in Hs.
    apply StronglySorted_cons in Hs as [Hlt Hs].
    apply Forall_cons in Hall as [Ht Hall]. cbn [fst snd] in Ht.
    destruct (IH Hs Hall) as (IHnd & IHs & IHall).
    pose proof (well_formed_keys l t Ht) as Hkeys.
    rewrite !fmap_cons. cbn [concat fst snd].
    assert (Hrest : forall k, k ∈ concat ((λ e, Py.keys e.2) <$> es) ->
                      l < Py.len k).
    { intros k Hk. apply (proj1 (Forall_forall _ _) IHall) in Hk as [_ Hk].
      by apply (proj1 (Forall_forall _ _) Hlt). }
    assert (Hhere : forall k, k ∈ Py.keys t -> Py.len k = l).
    { intros k Hk. by apply (proj1 (Forall_forall _ _) Hkeys) in Hk as [_ Hk]. }
    split; [| split].
    + apply NoDup_app. split; [apply Ht |]. split; [| done].
      intros k Hk Hk'. apply Hhere in Hk. apply Hrest in Hk'. lia.
    + apply StronglySorted_app_2; [| | done].
      * intros k1 k2 Hk1 Hk2. apply Hhere in Hk1. apply Hrest in Hk2. lia.
      * apply (same_length_sorted l). eapply Forall_impl; [exact Hkeys |].
        by intros k [_ ?].
    + apply Forall_app. split.
      * eapply Forall_impl; [exact Hkeys |]. intros k [Hsk Hlk].
        split; [done |]. simpl. rewrite Hlk. by left.
      * eapply Forall_impl; [exact IHall |]. intros k [Hsk Hlk].
        split; [done |]. by right.
Qed.

(** X26. Tracker tables compose with the combiner.  When the tables
    loaded are well formed for their length, as the tables of the trackers
    are, then after any sequence of successful loads on a fresh combiner
    [get_result] lists every signature at most once, shorter signatures
    before longer ones, and every signature it lists is an ascending tuple
    whose length is one of the loaded lengths. *)
Theorem combined_result_distinct
    (calls : list (Py.dict signature Z * Z)) (self : RangeCombiningAttack) :
  Forall (λ c, well_formed c.2 c.1) calls ->
  load_all init calls = Py.ok self ->
  NoDup (get_result self)
  /\ StronglySorted (λ k1 k2, Py.len k1 <= Py.len k2) (get_result self)
  /\ Forall (λ k, Sorted token_le k /\ Py.len k ∈ calls.*2)
       (get_result self).
Proof.
  intros Hcalls Hrun.
  assert (Hal : aligned self) by by apply (load_all_keeps_aligned calls init).
  destruct (load_all_lengths calls init self) as [Hs Hmem];
    [done | constructor | done |].
  assert (Hwf : Forall (λ e, well_formed e.1 e.2) (entries self)).
  { by apply (load_all_well_formed calls init self). }
  assert (Hfst : (entries self).*1 = _lengths_processed self).
  { unfold entries. apply fst_zip. unfold aligned in Hal. lia. }
  rewrite (get_result_entries self Hal).
  destruct (concat_keys_distinct (entries self)) as (Hnd & Hsorted & Hall);
    [by rewrite Hfst | done |].
  split; [done |]. split; [done |].
  eapply Forall_impl; [exact Hall |]. intros k [Hsk Hlk].
  split; [done |]. rewrite Hfst in Hlk. apply Hmem in Hlk as [Hlk | Hlk];
    [by apply elem_of_nil in Hlk | done].
Qed.

Lemma combined_result_distinct_witness :
  exists self,
    load_all init
      [([(["a"; "b"]%string, 2); (["b"; "c"]%string, 2)], 2);
       ([(["a"; "b"; "c"]%string, 2)], 3)] = Py.ok self
    /\ NoDup (get_result self).
Proof.
  eexists. split; [reflexivity |].
  apply (combined_result_distinct
           [([(["a"; "b"]%string, 2); (["b"; "c"]%string, 2)], 2);
            ([(["a"; "b"; "c"]%string, 2)], 3)]).
  - repeat constructor; compute_done.
  - reflexivity.
Defined.

(** *** The loop over the query file *)

Lemma process_all_fields (ts : list LIdentifying.LIdentifyingAttack) q :
  Forall (λ a, LIdentifying._prune_interval a ≠ 0) ts ->
  exists ts',
    process_all ts q = Py.ok ts'
    /\ LIdentifying._l <$> ts' = LIdentifying._l <$> ts
    /\ Forall (λ a, LIdentifying._prune_interval a ≠ 0) ts'.
Proof.
  intros Hall. unfold process_all.
  assert (Hgen : forall acc, exists ts',
            Py.foldM (λ done id_attack,
                        id_attack' <- LIdentifying.process id_attack q ;;
                        Py.ok (done ++ [id_attack'])) ts acc = Py.ok (acc ++ ts')
            /\ LIdentifying._l <$> ts' = LIdentifying._l <$> ts
            /\ Forall (λ a, LIdentifying._prune_interval a ≠ 0) ts').
  { induction ts as [| a ts IH]; intros acc.
    - exists []. by rewrite app_nil_r.
    - apply Forall_cons in Hall as [Ha Hall].
      destruct (LIdentifying.process a q) as [e | a'] eqn:Hp.
      { rewrite LIdentifyingFacts.process_advance in Hp by done. discriminate. }
      destruct (LIdentifyingExtra.process_fields a q a' Hp)
        as (Hl & _ & Hi & _).
      destruct (IH Hall (acc ++ [a'])) as (ts' & Hrun & Hls & His).
      exists (a' :: ts'). cbn [Py.foldM]. rewrite Hp. cbn [Py.bind Py.ok].
      rewrite Hrun, <- app_assoc. split; [done |]. split.
      + by rewrite !fmap_cons, Hl, Hls.
      + constructor; [by rewrite Hi | done]. }
  destruct (Hgen []) as (ts' & Hrun & Hrest). by exists ts'.
Qed.

Lemma trackers_lengths low high thr :
  StronglySorted Z.lt (LIdentifying._l <$> trackers low high thr)
  /\ Forall (λ a, LIdentifying._prune_interval a ≠ 0) (trackers low high thr).
Proof.
  unfold trackers, Py.range. split.
  - rewrite <- !list_fmap_compose.
    generalize (Z.to_nat (high - low)). intros n. generalize 0%nat.
    induction n as [| n IH]; intros a; [constructor |].
    cbn [seq]. rewrite fmap_cons. apply SSorted_cons; [apply IH |].
    apply Forall_forall. intros l (j & -> & Hj%elem_of_seq)%list_elem_of_fmap.
    simpl. lia.
  - apply Forall_forall. intros a (l & -> & _)%list_elem_of_fmap. done.
Qed.

(** What the loop keeps true of its state, for trackers of lengths
    [ls]. *)
Lemma step_outcomes succ eff plaintext_series total_num ls st q :
  StronglySorted Z.lt ls ->
  LIdentifying._l <$> st_attack_list st = ls ->
  Forall (λ a, LIdentifying._prune_interval a ≠ 0) (st_attack_list st) ->
  aligned (st_rc st) ->
  _lengths_processed (st_rc st) = [] \/ _lengths_processed (st_rc st) = ls ->
  (exists st',
     identification_step succ eff plaintext_series total_num st q = Py.ok st'
     /\ st_cnt st' = st_cnt st + 1
     /\ LIdentifying._l <$> st_attack_list st' = ls
     /\ Forall (λ a, LIdentifying._prune_interval a ≠ 0) (st_attack_list st')
     /\ aligned (st_rc st')
     /\ (_lengths_processed (st_rc st') = []
         \/ _lengths_processed (st_rc st') = ls)
     /\ (total_num = 0 -> (st_cnt st + 1) `mod` 20000000 ≠ 0))
  \/ (identification_step succ eff plaintext_series total_num st q
      = Py.raise Py.ZeroDivisionError
      /\ (st_cnt st + 1) `mod` 20000000 = 0).
Proof.
  intros Hs Hls Hint Hal Hrc.
  destruct (process_all_fields (st_attack_list st) q Hint)
    as (ts1 & Hp & Hl1 & Hint1).
  unfold identification_step. rewrite Hp. cbn [Py.bind Py.ok].
  destruct ((st_cnt st + 1) `mod` 20000000 =? 0) eqn:Hmod.
  - apply Z.eqb_eq in Hmod.
    destruct (checkpoint_round (st_rc st) ts1) as (rc1 & Hc & Hal1 & Hrc1).
    { by rewrite Hl1, Hls. }
    { done. }
    { by rewrite Hl1, Hls. }
    rewrite Hc. cbn [Py.bind Py.ok]. unfold evaluate, Metrics.truediv.
    cbv zeta.
    destruct (total_num =? 0) eqn:Ht; [by right |].
    cbn [Py.bind Py.ok].
    destruct (Py.len (get_result rc1) =? 0); [by right |].
    cbn [Py.bind Py.ok fst snd]. left. eexists. split; [done |].
    cbn [st_cnt st_attack_list st_rc]. split; [done |].
    split; [by rewrite Hl1 |]. split; [done |]. split; [done |]. split.
    + destruct ts1 as [| a ts1].
      * unfold checkpoint in Hc. simpl in Hc. injection Hc as <-. done.
      * right. rewrite Hrc1 by done. by rewrite Hl1.
    + intros ->. done.
  - apply Z.eqb_neq in Hmod. left. eexists. split; [done |].
    cbn [st_cnt st_attack_list st_rc]. split; [done |].
    split; [by rewrite Hl1 |]. by repeat split.
Qed.

Lemma loop_outcomes succ eff plaintext_series total_num ls
    (queries : list token) :
  StronglySorted Z.lt ls ->
  forall st,
    LIdentifying._l <$> st_attack_list st = ls ->
    Forall (λ a, LIdentifying._prune_interval a ≠ 0) (st_attack_list st) ->
    aligned (st_rc st) ->
    _lengths_processed (st_rc st) = []
    \/ _lengths_processed (st_rc st) = ls ->
    (exists st',
       Py.foldM (identification_step succ eff plaintext_series total_num)
         queries st = Py.ok st'
       /\ st_cnt st' = st_cnt st + Py.len queries
       /\ LIdentifying._l <$> st_attack_list st' = ls
       /\ (total_num = 0 ->
           forall k, st_cnt st < k <= st_cnt st + Py.len queries ->
                     k `mod` 20000000 ≠ 0))
    \/ (Py.foldM (identification_step succ eff plaintext_series total_num)
          queries st = Py.raise Py.ZeroDivisionError
        /\ exists k, st_cnt st < k <= st_cnt st + Py.len queries
                     /\ k `mod` 20000000 = 0).
Proof.
  intros Hs. induction queries as [| q queries IH];
    intros st Hls Hint Hal Hrc.
  - left. exists st. split; [done |]. unfold Py.len. cbn [length].
    split; [lia |]. split; [done |]. intros _ k Hk. lia.
  - assert (Hlen : Py.len (q :: queries) = 1 + Py.len queries).
    { unfold Py.len. cbn [length]. lia. }
    assert (0 <= Py.len queries) by (unfold Py.len; lia).
    rewrite Hlen. cbn [Py.foldM].
    destruct (step_outcomes succ eff plaintext_series total_num ls st q
                Hs Hls Hint Hal Hrc)
      as [(st1 & Hstep & Hcnt & Hls1 & Hint1 & Hal1 & Hrc1 & Hz) | [Hstep Hmod]].
    + rewrite Hstep. cbn [Py.bind Py.ok].
      destruct (IH st1 Hls1 Hint1 Hal1 Hrc1)
        as [(st' & Hrun & Hcnt' & Hls' & Hz') | (Hrun & k & Hk & Hkmod)].
      * left. exists st'. split; [done |]. split; [lia |].
        split; [done |]. intros Ht k Hk.
        destruct (decide (k = st_cnt st + 1)) as [-> | Hne]; [by apply Hz |].
        apply (Hz' Ht). lia.
      * right. split; [done |]. exists k. split; [lia | done].
    + right. rewrite Hstep. split; [done |].
      exists (st_cnt st + 1). split; [lia | done].
Qed.

Lemma first_multiple k : 0 < k -> k `mod` 20000000 = 0 -> 20000000 <= k.
Proof.
  intros Hk Hmod. destruct (decide (k < 20000000)) as [Hlt | Hge]; [| lia].
  rewrite Z.mod_small in Hmod by lia. lia.
Qed.

(** X12. The loop of [main] over the query file can only fail with
    [ZeroDivisionError], and only at a checkpoint (every 20000000th
    query), in one of the two divisions that follow the loads: no call of
    a tracker or of the combiner raises, for any length range, threshold,
    plaintext file and query stream.  If the loop does not fail it ends
    with a counter equal to the number of queries and one tracker per
    length of [range(length_low, length_high)]; with fewer than 20000000
    queries it does not fail.  If no plaintext series qualifies, so that
    [total_num] is 0, the loop fails at its first checkpoint. *)
Theorem identification_raises_only_division
    (calculate_successful_identification
       calculate_effective_identification
       : list signature -> list (list string) -> Z)
    (length_low length_high min_threshold : Z)
    (series_lines : list Utils.series_line) (queries : list token) :
  let outcome :=
    identification calculate_successful_identification
      calculate_effective_identification length_low length_high
      min_threshold series_lines queries in
  ((exists st,
      outcome = Py.ok st
      /\ st_cnt st = Py.len queries
      /\ LIdentifying._l <$> st_attack_list st
         = (λ i, length_low + i) <$> Py.range (length_high - length_low))
   \/ (outcome = Py.raise Py.ZeroDivisionError
       /\ 20000000 <= Py.len queries))
  /\ ((Utils.load_plaintext_series series_lines length_low
         (length_high - 1) 10).2 = 0 ->
      20000000 <= Py.len queries ->
      outcome = Py.raise Py.ZeroDivisionError).
Proof.
  cbv zeta. unfold identification.
  pose proof (trackers_lengths length_low length_high min_threshold)
    as [Hs Hi].
  set (series := Utils.load_plaintext_series series_lines length_low
                   (length_high - 1) 10).
  set (st0 := {| st_attack_list :=
                   trackers length_low length_high min_threshold;
                 st_rc := init;
                 st_cnt := 0;
                 st_y_success_graph := [None];
                 st_y_effective_graph := [None] |}).
  assert (Hls0 : LIdentifying._l <$> st_attack_list st0
                 = (λ i, length_low + i)
                     <$> Py.range (length_high - length_low)).
  { unfold st0, trackers. cbn [st_attack_list].
    apply list_eq. intros i. rewrite !list_lookup_fmap.
    by destruct (Py.range (length_high - length_low) !! i). }
  destruct (loop_outcomes calculate_successful_identification
              calculate_effective_identification series.1 series.2
              (LIdentifying._l <$> st_attack_list st0) queries Hs st0)
    as [(st' & Hrun & Hcnt & Hls' & Hz) | (Hrun & k & Hk & Hkmod)];
    [done | done | done | by left | |].
  - split.
    + left. exists st'. split; [done |]. split.
      * rewrite Hcnt. unfold st0. cbn [st_cnt]. lia.
      * by rewrite Hls'.
    + intros Ht Hlen. exfalso. apply (Hz Ht 20000000); [| done].
      unfold st0. cbn [st_cnt]. lia.
  - unfold st0 in Hk. cbn [st_cnt] in Hk.
    assert (20000000 <= k) by (apply first_multiple; [lia | done]).
    split; [right; split; [done | lia] | done].
Qed.

(** An empty plaintext file and a stream of 20000000 queries: the loop
    ends in the first division of its first checkpoint. *)
Lemma identification_raises_only_division_witness :
  identification (λ _ _, 0) (λ _ _, 0) 2 4 1 []
    (replicate (Z.to_nat 20000000) "q"%string)
  = Py.raise Py.ZeroDivisionError.
Proof.
  apply (identification_raises_only_division (λ _ _, 0) (λ _ _, 0) 2 4 1 []
           (replicate (Z.to_nat 20000000) "q"%string)).
  - reflexivity.
  - unfold Py.len. rewrite length_replicate. lia.
Defined.

End PipelineExtra.

(** ** The matcher: index, tally and best match *)

Module CredentialConnectingExtra.
Import CredentialConnecting CredentialConnectingInv CredentialConnectingFacts.

Lemma get_default_dict_set {K V} `{EqDecision K} (k k' : K) (v dflt : V)
    (d : Py.dict K V) :
  get_default k (Py.set k' v d) dflt
  = if decide (k = k') then v else get_default k d dflt.
Proof.
  unfold get_default. destruct (decide (k = k')) as [-> | Hne].
  - by rewrite get_set_eq.
  - by rewrite get_set_ne.
Qed.

Lemma max_by_max {A} (key : A -> Z) (rest : list A) : forall best x,
  x ∈ best :: rest -> key x <= key (max_by key best rest).
Proof.
  induction rest as [| y rest IH]; intros best x Hx.
  - apply list_elem_of_singleton in Hx as ->. simpl. lia.
  - cbn [max_by].
    set (b' := if key best <? key y then y else best).
    assert (Hb' : key best <= key b' /\ key y <= key b').
    { unfold b'. destruct (key best <? key y) eqn:Hlt; lia. }
    assert (Hmax : key b' <= key (max_by key b' rest)) by (apply IH; by left).
    apply elem_of_cons in Hx as [-> | [-> | Hx]%elem_of_cons]; [lia | lia |].
    apply IH. by right.
Qed.

Section index_facts.
Context `{SetOrder}.

(** *** The inverted index *)

Lemma index_add_fold i xs : forall index elem,
  (NoDup (get_default elem index []) ->
   NoDup (get_default elem
            (foldl (λ index e, index_add index i e) index xs) []))
  /\ forall j,
       j ∈ get_default elem
             (foldl (λ index e, index_add index i e) index xs) []
       <-> j ∈ get_default elem index [] \/ (j = i /\ elem ∈ xs).
Proof.
  induction xs as [| x xs IH]; intros index elem.
  - cbn [foldl]. split; [done |]. intros j. rewrite elem_of_nil. tauto.
  - cbn [foldl]. destruct (IH (index_add index i x) elem) as [IHnd IHmem].
    assert (Hstep : get_default elem (index_add index i x) []
                    = if decide (elem = x)
                      then set_add (get_default x index []) i
                      else get_default elem index []).
    { unfold index_add. apply get_default_dict_set. }
    split.
    + intros Hnd. apply IHnd. rewrite Hstep.
      destruct (decide (elem = x)) as [-> | Hne]; [| done].
      by apply set_add_NoDup.
    + intros j. rewrite IHmem, Hstep, elem_of_cons.
      destruct (decide (elem = x)) as [-> | Hne].
      * rewrite set_add_elem. tauto.
      * tauto.
Qed.

Lemma build_index_snoc B b :
  build_index (B ++ [b])
  = foldl (λ index e, index_add index (length B) e) (build_index B)
      (set_of b).
Proof.
  unfold build_index. rewrite imap_app, foldl_app. cbn [imap foldl fst snd].
  by rewrite Nat.add_0_r.
Qed.

Lemma build_index_spec B : index_of B (build_index B).
Proof.
  induction B as [| b B IH] using rev_ind.
  - intros elem. split; [apply NoDup_nil_2 |]. intros i.
    cbn. rewrite elem_of_nil. split; [done |].
    by intros (b & Hb & _).
  - intros elem. destruct (IH elem) as [IHnd IHmem].
    rewrite build_index_snoc.
    destruct (index_add_fold (length B) (set_of b) (build_index B) elem)
      as [Hnd Hmem].
    split; [by apply Hnd |]. intros i. rewrite Hmem, IHmem, set_of_elem.
    split.
    + intros [(b' & Hb' & Hin) | [-> Hin]].
      * exists b'. split; [| done]. by apply lookup_app_l_Some.
      * exists b. split; [| done]. by rewrite list_lookup_middle.
    + intros (b' & Hb' & Hin).
      apply lookup_app_Some in Hb' as [Hb' | [Hge Hb']].
      * left. by exists b'.
      * right. destruct (i - length B)%nat as [| n] eqn:Hn; [| done].
        injection Hb' as ->. split; [lia | done].
Qed.

(** *** The tally *)

Lemma get_default_counter_incr (counter : Py.dict nat Z) idx i :
  get_default i (counter_incr counter idx) 0
  = get_default i counter 0 + (if decide (i = idx) then 1 else 0).
Proof.
  unfold counter_incr. rewrite get_default_dict_set.
  destruct (decide (i = idx)) as [-> | Hne]; lia.
Qed.

Lemma counter_incr_fold (s : list nat) : forall (counter : Py.dict nat Z) i,
  NoDup s ->
  get_default i (foldl counter_incr counter s) 0
  = get_default i counter 0 + (if decide (i ∈ s) then 1 else 0).
Proof.
  induction s as [| x s IH]; intros counter i Hnd.
  - cbn [foldl]. rewrite decide_False by apply not_elem_of_nil. lia.
  - apply NoDup_cons in Hnd as [Hx Hnd]. cbn [foldl].
    rewrite IH, get_default_counter_incr by done.
    destruct (decide (i = x)) as [-> | Hne].
    + rewrite decide_False by done.
      rewrite decide_True by by left. lia.
    + destruct (decide (i ∈ s)) as [Hin | Hnin].
      * rewrite decide_True by by right. lia.
      * rewrite decide_False; [lia |].
        rewrite elem_of_cons. tauto.
Qed.

Lemma counter_incr_fold_keys (s : list nat) :
  forall (counter : Py.dict nat Z) i,
  i ∈ Py.keys (foldl counter_incr counter s)
  <-> i ∈ s \/ i ∈ Py.keys counter.
Proof.
  induction s as [| x s IH]; intros counter i.
  - cbn [foldl]. rewrite elem_of_nil. tauto.
  - cbn [foldl]. rewrite IH, counter_incr_keys, elem_of_cons. tauto.
Qed.

Lemma tally_fold index (xs : list string) :
  (forall elem, NoDup (get_default elem index [])) ->
  forall (counter : Py.dict nat Z) i,
    get_default i
      (foldl (λ counter elem,
                foldl counter_incr counter (get_default elem index []))
         counter xs) 0
    = get_default i counter 0
      + Z.of_nat (length (filter (λ elem, i ∈ get_default elem index []) xs)).
Proof.
  intros Hnd. induction xs as [| x xs IH]; intros counter i.
  - cbn [foldl]. rewrite filter_nil. cbn [length]. lia.
  - cbn [foldl]. rewrite IH, counter_incr_fold by done.
    rewrite filter_cons.
    destruct (decide (i ∈ get_default x index [])); cbn [length]; lia.
Qed.

Lemma tally_fold_keys index (xs : list string) :
  forall (counter : Py.dict nat Z) i,
    i ∈ Py.keys
          (foldl (λ counter elem,
                    foldl counter_incr counter (get_default elem index []))
             counter xs)
    <-> (exists elem, elem ∈ xs /\ i ∈ get_default elem index [])
        \/ i ∈ Py.keys counter.
Proof.
  induction xs as [| x xs IH]; intros counter i.
  - cbn [foldl]. split; [by right |].
    intros [(elem & Hin & _) | Hk]; [by apply elem_of_nil in Hin | done].
  - cbn [foldl]. rewrite IH, counter_incr_fold_keys. split.
    + intros [(elem & Hin & Hi) | [Hi | Hk]].
      * left. exists elem. split; [by right | done].
      * left. exists x. split; [by left | done].
      * by right.
    + intros [(elem & [-> | Hin]%elem_of_cons & Hi) | Hk].
      * right. by left.
      * left. by exists elem.
      * right. by right.
Qed.

Lemma filter_length_pos {A} (P : A -> Prop) `{!forall x, Decision (P x)}
    (l : list A) :
  (1 <= length (filter P l))%nat <-> exists x, x ∈ l /\ P x.
Proof.
  split.
  - destruct (filter P l) as [| x l'] eqn:Hf; [simpl; lia |].
    intros _. exists x.
    assert (Hx : x ∈ filter P l) by (rewrite Hf; by left).
    by apply list_elem_of_filter in Hx as [? ?].
  - intros (x & Hin & HP).
    assert (Hx : x ∈ filter P l) by by apply list_elem_of_filter.
    destruct (filter P l); [by apply elem_of_nil in Hx | simpl; lia].
Qed.

(** The tally of a candidate over a correct index: the count of a group
    is its overlap with the candidate, and the groups counted are those
    that share a token with it. *)
Lemma tally_spec B index a :
  index_of B index ->
  (forall i b, B !! i = Some b ->
     get_default i (tally index a) 0 = Z.of_nat (overlap a b))
  /\ (forall i, i ∈ Py.keys (tally index a)
                <-> exists b, B !! i = Some b /\ (1 <= overlap a b)%nat).
Proof.
  intros Hix. split.
  - intros i b Hb. unfold tally. rewrite tally_fold by apply Hix.
    change (get_default i [] 0) with 0. rewrite Z.add_0_l.
    unfold overlap. f_equal. f_equal. apply list_filter_iff.
    intros elem. rewrite (proj2 (Hix elem)). split.
    + intros (b' & Hb' & Hin). by simplify_eq.
    + intros Hin. by exists b.
  - intros i. unfold tally. rewrite tally_fold_keys. split.
    + intros [(elem & Hin & Hi) | Hk]; [| by apply elem_of_nil in Hk].
      apply (proj2 (Hix elem)) in Hi as (b & Hb & Hinb).
      exists b. split; [done |]. unfold overlap.
      apply filter_length_pos. by exists elem.
    + intros (b & Hb & Hov). left. unfold overlap in Hov.
      apply filter_length_pos in Hov as (elem & Hin & Hinb).
      exists elem. split; [done |]. apply (proj2 (Hix elem)). by exists b.
Qed.

(** X13. The inverted index that [_find_best_matches] builds is exact:
    for every token, the set [index[token]] holds a position [i] exactly
    when the group [B[i]] contains the token, and it lists each such
    position once, however often the token is repeated within a group or
    across groups. *)
Theorem index_lists_groups (B : list (list string)) (elem : string) :
  NoDup (get_default elem (build_index B) [])
  /\ forall i, i ∈ get_default elem (build_index B) []
               <-> exists b, B !! i = Some b /\ elem ∈ b.
Proof. apply build_index_spec. Qed.

(** X14. The counter that [_find_best_matches] fills for a candidate
    gives every group of the leaked data the number of distinct tokens of
    the candidate that occur in the group; repeated tokens, in the
    candidate or in the group, count once.  Its keys are the groups that
    share at least one token with the candidate. *)
Theorem tally_counts_overlap (B : list (list string)) (a : list string) :
  (forall i b, B !! i = Some b ->
     get_default i (tally (build_index B) a) 0 = Z.of_nat (overlap a b))
  /\ (forall i, i ∈ Py.keys (tally (build_index B) a)
                <-> exists b, B !! i = Some b /\ (1 <= overlap a b)%nat).
Proof. apply tally_spec, build_index_spec. Qed.

(** *** The best match *)

Lemma match_candidate_spec B index min_overlap a :
  index_of B index ->
  if decide (matchable B min_overlap a)
  then exists r,
         match_candidate index B min_overlap a = Py.ok [r]
         /\ best_match B min_overlap a r
  else match_candidate index B min_overlap a = Py.ok [].
Proof.
  intros Hix. destruct (tally_spec B index a Hix) as [Hval Hkeys].
  unfold match_candidate. cbv zeta.
  destruct (Py.keys (tally index a)) as [| k ks] eqn:Hk.
  { rewrite decide_False; [done |]. intros Hm.
    apply Exists_exists in Hm as (b & Hb & Hov & _).
    apply list_elem_of_lookup in Hb as [i Hi].
    assert (Hin : i ∈ @nil nat) by (apply Hkeys; eauto).
    by apply elem_of_nil in Hin. }
  set (key := λ x : nat, get_default x (tally index a) 0).
  set (best := max_by key k ks).
  assert (Hbest : best ∈ k :: ks) by apply max_by_elem.
  apply Hkeys in Hbest as (b & Hb & Hov).
  assert (Hvb : key best = Z.of_nat (overlap a b)) by by apply Hval.
  assert (Hmax : Forall (λ b', (overlap a b' <= overlap a b)%nat) B).
  { apply Forall_forall. intros b' Hb'.
    apply list_elem_of_lookup in Hb' as [i Hi].
    destruct (decide (1 <= overlap a b')%nat) as [Hpos | Hzero]; [| lia].
    assert (Hin : i ∈ k :: ks) by (apply Hkeys; eauto).
    pose proof (max_by_max key ks k i Hin) as Hle. fold best in Hle.
    unfold key at 1 in Hle. rewrite (Hval i b' Hi), Hvb in Hle. lia. }
  change (get_default best (tally index a) 0) with (key best).
  rewrite Hvb.
  destruct (min_overlap <=? Z.of_nat (overlap a b)) eqn:Hmin.
  - apply Z.leb_le in Hmin. rewrite decide_True.
    2:{ apply Exists_exists. exists b. split; [| done].
        by eapply list_elem_of_lookup_2. }
    rewrite (RangeCombiningFacts.index_nat _ _ b Hb). cbn [Py.bind Py.ok].
    eexists. split; [done |]. by exists best, b.
  - apply Z.leb_gt in Hmin. rewrite decide_False; [done |]. intros Hm.
    apply Exists_exists in Hm as (b' & Hb' & _ & Hge).
    apply (proj1 (Forall_forall _ _) Hmax) in Hb'. lia.
Qed.

Lemma find_best_matches_spec A B min_overlap :
  exists mrl,
    _find_best_matches A B min_overlap = Py.ok mrl
    /\ Forall2 (best_match B min_overlap)
         (filter (matchable B min_overlap) A) mrl.
Proof.
  unfold _find_best_matches.
  assert (Hgen : forall results,
    exists mrl,
      Py.foldM (λ results a,
                  r <- match_candidate (build_index B) B min_overlap a ;;
                  Py.ok (results ++ r)) A results = Py.ok (results ++ mrl)
      /\ Forall2 (best_match B min_overlap)
           (filter (matchable B min_overlap) A) mrl).
  { induction A as [| a A IH]; intros results.
    - exists []. rewrite app_nil_r. split; [done | constructor].
    - cbn [Py.foldM].
      pose proof (match_candidate_spec B (build_index B) min_overlap a
                    (build_index_spec B)) as Hc.
      destruct (decide (matchable B min_overlap a)) as [Hm | Hm].
      + destruct Hc as (r & -> & Hr). cbn [Py.bind Py.ok].
        destruct (IH (results ++ [r])) as (mrl & -> & Hall).
        exists (r :: mrl). rewrite <- app_assoc. split; [done |].
        rewrite filter_cons_True by done. by constructor.
      + rewrite Hc. cbn [Py.bind Py.ok]. rewrite app_nil_r.
        destruct (IH results) as (mrl & -> & Hall).
        exists mrl. split; [done |]. by rewrite filter_cons_False. }
  destruct (Hgen []) as (mrl & Hrun & Hall). by exists mrl.
Qed.

(** X15. [_find_best_matches] never raises and returns one entry
    for every candidate that shares at least one token and at least
    [min_overlap] distinct tokens with some group, in the order of those
    candidates, and no entry for the other candidates (so an entry's
    position in the result is not the candidate's position in [A]).  The
    entry of a candidate names a group whose overlap with the candidate
    is greatest among all groups, together with the positions of that
    group whose token is in the candidate. *)
Theorem find_best_matches_selects_best (A B : list (list string))
    (min_overlap : Z) :
  exists mrl,
    _find_best_matches A B min_overlap = Py.ok mrl
    /\ Forall2 (λ a r,
         exists g b,
           r = ([g], [set_and a b ≫= positions_of b])
           /\ B !! g = Some b
           /\ (1 <= overlap a b)%nat
           /\ min_overlap <= Z.of_nat (overlap a b)
           /\ Forall (λ b', (overlap a b' <= overlap a b)%nat) B)
         (filter (matchable B min_overlap) A) mrl.
Proof. apply find_best_matches_spec. Qed.

(** *** The records of [run] *)

Lemma pos_list_NoDup a b : NoDup (set_and a b ≫= positions_of b).
Proof.
  apply NoDup_bind.
  - intros x1 x2 i _ _ H1%positions_of_elem H2%positions_of_elem. congruence.
  - intros x _. apply positions_of_NoDup.
  - apply set_and_NoDup.
Qed.

Lemma bind_length_ge {A B} (f : A -> list B) (l : list A) :
  (forall x, x ∈ l -> (1 <= length (f x))%nat) ->
  (length l <= length (l ≫= f))%nat.
Proof.
  induction l as [| x l IH]; intros Hf; [done |].
  rewrite bind_cons, length_app. cbn [length].
  assert (1 <= length (f x))%nat by (apply Hf; by left).
  assert (length l <= length (l ≫= f))%nat.
  { apply IH. intros y Hy. apply Hf. by right. }
  lia.
Qed.

Lemma pos_list_length a b :
  (overlap a b <= length (set_and a b ≫= positions_of b))%nat.
Proof.
  assert (Hperm : set_and a b ≡ₚ filter (λ x, x ∈ b) (set_of a)).
  { apply set_and_Permutation.
    - apply NoDup_filter, set_of_NoDup.
    - intros x. rewrite list_elem_of_filter, set_of_elem. tauto. }
  unfold overlap. rewrite <- (Permutation_length Hperm).
  apply bind_length_ge. intros x Hx.
  apply set_and_elem in Hx as [_ Hx].
  apply list_elem_of_lookup in Hx as [i Hi].
  apply positions_of_elem in Hi.
  destruct (positions_of b x); [by apply elem_of_nil in Hi | simpl; lia].
Qed.

End index_facts.

Lemma lookups_fmap (plain : list string) pl ms :
  Forall2 (λ d m, plain !! d = Some m) pl ms ->
  ms = (λ d, default EmptyString (plain !! d)) <$> pl
  /\ Forall (λ d, (d < length plain)%nat) pl.
Proof.
  induction 1 as [| d m pl ms Hd _ [IH1 IH2]]; [done |].
  split.
  - rewrite fmap_cons, Hd, <- IH1. done.
  - constructor; [by eapply lookup_lt_Some | done].
Qed.

Lemma lookups_all (plain : list string) :
  (λ d, default EmptyString (plain !! d)) <$> seq 0 (length plain) = plain.
Proof.
  apply list_eq. intros i. rewrite list_lookup_fmap.
  destruct (plain !! i) as [m |] eqn:Hi.
  - rewrite lookup_seq_lt by by eapply lookup_lt_Some.
    cbn [fmap option_fmap option_map Nat.add]. by rewrite Hi.
  - rewrite lookup_seq_ge; [done |]. by apply lookup_ge_None.
Qed.

(** Plaintexts read at pairwise distinct positions of a group form a
    sub-multiset of the group. *)
Lemma lookups_submseteq (plain : list string) pl ms :
  Forall2 (λ d m, plain !! d = Some m) pl ms -> NoDup pl -> ms ⊆+ plain.
Proof.
  intros [-> Hlt]%lookups_fmap Hnd.
  assert (Hsub : pl ⊆+ seq 0 (length plain)).
  { apply NoDup_submseteq; [done |]. intros d Hd.
    apply elem_of_seq. apply (proj1 (Forall_forall _ _) Hlt) in Hd. lia. }
  apply (fmap_submseteq (λ d, default EmptyString (plain !! d))) in Hsub.
  by rewrite lookups_all in Hsub.
Qed.

(** Matched plaintexts and other candidates make up the group. *)
Lemma matched_and_others (plain ms : list string) :
  ms ⊆+ plain ->
  ms ++ elements (counter_sub (Counter plain) (Counter ms)) ≡ₚ plain.
Proof.
  intros Hsub. apply submseteq_Permutation in Hsub as [k Hk].
  apply occurrences_Permutation. intros x.
  rewrite occurrences_app, occurrences_difference.
  rewrite (Permutation_occurrences _ _ x Hk), occurrences_app. lia.
Qed.



Section run_facts.
Context `{SetOrder}.





Lemma connect_entry_records self queries min_overlap acc idpos g b pl :
  aligned self ->
  (idpos < length queries)%nat ->
  _hash_credentials_data self !! g = Some b ->
  Forall (λ d, (d < length b)%nat) pl ->
  NoDup pl ->
  (1 <= length pl)%nat ->
  min_overlap <= Z.of_nat (length pl) ->
  Forall (record_of_group self min_overlap) acc.1 ->
  exists acc',
    connect_entry self queries acc (idpos, ([g], [pl])) = Py.ok acc'
    /\ Forall (record_of_group self min_overlap) acc'.1
    /\ (length acc'.1 <= S (length acc.1))%nat.
Proof.
  intros Hal Hid Hg Hpl Hnd Hpos Hmin Hacc.
  destruct (Forall2_lookup_r _ _ _ _ _ Hal Hg) as (plain & Hplain & Hlen).
  destruct (resolve_from_group self g plain b pl Hplain Hg Hlen Hpl)
    as (ms & hs & Hres & Hms & _).
  destruct (lookup_lt_is_Some_2 queries idpos Hid) as [query Hq].
  unfold connect_entry. cbn [fst snd]. change (Py.len [g] =? 0) with false.
  cbv iota. cbn [imap Py.foldM Py.bind]. unfold connect at 1.
  cbn [fst snd]. rewrite Hres. cbn [Py.bind Py.ok fst snd].
  case_bool_decide as Hseen.
  - exists acc. cbn [Py.bind Py.ok]. split; [done |]. split; [done | lia].
  - rewrite (RangeCombiningFacts.index_nat _ _ query Hq).
    cbn [Py.bind Py.ok].
    rewrite (RangeCombiningFacts.index_nat [g] 0 g) by done.
    cbn [Py.bind Py.ok].
    rewrite (RangeCombiningFacts.index_nat _ _ plain Hplain).
    cbn [Py.bind Py.ok].
    eexists. split; [done |]. cbn [fst]. split.
    + apply Forall_app. split; [done |]. apply Forall_singleton.
      exists g, plain. cbn [matches_list other_candidate].
      split; [done |]. split.
      * apply matched_and_others. by eapply lookups_submseteq.
      * unfold Py.len. rewrite <- (Forall2_length _ _ _ Hms). lia.
    + rewrite length_app. simpl. lia.
Qed.

Lemma output_loop_records self queries min_overlap
    (entries : list (nat * match_result)) :
  aligned self ->
  Forall (λ ie, (ie.1 < length queries)%nat
                /\ exists a, best_match (_hash_credentials_data self)
                               min_overlap a ie.2) entries ->
  forall acc,
    Forall (record_of_group self min_overlap) acc.1 ->
    exists acc',
      Py.foldM (connect_entry self queries) entries acc = Py.ok acc'
      /\ Forall (record_of_group self min_overlap) acc'.1
      /\ (length acc'.1 <= length acc.1 + length entries)%nat.
Proof.
  intros Hal. induction entries as [| [idpos r] entries IH];
    intros Hall acc Hacc.
  - exists acc. split; [done |]. split; [done | simpl; lia].
  - apply Forall_cons in Hall as [[Hid (a & Hbm)] Hall].
    cbn [fst snd] in Hid, Hbm.
    destruct Hbm as (g & b & -> & Hg & Hov & Hmin & _).
    destruct (connect_entry_records self queries min_overlap acc idpos g b
                (set_and a b ≫= positions_of b))
      as (acc1 & Hrun & Hacc1 & Hlen1); try done.
    + apply pos_list_bound.
    + apply pos_list_NoDup.
    + pose proof (pos_list_length a b). lia.
    + pose proof (pos_list_length a b). lia.
    + destruct (IH Hall acc1 Hacc1) as (acc' & Hrun' & Hacc' & Hlen').
      exists acc'. cbn [Py.foldM]. rewrite Hrun. cbn [Py.bind Py.ok].
      split; [done |]. split; [done |]. simpl. lia.
Qed.

Lemma run_records (self : CredentialConnectingAttack)
    (identified_queries : list (list string)) (min_overlap : Z) :
  aligned self ->
  exists recs,
    run self identified_queries min_overlap = Py.ok recs
    /\ (length recs <= length identified_queries)%nat
    /\ Forall (λ r,
         exists g plain,
           _credentials_data self !! g = Some plain
           /\ matches_list r ++ other_candidate r ≡ₚ plain
           /\ 1 <= Py.len (matches_list r)
           /\ min_overlap <= Py.len (matches_list r)) recs.
Proof.
  intros Hal. unfold run.
  destruct (find_best_matches_spec identified_queries
              (_hash_credentials_data self) min_overlap)
    as (mrl & Hfind & Hall).
  rewrite Hfind. cbn [Py.bind Py.ok].
  assert (Hlen : (length mrl <= length identified_queries)%nat).
  { rewrite <- (Forall2_length _ _ _ Hall). apply length_filter. }
  destruct (output_loop_records self identified_queries min_overlap
              (imap pair mrl) Hal) with (acc := ([], []) : list ConnectionRecord * list (list string))
    as (acc & Hrun & Hacc & Hn).
  - apply Forall_forall. intros [i r] Hin.
    apply elem_of_lookup_imap in Hin as (i' & r' & [= -> ->] & Hl).
    cbn [fst snd]. split.
    + apply lookup_lt_Some in Hl. lia.
    + destruct (Forall2_lookup_r _ _ _ _ _ Hall Hl) as (a & _ & Ha).
      by exists a.
  - done.
  - exists acc.1. rewrite Hrun. cbn [Py.bind Py.ok]. split; [done |].
    split; [| done]. rewrite length_imap in Hn. simpl in Hn. lia.
Qed.

(** X16. On a matcher whose two tables are index-aligned (as
    [pre_compute] builds them) [run] never raises, and it returns at most
    one record per candidate.  Every record stems from one group of the
    leaked data: its matched plaintexts together with its other
    candidates are exactly the plaintexts of that group (as a multiset, so
    no leaked plaintext is lost or invented), and it matches at least one
    plaintext and at least [min_overlap] of them. *)
Theorem run_records_split_groups (self : CredentialConnectingAttack)
    (identified_queries : list (list string)) (min_overlap : Z) :
  aligned self ->
  exists recs,
    run self identified_queries min_overlap = Py.ok recs
    /\ (length recs <= length identified_queries)%nat
    /\ Forall (λ r,
         exists g plain,
           _credentials_data self !! g = Some plain
           /\ matches_list r ++ other_candidate r ≡ₚ plain
           /\ 1 <= Py.len (matches_list r)
           /\ min_overlap <= Py.len (matches_list r)) recs.
Proof. apply run_records. Qed.

(** X17. When no candidate shares at least one token and at least
    [min_overlap] distinct tokens with a group of the leaked data (in
    particular when the leaked data or the candidate list is empty),
    [run] returns the empty list; no table of the matcher is read, so
    this holds even if the two tables are not aligned. *)
Theorem run_without_match (self : CredentialConnectingAttack)
    (identified_queries : list (list string)) (min_overlap : Z) :
  Forall (λ a, ¬ matchable (_hash_credentials_data self) min_overlap a)
    identified_queries ->
  run self identified_queries min_overlap = Py.ok [].
Proof.
  intros Hnone. unfold run.
  destruct (find_best_matches_spec identified_queries
              (_hash_credentials_data self) min_overlap)
    as (mrl & Hfind & Hall).
  rewrite Hfind. cbn [Py.bind Py.ok].
  rewrite filter_none in Hall by done.
  apply Forall2_nil_inv_l in Hall as ->. done.
Qed.

End run_facts.


Lemma run_records_split_groups_witness :
  exists recs,
    run {| _credentials_data := [["p1"; "p2"; "p3"]%string];
           _hash_credentials_data := [["h1"; "h2"; "h3"]%string] |}
      [["h1"; "h3"; "zz"]%string] 2 = Py.ok recs
    /\ (length recs <= 1)%nat.
Proof.
  destruct (run_records_split_groups
              {| _credentials_data := [["p1"; "p2"; "p3"]%string];
                 _hash_credentials_data := [["h1"; "h2"; "h3"]%string] |}
              [["h1"; "h3"; "zz"]%string] 2) as (recs & Hrun & Hlen & _).
  - repeat constructor.
  - by exists recs.
Defined.

Lemma run_without_match_witness :
  run {| _credentials_data := [["p1"; "p2"]%string];
         _hash_credentials_data := [["h1"; "h2"]%string] |}
    [["h1"; "zz"]%string] 2 = Py.ok [].
Proof.
  apply (run_without_match
           {| _credentials_data := [["p1"; "p2"]%string];
              _hash_credentials_data := [["h1"; "h2"]%string] |}
           [["h1"; "zz"]%string] 2).
  apply Forall_singleton. intros Hm.
  apply Exists_cons in Hm as [[_ Hm] | Hm]; [| by apply Exists_nil in Hm].
  assert (Hov : overlap ["h1"; "zz"]%string ["h1"; "h2"]%string = 1%nat).
  { rewrite overlap_filter by compute_done. by vm_compute. }
  rewrite Hov in Hm. lia.
Defined.

(** *** The tables that [pre_compute] builds, in closed form *)

Lemma digest_group_fold sha256_hexdigest query_type prefix_length
    (credentials : list credential) : forall acc,
  foldl (λ acc c,
           let digest s := Py.str_slice (sha256_hexdigest s) 0 prefix_length in
           if decide (query_type = "user"%string) then
             (acc.1 ++ [digest (c_username c)], acc.2 ++ [c_username c])
           else if decide (query_type = "pass"%string) then
             (acc.1 ++ [digest (c_password c)], acc.2 ++ [c_password c])
           else if decide (query_type = "cred"%string) then
             (acc.1 ++ [digest (c_text c)], acc.2 ++ [c_text c])
           else acc)
    acc credentials
  = (acc.1 ++ ((λ s, Py.str_slice (sha256_hexdigest s) 0 prefix_length)
                 <$> omap (plaintext_of query_type) credentials),
     acc.2 ++ omap (plaintext_of query_type) credentials).
Proof.
  unfold plaintext_of.
  destruct (decide (query_type = "user"%string));
    [| destruct (decide (query_type = "pass"%string));
       [| destruct (decide (query_type = "cred"%string))]];
    (induction credentials as [| c credentials IH]; intros [hs ps];
     [ cbn [foldl omap list_omap fmap list_fmap fst snd];
       by rewrite !app_nil_r
     | cbn [foldl]; rewrite IH;
       cbn [omap list_omap fmap list_fmap fst snd];
       by rewrite <- ?app_assoc ]).
Qed.

Lemma digest_group_closed sha256_hexdigest query_type prefix_length
    (credentials : list credential) :
  digest_group sha256_hexdigest query_type prefix_length credentials
  = ((λ s, Py.str_slice (sha256_hexdigest s) 0 prefix_length)
       <$> omap (plaintext_of query_type) credentials,
     omap (plaintext_of query_type) credentials).
Proof.
  exact (digest_group_fold sha256_hexdigest query_type prefix_length
           credentials ([], [])).
Qed.

Lemma pre_compute_tables (sha256_hexdigest : string -> string)
    (self : CredentialConnectingAttack) (query_type : string)
    (prefix_length : Z) (lines : list (list credential)) :
  let groups : list (list string) :=
    (λ credentials : list credential,
       omap (plaintext_of query_type) credentials)
      <$> filter (λ credentials, 10 < Py.len credentials) lines in
  pre_compute sha256_hexdigest self query_type prefix_length lines
  = {| _credentials_data := _credentials_data self ++ groups;
       _hash_credentials_data :=
         _hash_credentials_data self
         ++ ((λ plaintext_list : list string,
                (λ s, Py.str_slice (sha256_hexdigest s) 0 prefix_length)
                  <$> plaintext_list)
               <$> groups) |}.
Proof.
  cbv zeta. unfold pre_compute. revert self.
  induction lines as [| credentials lines IH]; intros self.
  - cbn [foldl]. rewrite filter_nil. cbn [fmap list_fmap].
    rewrite !app_nil_r. by destruct self.
  - cbn [foldl]. rewrite IH, filter_cons.
    destruct (10 <? Py.len credentials) eqn:Hlen.
    + apply Z.ltb_lt in Hlen. rewrite decide_True by done.
      rewrite digest_group_closed.
      cbn [_credentials_data _hash_credentials_data fst snd fmap list_fmap].
      by rewrite <- !app_assoc.
    + apply Z.ltb_ge in Hlen. rewrite decide_False by lia. done.
Qed.

(** X18. [pre_compute] appends one group for every line of more than
    ten fields, in file order, and none for the other lines.  The
    plaintext list of a group holds the usernames, the passwords or the
    field texts of the line, by query type (and is empty for any other
    query type), and its hash list is, position by position, the first
    [prefix_length] characters of the SHA-256 hex digest of the plaintext
    at that position.  What the matcher held before is kept in front. *)
Theorem pre_compute_closed_form (sha256_hexdigest : string -> string)
    (self : CredentialConnectingAttack) (query_type : string)
    (prefix_length : Z) (lines : list (list credential)) :
  let groups : list (list string) :=
    (λ credentials : list credential,
       omap (plaintext_of query_type) credentials)
      <$> filter (λ credentials, 10 < Py.len credentials) lines in
  pre_compute sha256_hexdigest self query_type prefix_length lines
  = {| _credentials_data := _credentials_data self ++ groups;
       _hash_credentials_data :=
         _hash_credentials_data self
         ++ ((λ plaintext_list : list string,
                (λ s, Py.str_slice (sha256_hexdigest s) 0 prefix_length)
                  <$> plaintext_list)
               <$> groups) |}.
Proof. apply pre_compute_tables. Qed.

End CredentialConnectingExtra.

(** ** The dataset loaders *)

Module UtilsExtra.
Import CredentialConnecting CredentialConnectingInv Utils.

(** *** [load_plaintext_series] *)

(** X19. [load_plaintext_series] returns, in file order, the hash
    lists of the lines whose hash list has between [windows_low] and
    [windows_high] entries and whose count is at least [min_count]; the
    second component of the result is the number of series returned. *)
Theorem load_plaintext_series_total (lines : list series_line)
    (windows_low windows_high min_count : Z) :
  let r := load_plaintext_series lines windows_low windows_high min_count in
  r.1 = s_hash_list
          <$> filter (λ line, windows_low <= Py.len (s_hash_list line)
                              /\ Py.len (s_hash_list line) <= windows_high
                              /\ min_count <= s_times line) lines
  /\ r.2 = Py.len r.1.
Proof.
  cbv zeta. unfold load_plaintext_series.
  assert (Hgen : forall acc : list (list string) * Z,
    let r := foldl (λ acc line,
                      if (windows_low <=? Py.len (s_hash_list line))
                         && (Py.len (s_hash_list line) <=? windows_high)
                         && (min_count <=? s_times line)
                      then (acc.1 ++ [s_hash_list line], acc.2 + 1)
                      else acc) acc lines in
    r.1 = acc.1 ++ (s_hash_list
            <$> filter (λ line, windows_low <= Py.len (s_hash_list line)
                                /\ Py.len (s_hash_list line) <= windows_high
                                /\ min_count <= s_times line) lines)
    /\ (acc.2 = Py.len acc.1 -> r.2 = Py.len r.1)).
  { cbv zeta. induction lines as [| line lines IH]; intros acc.
    - cbn [foldl]. rewrite filter_nil. cbn [fmap list_fmap].
      by rewrite app_nil_r.
    - cbn [foldl]. rewrite filter_cons.
      destruct ((windows_low <=? Py.len (s_hash_list line))
                && (Py.len (s_hash_list line) <=? windows_high)
                && (min_count <=? s_times line)) eqn:Htest.
      + apply andb_prop in Htest as [[H1 H2]%andb_prop H3].
        apply Z.leb_le in H1, H2, H3. rewrite decide_True by done.
        destruct (IH (acc.1 ++ [s_hash_list line], acc.2 + 1)) as [IH1 IH2].
        cbn [fst snd] in IH1, IH2. split.
        * rewrite IH1, fmap_cons, <- app_assoc. done.
        * intros Hacc. apply IH2. unfold Py.len in *.
          rewrite length_app. cbn [length]. lia.
      + rewrite decide_False; [apply IH |].
        intros (H1 & H2 & H3).
        apply Z.leb_le in H1, H2, H3. by rewrite H1, H2, H3 in Htest. }
  destruct (Hgen ([], 0)) as [H1 H2]. split; [exact H1 |]. by apply H2.
Qed.

(** *** [load_leaked_dataset] *)

Lemma add_all_elem {A} (f : A -> string) (l : list A) :
  forall (s : gset string) x,
    x ∈ foldl (λ s c, {[ f c ]} ∪ s) s l
    <-> x ∈ s \/ exists c, c ∈ l /\ x = f c.
Proof.
  induction l as [| c l IH]; intros s x.
  - cbn [foldl]. split; [by left |].
    intros [Hs | (c & Hc & _)]; [done | by apply elem_of_nil in Hc].
  - cbn [foldl]. rewrite IH, elem_of_union, elem_of_singleton. split.
    + intros [[-> | Hs] | (c' & Hc' & ->)].
      * right. exists c. split; [by left | done].
      * by left.
      * right. exists c'. split; [by right | done].
    + intros [Hs | (c' & [-> | Hc']%elem_of_cons & ->)].
      * left. by right.
      * left. by left.
      * right. by exists c'.
Qed.

Lemma add_lines_elem {A} (f : A -> string) (skip : list A -> bool)
    (lines : list (list A)) :
  forall (s : gset string) x,
    x ∈ foldl (λ s line,
                 if skip line then s
                 else foldl (λ s c, {[ f c ]} ∪ s) s line) s lines
    <-> x ∈ s
        \/ exists line c,
             line ∈ lines /\ skip line = false /\ c ∈ line /\ x = f c.
Proof.
  induction lines as [| line lines IH]; intros s x.
  - cbn [foldl]. split; [by left |].
    intros [Hs | (line & c & Hl & _)]; [done | by apply elem_of_nil in Hl].
  - cbn [foldl]. rewrite IH. destruct (skip line) eqn:Hk.
    + split.
      * intros [Hs | (line' & c & Hl & Hk' & Hc & ->)]; [by left |].
        right. exists line', c. split; [by right | done].
      * intros [Hs | (line' & c & [-> | Hl]%elem_of_cons & Hk' & Hc & ->)].
        -- by left.
        -- congruence.
        -- right. by exists line', c.
    + rewrite add_all_elem. split.
      * intros [[Hs | (c & Hc & ->)] | (line' & c & Hl & Hk' & Hc & ->)].
        -- by left.
        -- right. exists line, c. split; [by left | done].
        -- right. exists line', c. split; [by right | done].
      * intros [Hs | (line' & c & [-> | Hl]%elem_of_cons & Hk' & Hc & ->)].
        -- left. by left.
        -- left. right. by exists c.
        -- right. by exists line', c.
Qed.

(** X20. [load_leaked_dataset] raises [ValueError] exactly for a
    query type other than 'user', 'pass' and 'cred'.  For 'user' it
    returns the same set as for 'cred': the rendered credentials
    [str(credential)] of all lines, not the usernames. *)
Theorem load_leaked_dataset_types (str_credential : credential -> string)
    (lines : list (list credential)) (query_type : string) :
  (load_leaked_dataset str_credential lines query_type
   = Py.raise Py.ValueError
   <-> query_type ≠ "user"%string /\ query_type ≠ "pass"%string
       /\ query_type ≠ "cred"%string)
  /\ load_leaked_dataset str_credential lines "user"
     = load_leaked_dataset str_credential lines "cred"
  /\ exists leaked_set,
       load_leaked_dataset str_credential lines "user" = Py.ok leaked_set
       /\ forall x, x ∈ leaked_set
                    <-> exists line c,
                          line ∈ lines /\ c ∈ line /\ x = str_credential c.
Proof.
  split; [| split].
  - unfold load_leaked_dataset.
    destruct (decide (query_type = "user"%string)) as [-> | Hu];
      [split; [done | by intros [? _]] |].
    destruct (decide (query_type = "pass"%string)) as [-> | Hp];
      [split; [done | by intros (_ & ? & _)] |].
    destruct (decide (query_type = "cred"%string)) as [-> | Hc];
      [split; [done | by intros (_ & _ & ?)] |].
    done.
  - done.
  - eexists. split; [done |]. intros x.
    pose proof (add_lines_elem str_credential (λ _, false) lines ∅ x) as Hm.
    cbv beta iota in Hm. rewrite Hm. split.
    + intros [Hs | (line & c & Hl & _ & Hc & ->)]; [set_solver |].
      by exists line, c.
    + intros (line & c & Hl & Hc & ->). right. by exists line, c.
Qed.

(** X21. For 'pass', [load_leaked_dataset] returns exactly the
    passwords of the lines with at least ten fields.  [pre_compute] keeps
    only lines with more than ten fields, so the passwords of a line with
    exactly ten fields are in the leaked set although [pre_compute] makes
    no group for that line. *)
Theorem leaked_passwords_threshold (str_credential : credential -> string)
    (sha256_hexdigest : string -> string)
    (lines : list (list credential)) :
  exists leaked_set,
    load_leaked_dataset str_credential lines "pass" = Py.ok leaked_set
    /\ (forall x, x ∈ leaked_set
                  <-> exists line c,
                        line ∈ lines /\ 10 <= Py.len line
                        /\ c ∈ line /\ x = c_password c)
    /\ forall line self prefix_length,
         line ∈ lines -> Py.len line = 10 ->
         (forall c, c ∈ line -> c_password c ∈ leaked_set)
         /\ pre_compute sha256_hexdigest self "pass" prefix_length [line]
            = self.
Proof.
  eexists. split; [done |].
  assert (Hmem : forall x,
    x ∈ foldl (λ leaked_set credentials,
                 if Py.len credentials <? 10 then leaked_set
                 else foldl (λ leaked_set c, {[ c_password c ]} ∪ leaked_set)
                        leaked_set credentials) (∅ : gset string) lines
    <-> exists line c,
          line ∈ lines /\ 10 <= Py.len line /\ c ∈ line /\ x = c_password c).
  { intros x.
    rewrite (add_lines_elem c_password (λ line, Py.len line <? 10) lines ∅ x).
    split.
    - intros [Hs | (line & c & Hl & Hk & Hc & ->)]; [set_solver |].
      exists line, c. split; [done |]. split; [| done].
      apply Z.ltb_ge in Hk. lia.
    - intros (line & c & Hl & Hk & Hc & ->). right. exists line, c.
      split; [done |]. split; [| done]. apply Z.ltb_ge. lia. }
  split; [exact Hmem |].
  intros line self prefix_length Hl Hlen. split.
  - intros c Hc. apply Hmem. exists line, c. split; [done |].
    split; [lia | done].
  - unfold pre_compute. cbn [foldl]. rewrite Hlen.
    change (10 <? 10) with false. done.
Qed.

End UtilsExtra.

(** ** The connection metrics *)

Module MetricsExtra.
Import CredentialConnecting CredentialConnectingInv CredentialConnectingFacts.
Import CredentialConnectingExtra Metrics.

Section metrics_facts.
Context `{SetOrder}.

(** *** Indexes built group by group *)

Lemma index_of_nil : index_of [] [].
Proof.
  intros elem. split; [apply NoDup_nil_2 |]. intros i.
  change (get_default elem [] []) with (@nil nat). rewrite elem_of_nil.
  split; [done |]. by intros (b & Hb & _).
Qed.

Lemma index_of_snoc B index (b xs : list string) :
  index_of B index ->
  (forall e, e ∈ xs <-> e ∈ b) ->
  index_of (B ++ [b])
    (foldl (λ index e, index_add index (length B) e) index xs).
Proof.
  intros Hix Hxs elem. destruct (Hix elem) as [IHnd IHmem].
  destruct (index_add_fold (length B) xs index elem) as [Hnd Hmem].
  split; [by apply Hnd |]. intros i. rewrite Hmem, IHmem, Hxs. split.
  - intros [(b' & Hb' & Hin) | [-> Hin]].
    + exists b'. split; [| done]. by apply lookup_app_l_Some.
    + exists b. split; [| done]. by rewrite list_lookup_middle.
  - intros (b' & Hb' & Hin).
    apply lookup_app_Some in Hb' as [Hb' | [Hge Hb']].
    + left. by exists b'.
    + right. destruct (i - length B)%nat as [| n] eqn:Hn; [| done].
      injection Hb' as ->. split; [lia | done].
Qed.

Lemma connected_index_spec (connected_result : list ConnectionRecord) :
  index_of (candidate_lists connected_result)
    (connected_index connected_result).
Proof.
  induction connected_result as [| row rows IH] using rev_ind.
  - apply index_of_nil.
  - unfold connected_index, candidate_lists.
    rewrite imap_app, foldl_app, fmap_app. cbn [imap foldl fst snd fmap list_fmap].
    rewrite Nat.add_0_r.
    rewrite <- (length_fmap (λ row, matches_list row ++ other_candidate row) rows).
    by apply index_of_snoc.
Qed.

Lemma ideal_index_fold query_type pos (credentials : list credential) :
  forall index,
    foldl (λ index c,
             if decide (query_type = "pass"%string) then
               index_add index pos (c_password c)
             else if decide (query_type = "user"%string) then
               index_add index pos (c_username c)
             else if decide (query_type = "cred"%string) then
               index_add index pos (c_text c)
             else index)
      index credentials
    = foldl (λ index e, index_add index pos e) index
        (omap (plaintext_of query_type) credentials).
Proof.
  unfold plaintext_of.
  destruct (decide (query_type = "pass"%string)) as [-> | Hp].
  - induction credentials as [| c credentials IH]; intros index; [done |].
    cbn [foldl omap list_omap]. by rewrite IH.
  - destruct (decide (query_type = "user"%string)) as [-> | Hu];
      [| destruct (decide (query_type = "cred"%string))];
      (induction credentials as [| c credentials IH]; intros index; [done |];
       cbn [foldl omap list_omap]; by rewrite IH).
Qed.

(** The groups that [pre_compute] builds from the leaked lines. *)
Lemma ideal_index_spec (leak : list (list credential)) query_type :
  let groups : list (list string) :=
    (λ credentials : list credential,
       omap (plaintext_of query_type) credentials)
      <$> filter (λ credentials, 10 < Py.len credentials) leak in
  index_of groups (ideal_index leak query_type).1
  /\ (ideal_index leak query_type).2 = length groups.
Proof.
  cbv zeta. induction leak as [| credentials leak IH] using rev_ind.
  - split; [apply index_of_nil | done].
  - destruct IH as [IHix IHpos]. unfold ideal_index in *.
    rewrite foldl_app, filter_app, fmap_app. cbn [foldl].
    rewrite filter_cons, filter_nil.
    destruct (Py.len credentials <=? 10) eqn:Hlen.
    + apply Z.leb_le in Hlen. rewrite decide_False by lia.
      cbn [fmap list_fmap]. by rewrite app_nil_r.
    + apply Z.leb_gt in Hlen. rewrite decide_True by lia.
      cbn [fmap list_fmap fst snd]. rewrite ideal_index_fold, IHpos. split.
      * by apply index_of_snoc.
      * rewrite length_app. simpl. lia.
Qed.

(** *** The success test *)

Lemma best_count_reaches_spec B index overlap_min a :
  index_of B index ->
  best_count_reaches index overlap_min a = true <-> matchable B overlap_min a.
Proof.
  intros Hix. destruct (tally_spec B index a Hix) as [Hval Hkeys].
  unfold best_count_reaches. cbv zeta.
  destruct (Py.keys (tally index a)) as [| k ks] eqn:Hk.
  { split; [done |]. intros Hm.
    apply Exists_exists in Hm as (b & Hb & Hov & _).
    apply list_elem_of_lookup in Hb as [i Hi].
    assert (Hin : i ∈ @nil nat) by (apply Hkeys; eauto).
    by apply elem_of_nil in Hin. }
  set (key := λ x : nat, get_default x (tally index a) 0).
  set (best := max_by key k ks).
  assert (Hbest : best ∈ k :: ks) by apply max_by_elem.
  apply Hkeys in Hbest as (b & Hb & Hov).
  assert (Hvb : key best = Z.of_nat (overlap a b)) by by apply Hval.
  change (get_default best (tally index a) 0) with (key best).
  rewrite Hvb, Z.leb_le. split.
  - intros Hmin. apply Exists_exists. exists b. split; [| done].
    by eapply list_elem_of_lookup_2.
  - intros Hm. apply Exists_exists in Hm as (b' & Hb' & Hpos & Hge).
    apply list_elem_of_lookup in Hb' as [i Hi].
    assert (Hin : i ∈ k :: ks) by (apply Hkeys; eauto).
    pose proof (max_by_max key ks k i Hin) as Hle. fold best in Hle.
    unfold key at 1 in Hle. rewrite (Hval i b' Hi), Hvb in Hle. lia.
Qed.

Lemma count_successes_spec B index origin overlap_min :
  index_of B index ->
  count_successes index origin overlap_min
  = Z.of_nat (length (filter (λ line, skipped line = false
                                      /\ matchable B overlap_min
                                           (o_plaintext line)) origin)).
Proof.
  intros Hix. unfold count_successes.
  assert (Hgen : forall success,
    foldl (λ success line,
             if skipped line then success
             else if best_count_reaches index overlap_min (o_plaintext line)
                  then success + 1 else success) success origin
    = success
      + Z.of_nat (length (filter (λ line, skipped line = false
                                          /\ matchable B overlap_min
                                               (o_plaintext line)) origin))).
  { induction origin as [| line origin IH]; intros success.
    - cbn [foldl]. rewrite filter_nil. simpl. lia.
    - cbn [foldl]. rewrite IH, filter_cons.
      pose proof (best_count_reaches_spec B index overlap_min
                    (o_plaintext line) Hix) as Hspec.
      destruct (skipped line) eqn:Hskip.
      + rewrite decide_False by (by intros [? _]). done.
      + destruct (best_count_reaches index overlap_min (o_plaintext line)).
        * rewrite decide_True by (split; [done | by apply Hspec]).
          cbn [length]. lia.
        * rewrite decide_False; [done |].
          intros [_ Hm]. apply Hspec in Hm. done. }
  rewrite Hgen. lia.
Qed.

(** X22. [calculate_connected_success_rate] returns the number of
    lines of the plaintext file that are not skipped (10 to 20 plaintexts,
    seen at least twice) and whose plaintexts share at least one and at
    least [overlap] distinct entries with the candidate list
    [row[0] + row[2]] of some connection record. *)
Theorem success_rate_counts_matchable
    (connected_result : list ConnectionRecord) (origin : list origin_line)
    (overlap_min : Z) :
  calculate_connected_success_rate connected_result origin overlap_min
  = Z.of_nat
      (length
         (filter (λ line, skipped line = false
                          /\ matchable (candidate_lists connected_result)
                               overlap_min (o_plaintext line)) origin)).
Proof. apply count_successes_spec, connected_index_spec. Qed.


(** *** Measured against ideal success *)

Lemma filter_length_mono {A} (P Q : A -> Prop)
    `{!forall x, Decision (P x)} `{!forall x, Decision (Q x)} (l : list A) :
  (forall x, P x -> Q x) ->
  (length (filter P l) <= length (filter Q l))%nat.
Proof.
  intros HPQ. induction l as [| x l IH]; [done |].
  rewrite !filter_cons. destruct (decide (P x)) as [HP | HP].
  - rewrite decide_True by by apply HPQ. simpl. lia.
  - destruct (decide (Q x)); simpl; lia.
Qed.

Lemma overlap_same_members a (b b' : list string) :
  (forall x, x ∈ b <-> x ∈ b') -> overlap a b = overlap a b'.
Proof. intros Hbb. unfold overlap. f_equal. by apply list_filter_iff. Qed.

Lemma matchable_candidates B (recs : list ConnectionRecord) overlap_min a :
  Forall (λ r, exists g plain,
            B !! g = Some plain
            /\ matches_list r ++ other_candidate r ≡ₚ plain) recs ->
  matchable (candidate_lists recs) overlap_min a ->
  matchable B overlap_min a.
Proof.
  intros Hrecs Hm. apply Exists_exists in Hm as (b & Hb & Hpos & Hge).
  apply list_elem_of_fmap in Hb as (r & -> & Hr).
  apply (proj1 (Forall_forall _ _) Hrecs) in Hr as (g & plain & Hg & Hperm).
  assert (Hov : overlap a (matches_list r ++ other_candidate r)
                = overlap a plain).
  { apply overlap_same_members. intros x. by rewrite Hperm. }
  rewrite Hov in Hpos, Hge.
  apply Exists_exists. exists plain. split; [| done].
  by eapply list_elem_of_lookup_2.
Qed.

(** X24. The success that the driver measures never exceeds the ideal
    it is compared with.  For a matcher filled by [pre_compute] from the
    leaked file, [run] succeeds, and for every plaintext file and every
    overlap the count of [calculate_connected_success_rate] on the records
    of [run] is at most the count of [calculate_ideal_connected] on the
    same leaked file and query type. *)
Theorem success_at_most_ideal (sha256_hexdigest : string -> string)
    (prefix_length : Z) (leak : list (list credential)) (query_type : string)
    (identified_queries : list (list string)) (min_overlap : Z)
    (origin : list origin_line) (overlap_min : Z) :
  exists connected_result,
    run (pre_compute sha256_hexdigest
           {| _credentials_data := []; _hash_credentials_data := [] |}
           query_type prefix_length leak)
      identified_queries min_overlap = Py.ok connected_result
    /\ calculate_connected_success_rate connected_result origin overlap_min
       <= calculate_ideal_connected leak origin query_type overlap_min.
Proof.
  set (self := pre_compute sha256_hexdigest
                 {| _credentials_data := []; _hash_credentials_data := [] |}
                 query_type prefix_length leak).
  assert (Hal : aligned self).
  { apply pre_compute_aligned. constructor. }
  destruct (run_records self identified_queries min_overlap Hal)
    as (recs & Hrun & _ & Hrecs).
  exists recs. split; [done |].
  unfold calculate_connected_success_rate, calculate_ideal_connected.
  rewrite (count_successes_spec (candidate_lists recs))
    by apply connected_index_spec.
  rewrite (count_successes_spec (_credentials_data self)).
  2:{ pose proof (pre_compute_tables sha256_hexdigest
                    {| _credentials_data := []; _hash_credentials_data := [] |}
                    query_type prefix_length leak) as Hpc.
      cbv zeta in Hpc. unfold self. rewrite Hpc. cbn [_credentials_data app].
      apply ideal_index_spec. }
  apply inj_le, filter_length_mono. intros line [Hskip Hm].
  split; [done |]. eapply matchable_candidates; [| exact Hm].
  eapply Forall_impl; [exact Hrecs |].
  intros r (g & plain & Hg & Hperm & _). by exists g, plain.
Qed.

End metrics_facts.

(** *** The popular rate *)

Lemma count_members_bounds {A} (P : A -> bool) (l : list A) : forall n,
  n <= foldl (λ popular_p x, if P x then popular_p + 1 else popular_p) n l
    <= n + Py.len l.
Proof.
  unfold Py.len. induction l as [| x l IH]; intros n.
  - simpl. lia.
  - cbn [foldl length]. destruct (P x).
    + specialize (IH (n + 1)). lia.
    + specialize (IH n). lia.
Qed.

Lemma popular_counts_spec (top_password : gset string)
    (password_of : string -> string) (recs : list ConnectionRecord)
    (query_type : string) :
  let counts := popular_counts top_password password_of recs query_type in
  counts.1 = Py.len (concat (matches_list <$> recs))
  /\ 0 <= counts.2 <= counts.1
  /\ (query_type ≠ "pass"%string -> query_type ≠ "cred"%string ->
      counts.2 = 0).
Proof.
  cbv zeta. unfold popular_counts.
  destruct (decide (query_type = "pass"%string)) as [-> | Hp];
    [| destruct (decide (query_type = "cred"%string)) as [-> | Hc]];
    (induction recs as [| p recs IH] using rev_ind;
     [ cbn; unfold Py.len; simpl; lia | ]);
    rewrite foldl_app, fmap_app, concat_app;
    cbn [foldl fmap list_fmap concat]; rewrite app_nil_r;
    match goal with
    | |- context [foldl ?f (0, 0) recs] =>
        set (acc := foldl f (0, 0) recs) in *
    end;
    destruct IH as (IH1 & IH2 & IH3); cbn [fst snd];
    assert (Hlen : Py.len (concat (matches_list <$> recs) ++ matches_list p)
                   = Py.len (concat (matches_list <$> recs))
                     + Py.len (matches_list p))
      by (unfold Py.len; rewrite length_app; lia);
    assert (Hpos : 0 <= Py.len (matches_list p)) by (unfold Py.len; lia);
    rewrite Hlen, IH1.
  - pose proof (count_members_bounds
                  (λ pw, bool_decide (pw ∈ top_password))
                  (matches_list p) acc.2) as Hb.
    cbv beta in Hb. split; [done |]. split; [lia | done].
  - pose proof (count_members_bounds
                  (λ c, bool_decide (password_of c ∈ top_password))
                  (matches_list p) acc.2) as Hb.
    cbv beta in Hb. split; [done |]. split; [lia | done].
  - split; [done |]. split; [lia |]. intros _ _. by apply IH3.
Qed.

(** X25. [calculate_connected_popular_rate] never divides by zero: it
    returns [(0, 0, 0)] when no plaintext was matched, and otherwise the
    total number of matched plaintexts over all records, the number of
    popular ones among them, which lies between 0 and the total, and
    their quotient.  For a query type other than 'pass' and 'cred'
    nothing is counted as popular. *)
Theorem popular_rate_guarded (top_password : gset string)
    (password_of : string -> string) (recs : list ConnectionRecord)
    (query_type : string) :
  let total := Py.len (concat (matches_list <$> recs)) in
  exists popular_p,
    calculate_connected_popular_rate top_password password_of recs query_type
    = Py.ok (if total =? 0 then (0, 0, None)
             else (total, popular_p, Some (popular_p, total)))
    /\ 0 <= popular_p <= total
    /\ (query_type ≠ "pass"%string -> query_type ≠ "cred"%string ->
        popular_p = 0).
Proof.
  cbv zeta.
  destruct (popular_counts_spec top_password password_of recs query_type)
    as (Htotal & Hpop & Hother).
  unfold calculate_connected_popular_rate. cbv zeta. rewrite Htotal in *.
  exists (popular_counts top_password password_of recs query_type).2.
  split; [| done].
  destruct (Py.len (concat (matches_list <$> recs)) =? 0) eqn:Hz; [done |].
  unfold truediv. rewrite Hz. done.
Qed.

End MetricsExtra.
